(** * Induction and recurrence descriptors

    A shallow embedding of [llvm/lib/Analysis/IVDescriptors.cpp]: the
    reduction matcher ([AddReductionVar]), the reduction kind prober
    ([isReductionPHI]), the first-order-recurrence sinker
    ([isFirstOrderRecurrence]), the identity constants
    ([getRecurrenceIdentity]) and the integer/pointer induction classifier
    ([isInductionPHI]).

    The IR is a finite table of instructions.  An instruction is named by
    its index in that table, and the table lists the instructions in program
    order, so that within one block [comesBefore] is the order on indices.
    Pointer-keyed sets ([SmallPtrSet]) are finite sets of indices, the
    insertion-ordered [MapVector] is an association list. *)

From Stdlib Require Import ZArith List Bool Lia String PrimFloat Sorted.
From stdpp Require Import base relations gmap sets list.

Set Default Proof Using "Type".

(** ** Enumerations *)

Module RecurKind.
Inductive t :=
  | None | Add | Mul | Or | And | Xor
  | SMin | SMax | UMin | UMax
  | FAdd | FMul | FMin | FMax.

#[global] Instance kind_eq_dec : EqDecision t.
Proof. solve_decision. Defined.
End RecurKind.

Module Opcode.
Inductive t :=
  | Ret | Br | Switch | Unreachable
  | FNeg
  | Add | FAdd | Sub | FSub | Mul | FMul
  | UDiv | SDiv | FDiv | URem | SRem | FRem
  | Shl | LShr | AShr | And | Or | Xor
  | Alloca | Load | Store | GetElementPtr
  | Trunc | ZExt | SExt | FPToUI | FPToSI | UIToFP | SIToFP
  | FPTrunc | FPExt | PtrToInt | IntToPtr | BitCast
  | ICmp | FCmp | PHI | Call | Select.

#[global] Instance opcode_eq_dec : EqDecision t.
Proof. solve_decision. Defined.
End Opcode.

(** Compare predicates of [CmpInst]. *)
Inductive Predicate :=
| FCMP_FALSE | FCMP_OEQ | FCMP_OGT | FCMP_OGE | FCMP_OLT | FCMP_OLE
| FCMP_ONE | FCMP_ORD | FCMP_UNO | FCMP_UEQ | FCMP_UGT | FCMP_UGE
| FCMP_ULT | FCMP_ULE | FCMP_UNE | FCMP_TRUE
| ICMP_EQ | ICMP_NE | ICMP_UGT | ICMP_UGE | ICMP_ULT | ICMP_ULE
| ICMP_SGT | ICMP_SGE | ICMP_SLT | ICMP_SLE.

#[global] Instance Predicate_eq_dec : EqDecision Predicate.
Proof. solve_decision. Defined.

Definition getInversePredicate (p : Predicate) : Predicate :=
  match p with
  | FCMP_FALSE => FCMP_TRUE | FCMP_TRUE => FCMP_FALSE
  | FCMP_OEQ => FCMP_UNE | FCMP_UNE => FCMP_OEQ
  | FCMP_OGT => FCMP_ULE | FCMP_ULE => FCMP_OGT
  | FCMP_OGE => FCMP_ULT | FCMP_ULT => FCMP_OGE
  | FCMP_OLT => FCMP_UGE | FCMP_UGE => FCMP_OLT
  | FCMP_OLE => FCMP_UGT | FCMP_UGT => FCMP_OLE
  | FCMP_ONE => FCMP_UEQ | FCMP_UEQ => FCMP_ONE
  | FCMP_ORD => FCMP_UNO | FCMP_UNO => FCMP_ORD
  | ICMP_EQ => ICMP_NE | ICMP_NE => ICMP_EQ
  | ICMP_UGT => ICMP_ULE | ICMP_ULE => ICMP_UGT
  | ICMP_UGE => ICMP_ULT | ICMP_ULT => ICMP_UGE
  | ICMP_SGT => ICMP_SLE | ICMP_SLE => ICMP_SGT
  | ICMP_SGE => ICMP_SLT | ICMP_SLT => ICMP_SGE
  end.

(** ** Types, fast-math flags, values and instructions *)

Inductive Ty :=
| IntegerTy (bits : Z)
| HalfTy | BFloatTy | FloatTy | DoubleTy | FP128Ty
| PointerTy (elem : Ty)
| ArrayTy (n : Z) (elem : Ty)
| VoidTy | LabelTy | FunctionTy | OpaqueStructTy.

#[global] Instance Ty_eq_dec : EqDecision Ty.
Proof. solve_decision. Defined.

Definition isFloatingPointTy (t : Ty) : bool :=
  match t with
  | HalfTy | BFloatTy | FloatTy | DoubleTy | FP128Ty => true
  | _ => false
  end.

(** The element type under any nesting of arrays. *)
Fixpoint arrayElementTy (t : Ty) : Ty :=
  match t with
  | ArrayTy _ e => arrayElementTy e
  | _ => t
  end.

Definition isIntegerTy (t : Ty) : bool :=
  match t with IntegerTy _ => true | _ => false end.

Definition isPointerTy (t : Ty) : bool :=
  match t with PointerTy _ => true | _ => false end.

Fixpoint isSized (t : Ty) : bool :=
  match t with
  | IntegerTy _ | HalfTy | BFloatTy | FloatTy | DoubleTy | FP128Ty
  | PointerTy _ => true
  | ArrayTy _ e => isSized e
  | VoidTy | LabelTy | FunctionTy | OpaqueStructTy => false
  end.

Record FastMathFlags := mkFMF {
  allowReassoc : bool;
  noNaNs : bool;
  noInfs : bool;
  noSignedZeros : bool;
  allowReciprocal : bool;
  allowContract : bool;
  approxFunc : bool
}.

#[global] Instance FastMathFlags_eq_dec : EqDecision FastMathFlags.
Proof. solve_decision. Defined.

(** [FastMathFlags()], [FastMathFlags::getFast()], [operator&=] and
    [operator|=]. *)
Definition FMF_none : FastMathFlags :=
  mkFMF false false false false false false false.
Definition FMF_getFast : FastMathFlags :=
  mkFMF true true true true true true true.
Definition FMF_and (a b : FastMathFlags) : FastMathFlags :=
  mkFMF (allowReassoc a && allowReassoc b) (noNaNs a && noNaNs b)
        (noInfs a && noInfs b) (noSignedZeros a && noSignedZeros b)
        (allowReciprocal a && allowReciprocal b)
        (allowContract a && allowContract b) (approxFunc a && approxFunc b).
Definition FMF_or (a b : FastMathFlags) : FastMathFlags :=
  mkFMF (allowReassoc a || allowReassoc b) (noNaNs a || noNaNs b)
        (noInfs a || noInfs b) (noSignedZeros a || noSignedZeros b)
        (allowReciprocal a || allowReciprocal b)
        (allowContract a || allowContract b) (approxFunc a || approxFunc b).
Definition FMF_isFast (a : FastMathFlags) : bool :=
  allowReassoc a && noNaNs a && noInfs a && noSignedZeros a &&
  allowReciprocal a && allowContract a && approxFunc a.

Definition InstId := nat.
Definition BlockId := nat.

(** A value is an instruction, a [ConstantInt] (an [APInt] of [bits] bits
    holding the unsigned number [val]) or anything else (argument, global,
    other constant), which the analysis never looks into. *)
Inductive Value :=
| VInst (i : InstId)
| VConstInt (bits : Z) (val : Z)
| VOther (ty : Ty) (n : nat).

#[global] Instance Value_eq_dec : EqDecision Value.
Proof. solve_decision. Defined.

(** [dyn_cast<Instruction>(V)]. *)
Definition asInst (v : Value) : option InstId :=
  match v with VInst i => Some i | _ => None end.

Record Instruction := mkInst {
  getOpcode : Opcode.t;
  getType : Ty;
  (** operand list; for a PHI the incoming values *)
  operands : list Value;
  (** for a PHI, the incoming block of each operand *)
  incomingBlocks : list BlockId;
  (** the use list: one entry per use, in use-list order *)
  users : list InstId;
  getParent : BlockId;
  (** predicate of an ICmp or FCmp *)
  getPredicate : Predicate;
  getFastMathFlags : FastMathFlags;
  mayHaveSideEffects : bool;
  mayReadFromMemory : bool
}.

(** A function: its string attributes and its instructions in program
    order. *)
Record Function := mkFunction {
  fnAttributes : list (string * string);
  instructions : list Instruction
}.

(** The loop view: header, optional preheader and latch, member blocks. *)
Record Loop := mkLoop {
  getHeader : BlockId;
  getLoopPreheader : option BlockId;
  getLoopLatch : option BlockId;
  loopBlocks : list BlockId
}.

(** An index that names no instruction of the function reads as an
    [unreachable] without operands or users; a well-formed function never
    refers to one. *)
Definition noInst : Instruction :=
  mkInst Opcode.Unreachable VoidTy [] [] [] 0 FCMP_FALSE FMF_none false false.

Section IR.
Variable F : Function.

Definition inst (i : InstId) : Instruction :=
    default noInst (instructions F !! i).

Definition opcode (i : InstId) : Opcode.t := getOpcode (inst i).
Definition parent (i : InstId) : BlockId := getParent (inst i).

Definition valueType (v : Value) : Ty :=
    match v with
    | VInst i => getType (inst i)
    | VConstInt bits _ => IntegerTy bits
    | VOther ty _ => ty
    end.

Definition getOperand (i : InstId) (n : nat) : option Value :=
    operands (inst i) !! n.

  (** [dyn_cast<Instruction>(I->getOperand(n))] *)
Definition getOperandInst (i : InstId) (n : nat) : option InstId :=
    match getOperand i n with Some v => asInst v | None => None end.

Definition isa_PHINode (i : InstId) : bool :=
    bool_decide (opcode i = Opcode.PHI).
Definition isa_SelectInst (i : InstId) : bool :=
    bool_decide (opcode i = Opcode.Select).
Definition isa_ICmpInst (i : InstId) : bool :=
    bool_decide (opcode i = Opcode.ICmp).
Definition isa_FCmpInst (i : InstId) : bool :=
    bool_decide (opcode i = Opcode.FCmp).
Definition isa_CmpInst (i : InstId) : bool :=
    isa_ICmpInst i || isa_FCmpInst i.

  (** [isa<PHINode>] on a value. *)
Definition isa_PHINode_value (v : Value) : bool :=
    match v with VInst i => isa_PHINode i | _ => false end.

Definition isa_CastInst (i : InstId) : bool :=
    match opcode i with
    | Opcode.Trunc | Opcode.ZExt | Opcode.SExt | Opcode.FPToUI
    | Opcode.FPToSI | Opcode.UIToFP | Opcode.SIToFP | Opcode.FPTrunc
    | Opcode.FPExt | Opcode.PtrToInt | Opcode.IntToPtr | Opcode.BitCast => true
    | _ => false
    end.

Definition isBinaryOp (i : InstId) : bool :=
    match opcode i with
    | Opcode.Add | Opcode.FAdd | Opcode.Sub | Opcode.FSub | Opcode.Mul
    | Opcode.FMul | Opcode.UDiv | Opcode.SDiv | Opcode.FDiv | Opcode.URem
    | Opcode.SRem | Opcode.FRem | Opcode.Shl | Opcode.LShr | Opcode.AShr
    | Opcode.And | Opcode.Or | Opcode.Xor => true
    | _ => false
    end.

Definition isTerminator (i : InstId) : bool :=
    match opcode i with
    | Opcode.Ret | Opcode.Br | Opcode.Switch | Opcode.Unreachable => true
    | _ => false
    end.

  (** [Instruction::isCommutative]: by opcode.  Commutative intrinsic calls
      are not told apart from other calls; the matcher rejects a call either
      way. *)
Definition isCommutative (i : InstId) : bool :=
    match opcode i with
    | Opcode.Add | Opcode.FAdd | Opcode.Mul | Opcode.FMul
    | Opcode.And | Opcode.Or | Opcode.Xor => true
    | _ => false
    end.

  (** [isa<FPMathOperator>]: the floating-point arithmetic opcodes and
      compares, and PHI, select and call whose type is a floating-point
      type or an array of such. *)
Definition isa_FPMathOperator (i : InstId) : bool :=
    match opcode i with
    | Opcode.FNeg | Opcode.FAdd | Opcode.FSub | Opcode.FMul | Opcode.FDiv
    | Opcode.FRem | Opcode.FCmp => true
    | Opcode.PHI | Opcode.Select | Opcode.Call =>
        isFloatingPointTy (arrayElementTy (getType (inst i)))
    | _ => false
    end.

Definition hasAllowReassoc (i : InstId) : bool :=
    allowReassoc (getFastMathFlags (inst i)).
Definition isFast (i : InstId) : bool :=
    FMF_isFast (getFastMathFlags (inst i)).

Definition use_empty (i : InstId) : bool :=
    bool_decide (users (inst i) = []).
Definition hasOneUse (i : InstId) : bool :=
    bool_decide (length (users (inst i)) = 1).
Definition hasNUses (i : InstId) (n : nat) : bool :=
    bool_decide (length (users (inst i)) = n).
  (** the first entry of the use list, [user_begin] *)
Definition user_begin (i : InstId) : option InstId :=
    head (users (inst i)).

Definition getNumIncomingValues (i : InstId) : nat :=
    length (operands (inst i)).

  (** [PHINode::getBasicBlockIndex]: the first position of the block among
      the incoming blocks, [None] for -1. *)
Fixpoint indexOf (b : BlockId) (bs : list BlockId) : option nat :=
    match bs with
    | [] => None
    | b' :: r => if decide (b' = b) then Some 0 else S <$> indexOf b r
    end.
Definition getBasicBlockIndex (phi : InstId) (b : BlockId) : option nat :=
    indexOf b (incomingBlocks (inst phi)).

  (** [PHINode::getIncomingValueForBlock]; the source asserts that the block
      is an incoming block, here [None] stands for the assertion failing. *)
Definition getIncomingValueForBlock (phi : InstId) (b : option BlockId)
    : option Value :=
    match b with
    | Some b' =>
        match getBasicBlockIndex phi b' with
        | Some n => getOperand phi n
        | None => None
        end
    | None => None
    end.

Section WithLoop.
Variable TheLoop : Loop.

    (** [Loop::contains] on a block and on an instruction. *)
Definition containsBlock (b : BlockId) : bool :=
      bool_decide (b ∈ loopBlocks TheLoop).
Definition contains (i : InstId) : bool := containsBlock (parent i).
End WithLoop.
End IR.


(** ** Recurrence kinds *)

Definition isIntegerRecurrenceKind (Kind : RecurKind.t) : bool :=
  match Kind with
  | RecurKind.Add | RecurKind.Mul | RecurKind.Or | RecurKind.And
  | RecurKind.Xor | RecurKind.SMax | RecurKind.SMin | RecurKind.UMax
  | RecurKind.UMin => true
  | _ => false
  end.

Definition isFloatingPointRecurrenceKind (Kind : RecurKind.t) : bool :=
  bool_decide (Kind ≠ RecurKind.None) && negb (isIntegerRecurrenceKind Kind).

Definition isArithmeticRecurrenceKind (Kind : RecurKind.t) : bool :=
  match Kind with
  | RecurKind.Add | RecurKind.Mul | RecurKind.FAdd | RecurKind.FMul => true
  | _ => false
  end.

(** Modelled from the spec: the three min/max kind tests are declared in
    [IVDescriptors.h], which is not among the sources; the integer min/max
    kinds are the signed and unsigned ones, the floating-point ones are
    [FMin] and [FMax]. *)
Definition isIntMinMaxRecurrenceKind (Kind : RecurKind.t) : bool :=
  match Kind with
  | RecurKind.UMin | RecurKind.UMax | RecurKind.SMin | RecurKind.SMax => true
  | _ => false
  end.

Definition isFPMinMaxRecurrenceKind (Kind : RecurKind.t) : bool :=
  match Kind with
  | RecurKind.FMin | RecurKind.FMax => true
  | _ => false
  end.

Definition isMinMaxRecurrenceKind (Kind : RecurKind.t) : bool :=
  isIntMinMaxRecurrenceKind Kind || isFPMinMaxRecurrenceKind Kind.

(** ** The transient match state [InstDesc]

    Modelled from the spec: the class is declared in [IVDescriptors.h]; it
    holds (matched, patternInstruction, recKind, exactFPMathInst).  It has
    two constructors: one from a flag and an instruction, which leaves the
    kind at [None], and one from an instruction and a kind, which sets the
    flag. *)
Record InstDesc := mkInstDesc {
  isRecurrence : bool;
  getPatternInst : option InstId;
  getRecKind : RecurKind.t;
  getExactFPMathInst : option InstId
}.

Definition InstDesc_flag (IsRecur : bool) (I : option InstId)
    (ExactFP : option InstId) : InstDesc :=
  mkInstDesc IsRecur I RecurKind.None ExactFP.

Definition InstDesc_kind (I : InstId) (K : RecurKind.t)
    (ExactFP : option InstId) : InstDesc :=
  mkInstDesc true (Some I) K ExactFP.

(** [Set.count(dyn_cast<Instruction>(V))]: a null pointer is in no set. *)
Definition countInst (S : gset InstId) (o : option InstId) : bool :=
  match o with Some i => bool_decide (i ∈ S) | None => false end.

Section Patterns.
Variable F : Function.

(** [areAllUsesIn]: every operand of [I] is an instruction of [Set]. *)
Definition areAllUsesIn (I : InstId) (S : gset InstId) : bool :=
  forallb (fun v => countInst S (asInst v)) (operands (inst F I)).

(** [hasMultipleUsesOf]: more than [MaxNumUses] operands of [I] are in
    [Insts]; the scan stops at the first excess. *)
Fixpoint hasMultipleUsesOf_from (ops : list Value) (Insts : gset InstId)
    (MaxNumUses NumUses : nat) : bool :=
  match ops with
  | [] => false
  | U :: r =>
      let NumUses' :=
        if countInst Insts (asInst U) then S NumUses else NumUses in
      if MaxNumUses <? NumUses' then true
      else hasMultipleUsesOf_from r Insts MaxNumUses NumUses'
  end.

Definition hasMultipleUsesOf (I : InstId) (Insts : gset InstId)
    (MaxNumUses : nat) : bool :=
  hasMultipleUsesOf_from (operands (inst F I)) Insts MaxNumUses 0.

(** *** Pattern matchers

    Modelled from the spec: [PatternMatch.h] is not among the sources.  A
    min/max idiom is [select(cmp(a,b), a, b)] or its mirror, over an integer
    compare for the signed and unsigned flavours and over a floating-point
    compare for the ordered and unordered ones; the predicate is read in the
    direction in which the select returns the compared values. *)

(** [m_OneUse(m_Cmp(...))] on an instruction. *)
Definition isOneUseCmp (I : InstId) : bool :=
  hasOneUse F I && isa_CmpInst F I.

(** [m_Select(m_OneUse(m_Cmp(...)), m_Value(), m_Value())] *)
Definition isSelectOfOneUseCmp (I : InstId) : bool :=
  isa_SelectInst F I &&
  match getOperandInst F I 0 with
  | Some C => isOneUseCmp C
  | None => false
  end.

Definition matchMaxMin (fp : bool) (predOK : Predicate -> bool)
    (I : InstId) : bool :=
  isa_SelectInst F I &&
  match getOperandInst F I 0, getOperand F I 1, getOperand F I 2 with
  | Some Cmp, Some TrueVal, Some FalseVal =>
      (if fp then isa_FCmpInst F Cmp else isa_ICmpInst F Cmp) &&
      match getOperand F Cmp 0, getOperand F Cmp 1 with
      | Some LHS, Some RHS =>
          if (bool_decide (TrueVal ≠ LHS) || bool_decide (FalseVal ≠ RHS)) &&
             (bool_decide (TrueVal ≠ RHS) || bool_decide (FalseVal ≠ LHS))
          then false
          else
            predOK (if bool_decide (LHS = TrueVal)
                    then getPredicate (inst F Cmp)
                    else getInversePredicate (getPredicate (inst F Cmp)))
      | _, _ => false
      end
  | _, _, _ => false
  end.

Definition m_UMin := matchMaxMin false
  (fun p => bool_decide (p = ICMP_ULT) || bool_decide (p = ICMP_ULE)).
Definition m_UMax := matchMaxMin false
  (fun p => bool_decide (p = ICMP_UGT) || bool_decide (p = ICMP_UGE)).
Definition m_SMax := matchMaxMin false
  (fun p => bool_decide (p = ICMP_SGT) || bool_decide (p = ICMP_SGE)).
Definition m_SMin := matchMaxMin false
  (fun p => bool_decide (p = ICMP_SLT) || bool_decide (p = ICMP_SLE)).
Definition m_OrdFMin := matchMaxMin true
  (fun p => bool_decide (p = FCMP_OLT) || bool_decide (p = FCMP_OLE)).
Definition m_OrdFMax := matchMaxMin true
  (fun p => bool_decide (p = FCMP_OGT) || bool_decide (p = FCMP_OGE)).
Definition m_UnordFMin := matchMaxMin true
  (fun p => bool_decide (p = FCMP_ULT) || bool_decide (p = FCMP_ULE)).
Definition m_UnordFMax := matchMaxMin true
  (fun p => bool_decide (p = FCMP_UGT) || bool_decide (p = FCMP_UGE)).

(** *** [isMinMaxSelectCmpPattern] *)
Definition isMinMaxSelectCmpPattern (I : InstId) (Prev : InstDesc)
    : InstDesc :=
  let advance :=
    if isOneUseCmp I then
      match user_begin F I with
      | Some U => if isa_SelectInst F U then Some U else None
      | None => None
      end
    else None in
  match advance with
  | Some Select => InstDesc_kind Select (getRecKind Prev) None
  | None =>
      if negb (isSelectOfOneUseCmp I) then InstDesc_flag false (Some I) None
      else if m_UMin I then InstDesc_kind I RecurKind.UMin None
      else if m_UMax I then InstDesc_kind I RecurKind.UMax None
      else if m_SMax I then InstDesc_kind I RecurKind.SMax None
      else if m_SMin I then InstDesc_kind I RecurKind.SMin None
      else if m_OrdFMin I then InstDesc_kind I RecurKind.FMin None
      else if m_OrdFMax I then InstDesc_kind I RecurKind.FMax None
      else if m_UnordFMin I then InstDesc_kind I RecurKind.FMin None
      else if m_UnordFMax I then InstDesc_kind I RecurKind.FMax None
      else InstDesc_flag false (Some I) None
  end.

(** *** [isConditionalRdxPattern] *)
Definition isConditionalRdxPattern (Kind : RecurKind.t) (I : InstId)
    : InstDesc :=
  if negb (isa_SelectInst F I) then InstDesc_flag false (Some I) None else
  let SI := I in
  match getOperandInst F SI 0 with
  | None => InstDesc_flag false (Some I) None
  | Some CI =>
      if negb (isa_CmpInst F CI) || negb (hasOneUse F CI)
      then InstDesc_flag false (Some I) None else
      match getOperand F SI 1, getOperand F SI 2 with
      | Some TrueVal, Some FalseVal =>
          if (isa_PHINode_value F TrueVal && isa_PHINode_value F FalseVal) ||
             (negb (isa_PHINode_value F TrueVal) &&
              negb (isa_PHINode_value F FalseVal))
          then InstDesc_flag false (Some I) None else
          let I1 := if isa_PHINode_value F TrueVal
                    then asInst FalseVal else asInst TrueVal in
          match I1 with
          | None => InstDesc_flag false (Some I) None
          | Some I1 =>
              if negb (isBinaryOp F I1)
              then InstDesc_flag false (Some I) None
              else if (bool_decide (opcode F I1 = Opcode.FAdd) ||
                       bool_decide (opcode F I1 = Opcode.FSub)) &&
                      isFast F I1
              then InstDesc_flag (bool_decide (Kind = RecurKind.FAdd))
                                 (Some SI) None
              else if bool_decide (opcode F I1 = Opcode.FMul) && isFast F I1
              then InstDesc_flag (bool_decide (Kind = RecurKind.FMul))
                                 (Some SI) None
              else InstDesc_flag false (Some I) None
          end
      | _, _ => InstDesc_flag false (Some I) None
      end
  end.

(** *** [isRecurrenceInstr] *)
Definition isRecurrenceInstr (I : InstId) (Kind : RecurKind.t)
    (Prev : InstDesc) (FMF : FastMathFlags) : InstDesc :=
  let minmax :=
    if isIntMinMaxRecurrenceKind Kind ||
       (noNaNs FMF && noSignedZeros FMF && isFPMinMaxRecurrenceKind Kind)
    then isMinMaxSelectCmpPattern I Prev
    else InstDesc_flag false (Some I) None in
  match opcode F I with
  | Opcode.PHI =>
      InstDesc_kind I (getRecKind Prev) (getExactFPMathInst Prev)
  | Opcode.Sub | Opcode.Add =>
      InstDesc_flag (bool_decide (Kind = RecurKind.Add)) (Some I) None
  | Opcode.Mul =>
      InstDesc_flag (bool_decide (Kind = RecurKind.Mul)) (Some I) None
  | Opcode.And =>
      InstDesc_flag (bool_decide (Kind = RecurKind.And)) (Some I) None
  | Opcode.Or =>
      InstDesc_flag (bool_decide (Kind = RecurKind.Or)) (Some I) None
  | Opcode.Xor =>
      InstDesc_flag (bool_decide (Kind = RecurKind.Xor)) (Some I) None
  | Opcode.FDiv | Opcode.FMul =>
      InstDesc_flag (bool_decide (Kind = RecurKind.FMul)) (Some I)
                    (if hasAllowReassoc F I then None else Some I)
  | Opcode.FSub | Opcode.FAdd =>
      InstDesc_flag (bool_decide (Kind = RecurKind.FAdd)) (Some I)
                    (if hasAllowReassoc F I then None else Some I)
  | Opcode.Select =>
      if bool_decide (Kind = RecurKind.FAdd) ||
         bool_decide (Kind = RecurKind.FMul)
      then isConditionalRdxPattern Kind I
      else minmax
  | Opcode.FCmp | Opcode.ICmp => minmax
  | _ => InstDesc_flag false (Some I) None
  end.

End Patterns.

(** ** The reduction matcher *)

Module RecurrenceDescriptor.
Record t := mk {
  (** the incoming value from the preheader; [None] where the source's
      [getIncomingValueForBlock] would fail its assertion *)
  StartValue : option Value;
  LoopExitInstr : InstId;
  Kind : RecurKind.t;
  FMF : FastMathFlags;
  ExactFPMathInst : option InstId;
  RecurrenceType : Ty;
  IsSigned : bool;
  IsOrdered : bool;
  CastInsts : gset InstId
}.
End RecurrenceDescriptor.

(** The analyses handed to the matcher.  [DB] is the demanded-bits analysis
    (absent when [None]), giving the live-out mask of an instruction as an
    unsigned number; [AC] and [DT] tell whether the assumption cache and the
    dominator tree are present; the remaining fields are the value-tracking
    queries and the data layout. *)
Record Analyses := mkAnalyses {
  DB : option (InstId -> Z);
  AC : bool;
  DT : bool;
  ComputeNumSignBits : InstId -> Z;
  isNonNegative : InstId -> bool;
  isNegative : InstId -> bool;
  getTypeSizeInBits : Ty -> Z
}.

Definition two64 : Z := 2 ^ 64.

(** [isPowerOf2_64] and [NextPowerOf2] of [MathExtras.h] on 64-bit
    unsigned numbers. *)
Definition isPowerOf2_64 (v : Z) : bool :=
  (0 <? v)%Z && (Z.land v (v - 1) =? 0)%Z.

Definition NextPowerOf2 (A : Z) : Z :=
  let A := Z.lor A (Z.shiftr A 1) in
  let A := Z.lor A (Z.shiftr A 2) in
  let A := Z.lor A (Z.shiftr A 4) in
  let A := Z.lor A (Z.shiftr A 8) in
  let A := Z.lor A (Z.shiftr A 16) in
  let A := Z.lor A (Z.shiftr A 32) in
  ((A + 1) mod two64)%Z.

(** [getBitWidth() - countLeadingZeros()] of a mask: its active bits. *)
Definition activeBits (m : Z) : Z :=
  if (m <=? 0)%Z then 0%Z else (Z.log2 m + 1)%Z.

(** [APInt::exactLogBase2]: the logarithm of a power of two, -1 otherwise. *)
Definition exactLogBase2 (v : Z) : Z :=
  if isPowerOf2_64 v then Z.log2 v else (-1)%Z.

(** [Type::getIntNTy(C, N)] takes its width as a 32-bit [unsigned]. *)
Definition getIntNTy (N : Z) : Ty := IntegerTy (N mod 2 ^ 32)%Z.

(** The traversal state of [AddReductionVar]: its local variables.  The
    worklist is kept with its back at the head of the list. *)
Record ReductionState := mkReductionState {
  st_Kind : RecurKind.t;
  st_ReduxDesc : InstDesc;
  st_FMF : FastMathFlags;
  st_ExitInstruction : option InstId;
  st_FoundReduxOp : bool;
  st_FoundStartPHI : bool;
  st_NumCmpSelectPatternInst : Z;
  st_VisitedInsts : gset InstId;
  st_Worklist : list InstId
}.

(** The part of the state that the scan over the users of one instruction
    updates. *)
Record UserScan := mkUserScan {
  us_ExitInstruction : option InstId;
  us_VisitedInsts : gset InstId;
  us_PHIs : list InstId;
  us_NonPHIs : list InstId;
  us_FoundStartPHI : bool
}.

Inductive Outcome (A : Type) :=
| Done (a : A)
| Failed
| OutOfFuel.
Arguments Done {A} a.
Arguments Failed {A}.
Arguments OutOfFuel {A}.

Section Reduction.
Variable F : Function.
Variable TheLoop : Loop.
Variable An : Analyses.

(** *** [lookThroughAnd]

    Returns the start instruction together with the updated [RT],
    [Visited] and [CI]. *)
Definition lookThroughAnd (Phi : InstId) (RT : Ty) (Visited CI : gset InstId)
    : InstId * Ty * gset InstId * gset InstId :=
  if negb (hasOneUse F Phi) then (Phi, RT, Visited, CI) else
  match user_begin F Phi with
  | None => (Phi, RT, Visited, CI)
  | Some J =>
      let M :=
        if bool_decide (opcode F J = Opcode.And) then
          match getOperand F J 0, getOperand F J 1 with
          | Some (VInst _), Some (VConstInt w m) => Some (w, m)
          | Some (VConstInt w m), Some (VInst _) => Some (w, m)
          | _, _ => None
          end
        else None in
      match M with
      | Some (w, m) =>
          let Bits := exactLogBase2 ((m + 1) mod 2 ^ w)%Z in
          if (0 <? Bits)%Z
          then (J, IntegerTy Bits, {[Phi]} ∪ Visited, {[J]} ∪ CI)
          else (Phi, RT, Visited, CI)
      | None => (Phi, RT, Visited, CI)
      end
  end.

(** *** [computeRecurrenceType] *)
Definition computeRecurrenceType (Exit : InstId) : Ty * bool :=
  let TypeBits := getTypeSizeInBits An (getType (inst F Exit)) in
  let MaxBitWidth0 :=
    match DB An with
    | Some getDemandedBits => activeBits (getDemandedBits Exit)
    | None => TypeBits
    end in
  let '(MaxBitWidth1, IsSigned) :=
    if (MaxBitWidth0 =? TypeBits)%Z && AC An && DT An then
      let NumSignBits := ComputeNumSignBits An Exit in
      let W := ((TypeBits - NumSignBits) mod two64)%Z in
      if negb (isNonNegative An Exit) then
        (if negb (isNegative An Exit) then ((W + 1) mod two64)%Z else W, true)
      else (W, false)
    else (MaxBitWidth0, false) in
  let MaxBitWidth2 :=
    if negb (isPowerOf2_64 MaxBitWidth1) then NextPowerOf2 MaxBitWidth1
    else MaxBitWidth1 in
  (getIntNTy MaxBitWidth2, IsSigned).

(** *** [collectCastsToIgnore]

    The worklist is kept with its back at the head.  [fuel] bounds the
    number of iterations. *)
Definition operandInsts (I : InstId) : list InstId :=
  omap asInst (operands (inst F I)).

(** A cast whose source type is the recurrence type: it is collected and
    not looked through. *)
Definition isCastFromRecurrenceType (RecurrenceType : Ty) (Val : InstId)
    : bool :=
  isa_CastInst F Val &&
  bool_decide (valueType F <$> getOperand F Val 0 = Some RecurrenceType).

Fixpoint collectCastsToIgnore_loop (fuel : nat) (RecurrenceType : Ty)
    (Worklist : list InstId) (Visited Casts : gset InstId)
    : Outcome (gset InstId) :=
  match fuel with
  | O => OutOfFuel
  | S fuel' =>
      match Worklist with
      | [] => Done Casts
      | Val :: Worklist' =>
          let Visited' := {[Val]} ∪ Visited in
          if isCastFromRecurrenceType RecurrenceType Val
          then collectCastsToIgnore_loop fuel' RecurrenceType Worklist'
                 Visited' ({[Val]} ∪ Casts)
          else
            let pushed :=
              filter (fun I => contains F TheLoop I = true ∧ I ∉ Visited')
                     (operandInsts Val) in
            collectCastsToIgnore_loop fuel' RecurrenceType
              (rev pushed ++ Worklist') Visited' Casts
      end
  end.

(** The operands of an instruction are pushed only when it is popped for
    the first time, which bounds the iterations by the number of operand
    slots of the function. *)
Definition operandSlots : nat :=
  sum_list (map (fun I => length (operands (inst F I)))
                (seq 0 (length (instructions F)))).

Definition collectCastsToIgnore (Exit : InstId) (RecurrenceType : Ty)
    (Casts : gset InstId) : gset InstId :=
  match collectCastsToIgnore_loop (2 + operandSlots) RecurrenceType
          [Exit] ∅ Casts with
  | Done Casts' => Casts'
  | Failed | OutOfFuel => Casts
  end.

(** *** [checkOrderedReduction] *)
Definition checkOrderedReduction (Kind : RecurKind.t)
    (ExactFPMathInst : option InstId) (Exit Phi : InstId) : bool :=
  if bool_decide (Kind ≠ RecurKind.FAdd) then false
  else if bool_decide (opcode F Exit ≠ Opcode.FAdd) ||
          bool_decide (Some Exit ≠ ExactFPMathInst) then false
  else
    let LHS := getOperand F Exit 0 in
    let RHS := getOperand F Exit 1 in
    if bool_decide (LHS ≠ Some (VInst Phi)) &&
       bool_decide (RHS ≠ Some (VInst Phi)) then false
    else true.

Section Traversal.
Variable Phi : InstId.
Variable Start : InstId.
Variable FuncFMF : FastMathFlags.

(** The body of the loop over the users of [Cur]. *)
Definition scanUser (Kind : RecurKind.t) (Cur UI : InstId) (us : UserScan)
    : option UserScan :=
  if negb (containsBlock TheLoop (parent F UI)) then
    (* the exit user *)
    if bool_decide (us_ExitInstruction us = Some Cur) then Some us
    else if bool_decide (us_ExitInstruction us ≠ None) ||
            bool_decide (Cur = Phi) then None
    else if negb (bool_decide (VInst Cur ∈ operands (inst F Phi))) then None
    else Some (mkUserScan (Some Cur) (us_VisitedInsts us) (us_PHIs us)
                 (us_NonPHIs us) (us_FoundStartPHI us))
  else
    let IgnoredVal := InstDesc_flag false None None in
    let inserted :=
      if bool_decide (UI ∈ us_VisitedInsts us) then
        if negb (isa_PHINode F UI) &&
           ((negb (isa_FCmpInst F UI) && negb (isa_ICmpInst F UI) &&
             negb (isa_SelectInst F UI)) ||
            (negb (isRecurrence (isConditionalRdxPattern F Kind UI)) &&
             negb (isRecurrence (isMinMaxSelectCmpPattern F UI IgnoredVal))))
        then None
        else Some us
      else if isa_PHINode F UI then
        Some (mkUserScan (us_ExitInstruction us) ({[UI]} ∪ us_VisitedInsts us)
                (us_PHIs us ++ [UI]) (us_NonPHIs us) (us_FoundStartPHI us))
      else
        Some (mkUserScan (us_ExitInstruction us) ({[UI]} ∪ us_VisitedInsts us)
                (us_PHIs us) (us_NonPHIs us ++ [UI]) (us_FoundStartPHI us)) in
    match inserted with
    | None => None
    | Some us' =>
        Some (mkUserScan (us_ExitInstruction us') (us_VisitedInsts us')
                (us_PHIs us') (us_NonPHIs us')
                (if bool_decide (UI = Phi) then true
                 else us_FoundStartPHI us'))
    end.

Fixpoint scanUsers (Kind : RecurKind.t) (Cur : InstId) (Us : list InstId)
    (us : UserScan) : option UserScan :=
  match Us with
  | [] => Some us
  | UI :: r =>
      match scanUser Kind Cur UI us with
      | Some us' => scanUsers Kind Cur r us'
      | None => None
      end
  end.

(** Re-classification of [Cur] ([Cur != Start]): the new [ReduxDesc], the
    intersected flags and the possibly updated kind. *)
Definition classify (Cur : InstId) (Kind : RecurKind.t) (ReduxDesc : InstDesc)
    (FMF : FastMathFlags) : option (InstDesc * FastMathFlags * RecurKind.t) :=
  let ReduxDesc' := isRecurrenceInstr F Cur Kind ReduxDesc FuncFMF in
  if negb (isRecurrence ReduxDesc') then None else
  let FMF' :=
    match getPatternInst ReduxDesc' with
    | Some P =>
        if isa_FPMathOperator F P && negb (isa_PHINode F Cur) then
          let CurFMF := getFastMathFlags (inst F P) in
          let CurFMF' :=
            if isa_SelectInst F P then
              match getOperandInst F P 0 with
              | Some FCmp =>
                  if isa_FCmpInst F FCmp
                  then FMF_or CurFMF (getFastMathFlags (inst F FCmp))
                  else CurFMF
              | None => CurFMF
              end
            else CurFMF in
          FMF_and FMF CurFMF'
        else FMF
    | None => FMF
    end in
  let Kind' :=
    if bool_decide (getRecKind ReduxDesc' ≠ RecurKind.None)
    then getRecKind ReduxDesc' else Kind in
  Some (ReduxDesc', FMF', Kind').

(** [++NumCmpSelectPatternInst] on a 32-bit [unsigned]. *)
Definition incr32 (n : Z) : Z := ((n + 1) mod 2 ^ 32)%Z.

(** One iteration of the worklist loop: [Cur] has been popped, [st] is the
    state with the remaining worklist. *)
Definition visitInstruction (Cur : InstId) (st : ReductionState)
    : option ReductionState :=
  if use_empty F Cur then None else
  let IsAPhi := isa_PHINode F Cur in
  if bool_decide (Cur ≠ Phi) && IsAPhi &&
     bool_decide (parent F Cur = parent F Phi) then None else
  if negb (isCommutative F Cur) && negb IsAPhi &&
     negb (isa_SelectInst F Cur) && negb (isa_ICmpInst F Cur) &&
     negb (isa_FCmpInst F Cur) &&
     negb (countInst (st_VisitedInsts st) (getOperandInst F Cur 0))
  then None else
  let classified :=
    if bool_decide (Cur ≠ Start)
    then classify Cur (st_Kind st) (st_ReduxDesc st) (st_FMF st)
    else Some (st_ReduxDesc st, st_FMF st, st_Kind st) in
  match classified with
  | None => None
  | Some (ReduxDesc, FMF, Kind) =>
      let IsASelect := isa_SelectInst F Cur in
      if IsASelect &&
         (bool_decide (Kind = RecurKind.FAdd) ||
          bool_decide (Kind = RecurKind.FMul)) &&
         hasMultipleUsesOf F Cur (st_VisitedInsts st) 2 then None else
      if negb IsAPhi && negb IsASelect &&
         negb (isMinMaxRecurrenceKind Kind) &&
         hasMultipleUsesOf F Cur (st_VisitedInsts st) 1 then None else
      if IsAPhi && bool_decide (Cur ≠ Phi) &&
         negb (areAllUsesIn F Cur (st_VisitedInsts st)) then None else
      let Num1 :=
        if isIntMinMaxRecurrenceKind Kind &&
           (isa_ICmpInst F Cur || isa_SelectInst F Cur)
        then incr32 (st_NumCmpSelectPatternInst st)
        else st_NumCmpSelectPatternInst st in
      let Num2 :=
        if isFPMinMaxRecurrenceKind Kind &&
           (isa_FCmpInst F Cur || isa_SelectInst F Cur)
        then incr32 Num1 else Num1 in
      let FoundReduxOp :=
        st_FoundReduxOp st || (negb IsAPhi && bool_decide (Cur ≠ Start)) in
      match scanUsers Kind Cur (users (inst F Cur))
              (mkUserScan (st_ExitInstruction st) (st_VisitedInsts st) [] []
                 (st_FoundStartPHI st)) with
      | None => None
      | Some us =>
          Some (mkReductionState Kind ReduxDesc FMF (us_ExitInstruction us)
                  FoundReduxOp (us_FoundStartPHI us) Num2
                  (us_VisitedInsts us)
                  (rev (us_NonPHIs us) ++ rev (us_PHIs us) ++ st_Worklist st))
      end
  end.

(** [Worklist.pop_back_val()] leaves the rest of the worklist in place. *)
Definition withWorklist (st : ReductionState) (Worklist : list InstId)
    : ReductionState :=
  mkReductionState (st_Kind st) (st_ReduxDesc st) (st_FMF st)
    (st_ExitInstruction st) (st_FoundReduxOp st) (st_FoundStartPHI st)
    (st_NumCmpSelectPatternInst st) (st_VisitedInsts st) Worklist.

(** The worklist loop. *)
Fixpoint reductionLoop (fuel : nat) (st : ReductionState)
    : Outcome ReductionState :=
  match fuel with
  | O => OutOfFuel
  | S fuel' =>
      match st_Worklist st with
      | [] => Done st
      | Cur :: Worklist' =>
          match visitInstruction Cur (withWorklist st Worklist') with
          | Some st' => reductionLoop fuel' st'
          | None => Failed
          end
      end
  end.

(** The history of the loop: every popped instruction with the state that
    its iteration leaves.  It replays [reductionLoop] and only records. *)
Fixpoint reductionTrace (fuel : nat) (st : ReductionState)
    : list (InstId * ReductionState) :=
  match fuel with
  | O => []
  | S fuel' =>
      match st_Worklist st with
      | [] => []
      | Cur :: Worklist' =>
          match visitInstruction Cur (withWorklist st Worklist') with
          | Some st' => (Cur, st') :: reductionTrace fuel' st'
          | None => []
          end
      end
  end.

(** One iteration as a relation between states. *)
Definition reductionStep (st st' : ReductionState) : Prop :=
  exists Cur Worklist',
    st_Worklist st = Cur :: Worklist' /\
    visitInstruction Cur (withWorklist st Worklist') = Some st'.

(** [Cur] has a user outside the loop. *)
Definition hasOutsideUser (Cur : InstId) : bool :=
  existsb (fun UI => negb (containsBlock TheLoop (parent F UI)))
          (users (inst F Cur)).

(** [Cur] is counted as an instruction of the min/max pattern under the
    running kind [Kind]. *)
Definition countsAsPattern (Kind : RecurKind.t) (Cur : InstId) : bool :=
  (isIntMinMaxRecurrenceKind Kind &&
   (isa_ICmpInst F Cur || isa_SelectInst F Cur)) ||
  (isFPMinMaxRecurrenceKind Kind &&
   (isa_FCmpInst F Cur || isa_SelectInst F Cur)).

End Traversal.
End Reduction.

Section AddReductionVar.
Variable F : Function.
Variable TheLoop : Loop.
Variable An : Analyses.

(** Every instruction that the traversal can push is a user of some
    instruction of the function; each is pushed at most once, which bounds
    the iterations of the worklist loop. *)
Definition userUniverse : gset InstId :=
  list_to_set (concat (map users (instructions F))).

Definition reductionFuel : nat := 2 + size userUniverse.

(** The type dispatch at the head of [AddReductionVar]: the start
    instruction, the working recurrence type, and the initial [VisitedInsts]
    and [CastInsts] (before [Start] itself is inserted). *)
Definition reductionStart (Phi : InstId) (Kind : RecurKind.t)
    : option (InstId * Ty * gset InstId * gset InstId) :=
  let RecurrenceType := getType (inst F Phi) in
  if isFloatingPointTy RecurrenceType then
    if negb (isFloatingPointRecurrenceKind Kind) then None
    else Some (Phi, RecurrenceType, ∅, ∅)
  else if isIntegerTy RecurrenceType then
    if negb (isIntegerRecurrenceKind Kind) then None
    else if isArithmeticRecurrenceKind Kind
    then Some (lookThroughAnd F Phi RecurrenceType ∅ ∅)
    else Some (Phi, RecurrenceType, ∅, ∅)
  else None.

Definition initialState (Kind : RecurKind.t) (Start : InstId)
    (VisitedInsts : gset InstId) : ReductionState :=
  mkReductionState Kind (InstDesc_flag false None None) FMF_getFast None
    false false 0%Z ({[Start]} ∪ VisitedInsts) [Start].

(** The checks after the worklist loop and the construction of the
    descriptor. *)
Definition finishReduction (Phi Start : InstId) (RdxStart : option Value)
    (RecurrenceType : Ty) (CastInsts : gset InstId) (st : ReductionState)
    : option RecurrenceDescriptor.t :=
  if isMinMaxRecurrenceKind (st_Kind st) &&
     bool_decide (st_NumCmpSelectPatternInst st ≠ 2%Z) then None else
  if negb (st_FoundStartPHI st) || negb (st_FoundReduxOp st) then None else
  match st_ExitInstruction st with
  | None => None
  | Some ExitInstruction =>
      let IsOrdered :=
        checkOrderedReduction F (st_Kind st)
          (getExactFPMathInst (st_ReduxDesc st)) ExitInstruction Phi in
      let mkRD IsSigned Casts :=
        RecurrenceDescriptor.mk RdxStart ExitInstruction (st_Kind st)
          (st_FMF st) (getExactFPMathInst (st_ReduxDesc st)) RecurrenceType
          IsSigned IsOrdered Casts in
      if bool_decide (Start ≠ Phi) then
        let '(ComputedType, IsSigned) :=
          computeRecurrenceType F An ExitInstruction in
        if bool_decide (ComputedType ≠ RecurrenceType) then None
        else Some (mkRD IsSigned
                     (collectCastsToIgnore F TheLoop ExitInstruction
                        RecurrenceType CastInsts))
      else Some (mkRD false CastInsts)
  end.

(** The worklist loop of [AddReductionVar] from its initial state, and its
    history. *)
Definition runReductionTrace (Phi : InstId) (Kind : RecurKind.t)
    (FuncFMF : FastMathFlags) (Start : InstId) (VisitedInsts : gset InstId)
    : list (InstId * ReductionState) :=
  reductionTrace F TheLoop Phi Start FuncFMF reductionFuel
    (initialState Kind Start VisitedInsts).


Definition runReductionLoop (Phi : InstId) (Kind : RecurKind.t)
    (FuncFMF : FastMathFlags) (Start : InstId) (VisitedInsts : gset InstId)
    : Outcome ReductionState :=
  reductionLoop F TheLoop Phi Start FuncFMF reductionFuel
    (initialState Kind Start VisitedInsts).

(** [RecurrenceDescriptor::AddReductionVar]: [Some RedDes] when the source
    returns true and assigns [RedDes], [None] when it returns false. *)
Definition AddReductionVar (Phi : InstId) (Kind : RecurKind.t)
    (FuncFMF : FastMathFlags) : option RecurrenceDescriptor.t :=
  if bool_decide (getNumIncomingValues F Phi ≠ 2) then None else
  if bool_decide (parent F Phi ≠ getHeader TheLoop) then None else
  let RdxStart :=
    getIncomingValueForBlock F Phi (getLoopPreheader TheLoop) in
  match reductionStart Phi Kind with
  | None => None
  | Some (Start, RecurrenceType, VisitedInsts, CastInsts) =>
      match runReductionLoop Phi Kind FuncFMF Start VisitedInsts with
      | Done st =>
          finishReduction Phi Start RdxStart RecurrenceType CastInsts st
      | Failed | OutOfFuel => None
      end
  end.

(** *** The reduction kind prober, [isReductionPHI] *)

(** [F.getFnAttribute(Name).getValueAsBool()]: a string attribute reads as
    true exactly when it is present with the value "true". *)
Definition getFnAttributeAsBool (Name : string) : bool :=
  match List.find (fun kv => String.eqb (fst kv) Name) (fnAttributes F) with
  | Some kv => String.eqb (snd kv) "true"
  | None => false
  end.

Definition functionFMF : FastMathFlags :=
  mkFMF false (getFnAttributeAsBool "no-nans-fp-math") false
        (getFnAttributeAsBool "no-signed-zeros-fp-math") false false false.

Definition isReductionPHI (Phi : InstId) : option RecurrenceDescriptor.t :=
  let FMF := functionFMF in
  match AddReductionVar Phi RecurKind.Add FMF with
  | Some RedDes => Some RedDes
  | None =>
  match AddReductionVar Phi RecurKind.Mul FMF with
  | Some RedDes => Some RedDes
  | None =>
  match AddReductionVar Phi RecurKind.Or FMF with
  | Some RedDes => Some RedDes
  | None =>
  match AddReductionVar Phi RecurKind.And FMF with
  | Some RedDes => Some RedDes
  | None =>
  match AddReductionVar Phi RecurKind.Xor FMF with
  | Some RedDes => Some RedDes
  | None =>
  match AddReductionVar Phi RecurKind.SMax FMF with
  | Some RedDes => Some RedDes
  | None =>
  match AddReductionVar Phi RecurKind.SMin FMF with
  | Some RedDes => Some RedDes
  | None =>
  match AddReductionVar Phi RecurKind.UMax FMF with
  | Some RedDes => Some RedDes
  | None =>
  match AddReductionVar Phi RecurKind.UMin FMF with
  | Some RedDes => Some RedDes
  | None =>
  match AddReductionVar Phi RecurKind.FMul FMF with
  | Some RedDes => Some RedDes
  | None =>
  match AddReductionVar Phi RecurKind.FAdd FMF with
  | Some RedDes => Some RedDes
  | None =>
  match AddReductionVar Phi RecurKind.FMax FMF with
  | Some RedDes => Some RedDes
  | None =>
  match AddReductionVar Phi RecurKind.FMin FMF with
  | Some RedDes => Some RedDes
  | None => None
  end end end end end end end end end end end end end.

End AddReductionVar.


(** ** The first-order-recurrence sinker *)

(** [MapVector<Instruction *, Instruction *>]: the entries in insertion
    order, with at most one entry per key. *)
Definition MapVector := list (InstId * InstId).

Definition mv_find (M : MapVector) (K : InstId) : option InstId :=
  snd <$> List.find (fun kv => Nat.eqb (fst kv) K) M.

(** [M.count(K)] as a truth value. *)
Definition mv_count (M : MapVector) (K : InstId) : bool :=
  bool_decide (mv_find M K ≠ None).

(** [M[K] = V]: overwrite the entry of [K] in place, or append a new one. *)
Fixpoint mv_set (M : MapVector) (K V : InstId) : MapVector :=
  match M with
  | [] => [(K, V)]
  | (K', V') :: r =>
      if Nat.eqb K' K then (K, V) :: r else (K', V') :: mv_set r K V
  end.

(** [Instruction::comesBefore] within one block: the program order. *)
Definition comesBefore (A B : InstId) : bool := A <? B.

(** [std::set<Instruction *, CompareByComesBefore>]: a list ascending for
    [comesBefore]; two elements neither of which comes before the other are
    the same element for the set. *)
Fixpoint set_find (I : InstId) (S : list InstId) : bool :=
  match S with
  | [] => false
  | J :: r =>
      if comesBefore I J then false
      else if comesBefore J I then set_find I r
      else true
  end.

Fixpoint set_insert (I : InstId) (S : list InstId) : list InstId :=
  match S with
  | [] => [I]
  | J :: r =>
      if comesBefore I J then I :: S
      else if comesBefore J I then J :: set_insert I r
      else S
  end.

Section FirstOrderRecurrence.
Variable F : Function.
Variable TheLoop : Loop.
(** The dominance oracle, [DT->dominates(A, B)]. *)
Variable dominates : InstId -> InstId -> bool.
Variable SinkAfter : MapVector.

Section Sinking.
Variable PhiBB : BlockId.
Variable Previous : InstId.

(** The lambda [TryToPushSinkCandidate] on the pair of [InstrsToSink] and
    [WorkList] (back at the head); [None] is its [false]. *)
Definition TryToPushSinkCandidate (SinkCandidate : InstId)
    (st : list InstId * list InstId) : option (list InstId * list InstId) :=
  let '(InstrsToSink, WorkList) := st in
  if bool_decide (parent F SinkCandidate = PhiBB) &&
     set_find SinkCandidate InstrsToSink then Some st
  else if bool_decide (Previous = SinkCandidate) then None
  else if dominates Previous SinkCandidate then Some st
  else if bool_decide (parent F SinkCandidate ≠ PhiBB) ||
          mayHaveSideEffects (inst F SinkCandidate) ||
          mayReadFromMemory (inst F SinkCandidate) ||
          isTerminator F SinkCandidate then None
  else if bool_decide (mv_find SinkAfter SinkCandidate ≠ None) then None
  else if isa_PHINode F SinkCandidate then Some st
  else Some (set_insert SinkCandidate InstrsToSink,
             SinkCandidate :: WorkList).

Fixpoint pushUsers (Us : list InstId) (st : list InstId * list InstId)
    : option (list InstId * list InstId) :=
  match Us with
  | [] => Some st
  | User :: r =>
      match TryToPushSinkCandidate User st with
      | Some st' => pushUsers r st'
      | None => None
      end
  end.

(** The worklist loop; it ends with the set of instructions to sink. *)
Fixpoint sinkLoop (fuel : nat) (st : list InstId * list InstId)
    : Outcome (list InstId) :=
  match fuel with
  | O => OutOfFuel
  | S fuel' =>
      match snd st with
      | [] => Done (fst st)
      | Current :: WorkList' =>
          match pushUsers (users (inst F Current)) (fst st, WorkList') with
          | Some st' => sinkLoop fuel' st'
          | None => Failed
          end
      end
  end.

End Sinking.

(** The final loop: [SinkAfter[I] = Previous; Previous = I]. *)
Fixpoint commitSinks (InstrsToSink : list InstId) (M : MapVector)
    (Previous : InstId) : MapVector :=
  match InstrsToSink with
  | [] => M
  | Inst :: r => commitSinks r (mv_set M Inst Previous) Inst
  end.

(** The latch-supplied value of a header PHI that passes the entry checks
    of [isFirstOrderRecurrence]. *)
Definition firstOrderPrevious (Phi : InstId) : option InstId :=
  if bool_decide (parent F Phi ≠ getHeader TheLoop) ||
     bool_decide (getNumIncomingValues F Phi ≠ 2) then None else
  match getLoopPreheader TheLoop, getLoopLatch TheLoop with
  | Some Preheader, Some Latch =>
      if bool_decide (getBasicBlockIndex F Phi Preheader = None) ||
         bool_decide (getBasicBlockIndex F Phi Latch = None) then None else
      match getIncomingValueForBlock F Phi (Some Latch) with
      | Some (VInst Previous) =>
          if negb (contains F TheLoop Previous) || isa_PHINode F Previous ||
             mv_count SinkAfter Previous then None
          else Some Previous
      | _ => None
      end
  | _, _ => None
  end.

Definition sinkFuel : nat := 2 + size (userUniverse F).

(** [RecurrenceDescriptor::isFirstOrderRecurrence]: the returned flag and
    the [SinkAfter] map as the call leaves it. *)
Definition isFirstOrderRecurrence (Phi : InstId) : bool * MapVector :=
  match firstOrderPrevious Phi with
  | None => (false, SinkAfter)
  | Some Previous =>
      match sinkLoop (parent F Phi) Previous sinkFuel ([], [Phi]) with
      | Done InstrsToSink =>
          (true, commitSinks InstrsToSink SinkAfter Previous)
      | Failed | OutOfFuel => (false, SinkAfter)
      end
  end.

End FirstOrderRecurrence.

(** The chain that a successful sinking appends: each instruction placed
    after the one before it, the first after [Previous]. *)
Fixpoint sinkChain (Previous : InstId) (InstrsToSink : list InstId)
    : MapVector :=
  match InstrsToSink with
  | [] => []
  | Inst :: r => (Inst, Previous) :: sinkChain Inst r
  end.

(** ** Identity constants *)

(** Constants as the function builds them.  An integer constant is its bit
    width and its unsigned value; a floating-point constant is one of the
    values the function can return. *)
Inductive FPValue :=
| FPOne
| FPZero (Negative : bool)
| FPInfinity (Negative : bool).

Inductive Constant :=
| ConstantInt (bits : Z) (val : Z)
| ConstantFP (ty : Ty) (v : FPValue).

(** Modelled from the spec: [Constants.h] and [APInt.h] are not among the
    sources.  [ConstantInt::get(Ty, V, isSigned)] builds
    [APInt(bits, V, isSigned)] from the 64-bit word [V]: truncated to the
    width when that is at most 64, and otherwise extended to the width with
    the sign bit of [V] when [isSigned] holds and with zeros when not. *)
Definition APInt_of_word (bits : Z) (V : Z) (isSigned : bool) : Z :=
  let V := (V mod two64)%Z in
  if (bits <=? 64)%Z then (V mod 2 ^ bits)%Z
  else if isSigned && (2 ^ 63 <=? V)%Z then (2 ^ bits - (two64 - V))%Z
  else V.

Definition ConstantInt_get (Tp : Ty) (V : Z) (isSigned : bool)
    : option Constant :=
  match Tp with
  | IntegerTy bits => Some (ConstantInt bits (APInt_of_word bits V isSigned))
  | _ => None
  end.

(** [APInt::getSignedMaxValue] and [APInt::getSignedMinValue]. *)
Definition getSignedMaxValue (bits : Z) : Z := (2 ^ (bits - 1) - 1)%Z.
Definition getSignedMinValue (bits : Z) : Z := (2 ^ (bits - 1))%Z.

Definition ConstantInt_getAP (Tp : Ty) (f : Z -> Z) : option Constant :=
  match Tp with
  | IntegerTy bits => Some (ConstantInt bits (f bits))
  | _ => None
  end.

(** [ConstantFP::get(Ty, V)] and [ConstantFP::getInfinity(Ty, Negative)],
    the latter declared with [bool Negative = false]. *)
Definition ConstantFP_get (Tp : Ty) (v : FPValue) : option Constant :=
  if isFloatingPointTy Tp then Some (ConstantFP Tp v) else None.

Definition ConstantFP_getInfinity (Tp : Ty) (Negative : bool)
    : option Constant :=
  ConstantFP_get Tp (FPInfinity Negative).

(** [RecurrenceDescriptor::getRecurrenceIdentity]; [None] where the source
    is unreachable or a constant constructor is applied to a type it does
    not accept. *)
Definition getRecurrenceIdentity (K : RecurKind.t) (Tp : Ty)
    (FMF : FastMathFlags) : option Constant :=
  match K with
  | RecurKind.Xor | RecurKind.Add | RecurKind.Or =>
      ConstantInt_get Tp 0 false
  | RecurKind.Mul => ConstantInt_get Tp 1 false
  | RecurKind.And => ConstantInt_get Tp (-1) true
  | RecurKind.FMul => ConstantFP_get Tp FPOne
  | RecurKind.FAdd =>
      if noSignedZeros FMF then ConstantFP_get Tp (FPZero false)
      else ConstantFP_get Tp (FPZero true)
  | RecurKind.UMin => ConstantInt_get Tp (-1) false
  | RecurKind.UMax => ConstantInt_get Tp 0 false
  | RecurKind.SMin => ConstantInt_getAP Tp getSignedMaxValue
  | RecurKind.SMax => ConstantInt_getAP Tp getSignedMinValue
  | RecurKind.FMin => ConstantFP_getInfinity Tp true
  | RecurKind.FMax => ConstantFP_getInfinity Tp false
  | RecurKind.None => None
  end.

(** *** What the kinds combine

    The combining operation of each integer kind on [bits]-bit numbers in
    their unsigned representation, and of the floating-point min/max kinds
    as the loop idiom [select (fcmp olt a, b), a, b] computes them. *)
Definition toSigned (bits : Z) (x : Z) : Z :=
  if (x <? 2 ^ (bits - 1))%Z then x else (x - 2 ^ bits)%Z.

Definition combineInt (K : RecurKind.t) (bits : Z) (a b : Z) : Z :=
  match K with
  | RecurKind.Add => ((a + b) mod 2 ^ bits)%Z
  | RecurKind.Mul => ((a * b) mod 2 ^ bits)%Z
  | RecurKind.Or => Z.lor a b
  | RecurKind.And => Z.land a b
  | RecurKind.Xor => Z.lxor a b
  | RecurKind.UMin => Z.min a b
  | RecurKind.UMax => Z.max a b
  | RecurKind.SMin =>
      if (toSigned bits a <? toSigned bits b)%Z then a else b
  | RecurKind.SMax =>
      if (toSigned bits a <? toSigned bits b)%Z then b else a
  | _ => b
  end.

Definition FPValue_to_float (v : FPValue) : float :=
  match v with
  | FPOne => PrimFloat.one
  | FPZero false => PrimFloat.zero
  | FPZero true => PrimFloat.neg_zero
  | FPInfinity false => PrimFloat.infinity
  | FPInfinity true => PrimFloat.neg_infinity
  end.

Definition fminSelect (a b : float) : float :=
  if PrimFloat.ltb a b then a else b.
Definition fmaxSelect (a b : float) : float :=
  if PrimFloat.ltb b a then a else b.

(** ** The induction classifier (integer and pointer path) *)

Inductive InductionKind :=
| IK_NoInduction | IK_IntInduction | IK_PtrInduction | IK_FpInduction.

(** The symbolic expressions of the affine-recurrence engine, as far as the
    classifier tells them apart.  An add-recurrence is affine here, so that
    [getStepRecurrence] is its step operand. *)
Inductive SCEV :=
| SCEVConstant (bits : Z) (val : Z)
| SCEVUnknown (v : Value)
| SCEVAddRecExpr (start step : SCEV) (L : Loop)
| SCEVOther (n : nat).

#[global] Instance Loop_eq_dec : EqDecision Loop.
Proof. solve_decision. Defined.

(** The engine and the data layout as the classifier queries them. *)
Record ScalarEvolution := mkSE {
  getSCEV : InstId -> SCEV;
  isLoopInvariant : SCEV -> Loop -> bool;
  getTypeAllocSize : Ty -> Z
}.

Record InductionDescriptor := mkInductionDescriptor {
  ID_StartValue : option Value;
  ID_IK : InductionKind;
  ID_Step : SCEV;
  ID_InductionBinOp : option InstId;
  ID_RedundantCasts : list InstId
}.

(** [static_cast<int64_t>] of a 64-bit unsigned number and
    [ConstantInt::getSExtValue] of a [bits]-bit one. *)
Definition toInt64 (x : Z) : Z := toSigned 64 (x mod two64)%Z.
Definition getSExtValue (bits : Z) (val : Z) : Z := toSigned bits val.

(** [ScalarEvolution::getConstant(Ty, V, true)]: the signed number [V] as a
    constant of the integer type of [bits] bits. *)
Definition SE_getConstant (bits : Z) (V : Z) : SCEV :=
  SCEVConstant bits (V mod 2 ^ bits)%Z.

Section Induction.
Variable F : Function.
Variable SE : ScalarEvolution.

(** [dyn_cast<BinaryOperator>] of a value. *)
Definition asBinaryOperator (v : option Value) : option InstId :=
  match v with
  | Some (VInst i) => if isBinaryOp F i then Some i else None
  | _ => None
  end.

(** [InductionDescriptor::isInductionPHI(Phi, TheLoop, SE, D, Expr,
    CastsToIgnore)], the overload that the other one ends in. *)
Definition isInductionPHI (Phi : InstId) (TheLoop : Loop)
    (Expr : option SCEV) (CastsToIgnore : option (list InstId))
    : option InductionDescriptor :=
  let PhiTy := getType (inst F Phi) in
  if negb (isIntegerTy PhiTy) && negb (isPointerTy PhiTy) then None else
  let PhiScev := match Expr with Some E => E | None => getSCEV SE Phi end in
  match PhiScev with
  | SCEVAddRecExpr _ Step ARLoop =>
      if bool_decide (ARLoop ≠ TheLoop) then None else
      let StartValue :=
        getIncomingValueForBlock F Phi (getLoopPreheader ARLoop) in
      match getLoopLatch ARLoop with
      | None => None
      | Some Latch =>
          let BOp :=
            asBinaryOperator (getIncomingValueForBlock F Phi (Some Latch)) in
          let ConstStep :=
            match Step with
            | SCEVConstant bits val => Some (bits, val)
            | _ => None
            end in
          if bool_decide (ConstStep = None) &&
             negb (isLoopInvariant SE Step TheLoop) then None else
          if isIntegerTy PhiTy then
            Some (mkInductionDescriptor StartValue IK_IntInduction Step BOp
                    (default [] CastsToIgnore))
          else
            match ConstStep, PhiTy with
            | Some (bits, CV), PointerTy PointerElementType =>
                if negb (isSized PointerElementType) then None else
                let Size :=
                  toInt64 (getTypeAllocSize SE PointerElementType) in
                if (Size =? 0)%Z then None else
                let CVSize := getSExtValue bits CV in
                if negb (Z.rem CVSize Size =? 0)%Z then None else
                let StepValue := SE_getConstant bits (Z.quot CVSize Size) in
                Some (mkInductionDescriptor StartValue IK_PtrInduction
                        StepValue BOp [])
            | _, _ => None
            end
      end
  | _ => None
  end.

End Induction.

(** ** The opcode of a kind and the chain of reduction operations *)

(** [RecurrenceDescriptor::getOpcode]; [None] where the source is
    unreachable. *)
Definition RecurrenceDescriptor_getOpcode (Kind : RecurKind.t)
    : option Opcode.t :=
  match Kind with
  | RecurKind.Add => Some Opcode.Add
  | RecurKind.Mul => Some Opcode.Mul
  | RecurKind.Or => Some Opcode.Or
  | RecurKind.And => Some Opcode.And
  | RecurKind.Xor => Some Opcode.Xor
  | RecurKind.FMul => Some Opcode.FMul
  | RecurKind.FAdd => Some Opcode.FAdd
  | RecurKind.SMax | RecurKind.SMin | RecurKind.UMax | RecurKind.UMin =>
      Some Opcode.ICmp
  | RecurKind.FMax | RecurKind.FMin => Some Opcode.FCmp
  | RecurKind.None => None
  end.

Section ReductionOpChain.
Variable F : Function.
(** [SelectPatternResult::isMinOrMax(matchSelectPattern(Cur, LHS,
    RHS).Flavor)] of the value-tracking analysis, as an oracle. *)
Variable isMinOrMaxSelectPattern : InstId -> bool.

Section WithOpcode.
Variable RedOp : Opcode.t.

Definition isCompareOpcode : bool :=
  bool_decide (RedOp = Opcode.ICmp) || bool_decide (RedOp = Opcode.FCmp).

Definition ExpectedUses : nat := if isCompareOpcode then 2 else 1.

(** The lambda [getNextInstruction]; [None] where the source would read
    past the end of the use list. *)
Definition getNextInstruction (Cur : InstId) : option InstId :=
  if isCompareOpcode then
    match users (inst F Cur) with
    | U :: r => if isa_SelectInst F U then Some U else head r
    | [] => None
    end
  else user_begin F Cur.

(** The lambda [isCorrectOpcode]. *)
Definition isCorrectOpcode (Cur : InstId) : bool :=
  if isCompareOpcode then isMinOrMaxSelectPattern Cur
  else bool_decide (opcode F Cur = RedOp).

(** The loop that walks from the merge node to the exit instruction;
    [Done []] is the source's [return {}]. *)
Fixpoint reductionOpChain_loop (fuel : nat) (LoopExitInstr Cur : InstId)
    (ReductionOperations : list InstId) : Outcome (list InstId) :=
  match fuel with
  | O => OutOfFuel
  | S fuel' =>
      if bool_decide (Cur = LoopExitInstr)
      then Done (ReductionOperations ++ [Cur])
      else if negb (isCorrectOpcode Cur) ||
              negb (hasNUses F Cur ExpectedUses) then Done []
      else
        match getNextInstruction Cur with
        | Some Next =>
            reductionOpChain_loop fuel' LoopExitInstr Next
              (ReductionOperations ++ [Cur])
        | None => Failed
        end
  end.

End WithOpcode.

(** An instruction that passes the checks of the walk has a user, so it is
    an instruction of the function; a walk that ends passes through each
    instruction at most once. *)
Definition chainFuel : nat := S (length (instructions F)).

(** [RecurrenceDescriptor::getReductionOpChain(Phi, L)]; the loop argument
    is not used by the source.  [Failed] stands for the unreachable default
    of [getOpcode]. *)
Definition getReductionOpChain (RD : RecurrenceDescriptor.t) (Phi : InstId)
    : Outcome (list InstId) :=
  match RecurrenceDescriptor_getOpcode (RecurrenceDescriptor.Kind RD) with
  | None => Failed
  | Some RedOp =>
      let LoopExitInstr := RecurrenceDescriptor.LoopExitInstr RD in
      if negb (isCorrectOpcode RedOp LoopExitInstr) ||
         negb (hasNUses F LoopExitInstr 2) then Done []
      else if negb (hasNUses F Phi (ExpectedUses RedOp)) then Done []
      else
        match getNextInstruction RedOp Phi with
        | Some Cur =>
            reductionOpChain_loop RedOp chainFuel LoopExitInstr Cur []
        | None => Failed
        end
  end.

End ReductionOpChain.

(** ** The floating-point induction classifier and the classifier with
    predicates *)

#[global] Instance SCEV_eq_dec : EqDecision SCEV.
Proof. solve_decision. Defined.

(** [InductionDescriptor::getConstIntStepValue]: the width and the number
    of a constant step. *)
Definition getConstIntStepValue (D : InductionDescriptor) : option (Z * Z) :=
  match ID_Step D with
  | SCEVConstant bits val => Some (bits, val)
  | _ => None
  end.

(** The predicated engine as the classifier queries it.
    Modelled from the spec: the class is declared in [ScalarEvolution.h],
    which is not among the sources, so its queries are left open.  Its
    state is the set of predicates it has collected; only [getAsAddRec]
    adds to it, and only when it succeeds, so the state is given by the
    list of values on which [getAsAddRec] has succeeded so far, which every
    query takes: the expression of a value under the predicates, the
    add-recurrence (start, step, loop) that a value can be assumed to be,
    and the equality of two add-recurrences under the predicates.  The
    engine underneath does not depend on the predicates. *)
Record PredicatedScalarEvolution := mkPSE {
  PSE_getSCEV : list InstId -> InstId -> SCEV;
  PSE_getAsAddRec : list InstId -> InstId -> option (SCEV * SCEV * Loop);
  PSE_areAddRecsEqualWithPreds : list InstId -> SCEV -> SCEV -> bool;
  PSE_getSE : ScalarEvolution
}.

Section InductionWithPredicates.
Variable F : Function.

Definition getIncomingBlock (Phi : InstId) (n : nat) : option BlockId :=
  incomingBlocks (inst F Phi) !! n.

(** [Loop::isLoopInvariant] on a value: anything but an instruction of the
    loop. *)
Definition Loop_isLoopInvariant (L : Loop) (V : Value) : bool :=
  match V with
  | VInst J => negb (contains F L J)
  | _ => true
  end.

(** [InductionDescriptor::isFPInductionPHI]; the step is
    [SE->getUnknown(Addend)]. *)
Definition isFPInductionPHI (Phi : InstId) (TheLoop : Loop)
    : option InductionDescriptor :=
  if bool_decide (getHeader TheLoop ≠ parent F Phi) then None else
  if bool_decide (getNumIncomingValues F Phi ≠ 2) then None else
  let FirstIsBackedge :=
    match getIncomingBlock Phi 0 with
    | Some B => containsBlock TheLoop B
    | None => false
    end in
  let BEValue := getOperand F Phi (if FirstIsBackedge then 0 else 1) in
  let StartValue := getOperand F Phi (if FirstIsBackedge then 1 else 0) in
  match asBinaryOperator F BEValue with
  | None => None
  | Some BOp =>
      let Addend :=
        if bool_decide (opcode F BOp = Opcode.FAdd) then
          if bool_decide (getOperand F BOp 0 = Some (VInst Phi))
          then getOperand F BOp 1
          else if bool_decide (getOperand F BOp 1 = Some (VInst Phi))
          then getOperand F BOp 0
          else None
        else if bool_decide (opcode F BOp = Opcode.FSub) then
          if bool_decide (getOperand F BOp 0 = Some (VInst Phi))
          then getOperand F BOp 1
          else None
        else None in
      match Addend with
      | None => None
      | Some Addend =>
          if match asInst Addend with
             | Some J => contains F TheLoop J
             | None => false
             end
          then None
          else Some (mkInductionDescriptor StartValue IK_FpInduction
                       (SCEVUnknown Addend) (Some BOp) [])
      end
  end.

(** The lambda [getDef] of [getCastsForInductionPHI]. *)
Definition getDef (L : Loop) (Val : Value) : option Value :=
  match asBinaryOperator F (Some Val) with
  | None => None
  | Some BinOp =>
      match getOperand F BinOp 0, getOperand F BinOp 1 with
      | Some Op0, Some Op1 =>
          if Loop_isLoopInvariant L Op0 then Some Op1
          else if Loop_isLoopInvariant L Op1 then Some Op0
          else None
      | _, _ => None
      end
  end.

(** The loop of [getCastsForInductionPHI] along the definitions; the result
    is the returned flag with [CastInsts] as the loop leaves it. *)
Fixpoint castSequence_loop (PSE : PredicatedScalarEvolution)
    (Assumed : list InstId) (fuel : nat) (L : Loop) (PN : InstId) (AR : SCEV)
    (Val : Value) (InCastSequence : bool) (CastInsts : list InstId)
    : Outcome (bool * list InstId) :=
  match fuel with
  | O => OutOfFuel
  | S fuel' =>
      if bool_decide (Val = VInst PN) then Done (InCastSequence, CastInsts)
      else
        match asInst Val with
        | None => Done (false, CastInsts)
        | Some Inst =>
            if negb (contains F L Inst) then Done (false, CastInsts) else
            let InCastSequence' :=
              match PSE_getSCEV PSE Assumed Inst with
              | SCEVAddRecExpr _ _ _ as AddRec =>
                  if PSE_areAddRecsEqualWithPreds PSE Assumed AddRec AR
                  then true
                  else InCastSequence
              | _ => InCastSequence
              end in
            if InCastSequence' && negb (bool_decide (CastInsts = [])) &&
               negb (hasOneUse F Inst) then Done (false, CastInsts) else
            let CastInsts' :=
              if InCastSequence' then CastInsts ++ [Inst] else CastInsts in
            match getDef L Val with
            | None => Done (false, CastInsts')
            | Some Val' =>
                castSequence_loop PSE Assumed fuel' L PN AR Val'
                  InCastSequence' CastInsts'
            end
        end
  end.

(** What the loop does next depends on the value, on the flag and on
    whether a cast has been recorded; a walk that ends passes through each
    such combination of an instruction at most once, and through a value
    that is no instruction only at its end. *)
Definition castSequenceFuel : nat := 2 + 4 * length (instructions F).

(** [getCastsForInductionPHI(PSE, PhiScev, AR, CastInsts)]; [Failed] where
    a [cast] of the source fails. *)
Definition getCastsForInductionPHI (PSE : PredicatedScalarEvolution)
    (Assumed : list InstId) (PhiScev AR : SCEV)
    : Outcome (bool * list InstId) :=
  match PhiScev, AR with
  | SCEVUnknown (VInst PN), SCEVAddRecExpr _ _ L =>
      if negb (isa_PHINode F PN) then Failed else
      match getLoopLatch L with
      | None => Done (false, [])
      | Some Latch =>
          match getIncomingValueForBlock F PN (Some Latch) with
          | None => Done (false, [])
          | Some Val =>
              castSequence_loop PSE Assumed castSequenceFuel L PN AR Val
                false []
          end
      end
  | _, _ => Failed
  end.

(** [InductionDescriptor::isInductionPHI(Phi, TheLoop, PSE, D, Assume)]:
    [Some D] when the source returns true and assigns [D], [None] when it
    returns false, together with the state in which the call leaves the
    predicated engine. *)
Definition isInductionPHI_PSE (PSE : PredicatedScalarEvolution)
    (Assumed : list InstId) (Phi : InstId) (TheLoop : Loop) (Assume : bool)
    : Outcome (option InductionDescriptor * list InstId) :=
  let PhiTy := getType (inst F Phi) in
  if negb (isIntegerTy PhiTy) && negb (isPointerTy PhiTy) &&
     negb (bool_decide (PhiTy = FloatTy)) &&
     negb (bool_decide (PhiTy = DoubleTy)) &&
     negb (bool_decide (PhiTy = HalfTy)) then Done (None, Assumed) else
  if isFloatingPointTy PhiTy
  then Done (isFPInductionPHI Phi TheLoop, Assumed) else
  let PhiScev := PSE_getSCEV PSE Assumed Phi in
  let '(AR, Assumed') :=
    match PhiScev with
    | SCEVAddRecExpr _ _ _ => (Some PhiScev, Assumed)
    | _ =>
        if Assume then
          match PSE_getAsAddRec PSE Assumed Phi with
          | Some (start, step, L) =>
              (Some (SCEVAddRecExpr start step L), Phi :: Assumed)
          | None => (None, Assumed)
          end
        else (None, Assumed)
    end in
  match AR with
  | None => Done (None, Assumed')
  | Some AR =>
      let plain :=
        Done (isInductionPHI F (PSE_getSE PSE) Phi TheLoop (Some AR) None,
              Assumed') in
      let SymbolicPhi :=
        match PhiScev with SCEVUnknown _ => true | _ => false end in
      if bool_decide (PhiScev ≠ AR) && SymbolicPhi then
        match getCastsForInductionPHI PSE Assumed' PhiScev AR with
        | Done (true, Casts) =>
            Done (isInductionPHI F (PSE_getSE PSE) Phi TheLoop (Some AR)
                    (Some Casts), Assumed')
        | Done (false, _) => plain
        | Failed => Failed
        | OutOfFuel => OutOfFuel
        end
      else plain
  end.

End InductionWithPredicates.

(** ** Example loops

    Block 0 is the preheader, block 1 the single-block loop (header and
    latch), block 2 the exit block. *)

Definition phiInst (ty : Ty) (ops : list Value) (blocks : list BlockId)
    (us : list InstId) (bb : BlockId) : Instruction :=
  mkInst Opcode.PHI ty ops blocks us bb FCMP_FALSE FMF_none false false.

Definition binInst (op : Opcode.t) (ty : Ty) (fmf : FastMathFlags)
    (a b : Value) (us : list InstId) (bb : BlockId) : Instruction :=
  mkInst op ty [a; b] [] us bb FCMP_FALSE fmf false false.

Definition cmpInst (op : Opcode.t) (p : Predicate) (a b : Value)
    (us : list InstId) (bb : BlockId) : Instruction :=
  mkInst op (IntegerTy 1) [a; b] [] us bb p FMF_none false false.

Definition selectInst (ty : Ty) (c a b : Value) (us : list InstId)
    (bb : BlockId) : Instruction :=
  mkInst Opcode.Select ty [c; a; b] [] us bb FCMP_FALSE FMF_none false false.

Definition retInst (v : Value) (bb : BlockId) : Instruction :=
  mkInst Opcode.Ret VoidTy [v] [] [] bb FCMP_FALSE FMF_none true false.

Definition loadInst (ty : Ty) (p : Value) (us : list InstId) (bb : BlockId)
    : Instruction :=
  mkInst Opcode.Load ty [p] [] us bb FCMP_FALSE FMF_none false true.

Definition loop1 : Loop := mkLoop 1 (Some 0) (Some 1) [1].

Definition i32 : Ty := IntegerTy 32.

(** No analysis is available: the recurrence type is computed from the
    type width alone. *)
Definition noAnalyses : Analyses :=
  mkAnalyses None false false (fun _ => 1%Z) (fun _ => false)
    (fun _ => false)
    (fun t => match t with IntegerTy n => n | _ => 0%Z end).

(** [%sum = phi i32 [ %start, %ph ], [ %add, %loop ]]
    [%add = add i32 %sum, %x], and [ret i32 %add] after the loop. *)
Definition sumLoop : Function :=
  mkFunction []
    [ phiInst i32 [VOther i32 0; VInst 1] [0; 1] [1] 1;
      binInst Opcode.Add i32 FMF_none (VInst 0) (VOther i32 1) [0; 2] 1;
      retInst (VInst 1) 2 ].

(** A strict floating-point sum:
    [%s = phi float [ %start, %ph ], [ %a, %loop ]]
    [%a = fadd float %s, %x], and [ret float %a] after the loop. *)
Definition strictFAddLoop : Function :=
  mkFunction []
    [ phiInst FloatTy [VOther FloatTy 0; VInst 1] [0; 1] [1] 1;
      binInst Opcode.FAdd FloatTy FMF_none (VInst 0) (VOther FloatTy 1)
        [0; 2] 1;
      retInst (VInst 1) 2 ].

(** A floating-point sum of two additions, the first strict and the second
    with the fast flags:
    [%s = phi float [ %start, %ph ], [ %b, %loop ]]
    [%a = fadd float %s, %x]
    [%b = fadd fast float %a, %y], and [ret float %b] after the loop. *)
Definition mixedFAddLoop : Function :=
  mkFunction []
    [ phiInst FloatTy [VOther FloatTy 0; VInst 2] [0; 1] [1] 1;
      binInst Opcode.FAdd FloatTy FMF_none (VInst 0) (VOther FloatTy 1) [2] 1;
      binInst Opcode.FAdd FloatTy FMF_getFast (VInst 1) (VOther FloatTy 2)
        [0; 3] 1;
      retInst (VInst 2) 2 ].

(** The same chain with both additions strict. *)
Definition twoStrictFAddLoop : Function :=
  mkFunction []
    [ phiInst FloatTy [VOther FloatTy 0; VInst 2] [0; 1] [1] 1;
      binInst Opcode.FAdd FloatTy FMF_none (VInst 0) (VOther FloatTy 1) [2] 1;
      binInst Opcode.FAdd FloatTy FMF_none (VInst 1) (VOther FloatTy 2)
        [0; 3] 1;
      retInst (VInst 2) 2 ].

(** A signed minimum:
    [%m = phi i32 [ %start, %ph ], [ %sel, %loop ]]
    [%c = icmp slt i32 %m, %x]
    [%sel = select i1 %c, i32 %m, i32 %x], and [ret i32 %sel]. *)
Definition sminLoop : Function :=
  mkFunction []
    [ phiInst i32 [VOther i32 0; VInst 2] [0; 1] [2; 1] 1;
      cmpInst Opcode.ICmp ICMP_SLT (VInst 0) (VOther i32 1) [2] 1;
      selectInst i32 (VInst 1) (VInst 0) (VOther i32 1) [0; 3] 1;
      retInst (VInst 2) 2 ].

(** A floating-point maximum in a function that carries both fast-math
    attributes, and the same loop without them. *)
Definition fmaxInsts : list Instruction :=
  [ phiInst FloatTy [VOther FloatTy 0; VInst 2] [0; 1] [2; 1] 1;
    cmpInst Opcode.FCmp FCMP_OGT (VInst 0) (VOther FloatTy 1) [2] 1;
    selectInst FloatTy (VInst 1) (VInst 0) (VOther FloatTy 1) [0; 3] 1;
    retInst (VInst 2) 2 ].

Definition fmaxLoopFast : Function :=
  mkFunction [("no-nans-fp-math", "true");
              ("no-signed-zeros-fp-math", "true")]%string fmaxInsts.

Definition fmaxLoopNoNsz : Function :=
  mkFunction [("no-nans-fp-math", "true")]%string fmaxInsts.

(** A sum promoted from [i8] to [i32] and masked:
    [%p = phi i32 [ %start, %ph ], [ %add, %loop ]]
    [%m = and i32 %p, mask]
    [%add = add i32 %m, %x], and [ret i32 %add]. *)
Definition maskedSumLoop (mask : Z) : Function :=
  mkFunction []
    [ phiInst i32 [VOther i32 0; VInst 2] [0; 1] [1] 1;
      binInst Opcode.And i32 FMF_none (VInst 0) (VConstInt 32 mask) [2] 1;
      binInst Opcode.Add i32 FMF_none (VInst 1) (VOther i32 1) [0; 3] 1;
      retInst (VInst 2) 2 ].

(** The same loop on [i8], where the mask 255 is all ones. *)
Definition maskedSumLoop8 : Function :=
  mkFunction []
    [ phiInst (IntegerTy 8) [VOther (IntegerTy 8) 0; VInst 2] [0; 1] [1] 1;
      binInst Opcode.And (IntegerTy 8) FMF_none (VInst 0) (VConstInt 8 255)
        [2] 1;
      binInst Opcode.Add (IntegerTy 8) FMF_none (VInst 1)
        (VOther (IntegerTy 8) 1) [0; 3] 1;
      retInst (VInst 2) 2 ].

(** Demanded bits report the low [n] bits of every instruction live. *)
Definition demandedLow (n : Z) : Analyses :=
  mkAnalyses (Some (fun _ => (2 ^ n - 1)%Z)) false false (fun _ => 1%Z)
    (fun _ => false) (fun _ => false)
    (fun t => match t with IntegerTy n => n | _ => 0%Z end).

(** A first-order recurrence whose users precede the latch value:
    [%r = phi i32 [ %init, %ph ], [ %prev, %loop ]]
    [%u = add i32 %r, %x]
    [%v = mul i32 %u, %y]
    [%prev = add i32 %z, %w]
    [%t = add i32 %v, %prev]. *)
Definition lagLoop : Function :=
  mkFunction []
    [ phiInst i32 [VOther i32 0; VInst 3] [0; 1] [1] 1;
      binInst Opcode.Add i32 FMF_none (VInst 0) (VOther i32 1) [2] 1;
      binInst Opcode.Mul i32 FMF_none (VInst 1) (VOther i32 2) [4] 1;
      binInst Opcode.Add i32 FMF_none (VOther i32 3) (VOther i32 4) [0; 4] 1;
      binInst Opcode.Add i32 FMF_none (VInst 2) (VInst 3) [] 1 ].

(** The same loop where [%v] is a load from an address computed from
    [%u]. *)
Definition lagLoopWithLoad : Function :=
  mkFunction []
    [ phiInst i32 [VOther i32 0; VInst 3] [0; 1] [1] 1;
      binInst Opcode.Add i32 FMF_none (VInst 0) (VOther i32 1) [2] 1;
      loadInst i32 (VInst 1) [4] 1;
      binInst Opcode.Add i32 FMF_none (VOther i32 3) (VOther i32 4) [0; 4] 1;
      binInst Opcode.Add i32 FMF_none (VInst 2) (VInst 3) [] 1 ].

(** Dominance inside the single loop block is the program order. *)
Definition blockOrderDominates (A B : InstId) : bool := A <? B.

(** A pointer induction over [i32] elements advancing [stepBytes] bytes:
    [%p = phi i32* [ %base, %ph ], [ %next, %loop ]]
    [%next = getelementptr ...]. *)
Definition ptrLoop : Function :=
  mkFunction []
    [ phiInst (PointerTy i32) [VOther (PointerTy i32) 0; VInst 1] [0; 1]
        [1] 1;
      mkInst Opcode.GetElementPtr (PointerTy i32) [VInst 0; VConstInt 64 1]
        [] [0] 1 FCMP_FALSE FMF_none false false ].

Definition ptrSE (stepBytes : Z) : ScalarEvolution :=
  mkSE (fun _ => SCEVAddRecExpr (SCEVUnknown (VOther (PointerTy i32) 0))
                   (SCEVConstant 64 stepBytes) loop1)
       (fun _ _ => true)
       (fun t => match t with IntegerTy n => (n / 8)%Z | _ => 8%Z end).

(** The descriptors that the matcher returns on the example loops. *)
Definition sumLoopDescriptor : RecurrenceDescriptor.t :=
  RecurrenceDescriptor.mk (Some (VOther i32 0)) 1 RecurKind.Add FMF_getFast
    None i32 false false ∅.

Definition strictFAddDescriptor : RecurrenceDescriptor.t :=
  RecurrenceDescriptor.mk (Some (VOther FloatTy 0)) 1 RecurKind.FAdd FMF_none
    (Some 1) FloatTy false true ∅.

Definition sminLoopDescriptor : RecurrenceDescriptor.t :=
  RecurrenceDescriptor.mk (Some (VOther i32 0)) 2 RecurKind.SMin FMF_getFast
    None i32 false false ∅.

Definition maskedSumDescriptor : RecurrenceDescriptor.t :=
  RecurrenceDescriptor.mk (Some (VOther i32 0)) 2 RecurKind.Add FMF_getFast
    None (IntegerTy 8) false false {[1]}.

(** The tentatively sunk instructions are kept in program order, lie in
    the block of the merge node and have no entry in [SinkAfter] yet. *)
Definition programOrdered (S : list InstId) : Prop :=
  StronglySorted (fun A B => comesBefore A B = true) S.

Definition sinkInvariant (F : Function) (SinkAfter : MapVector)
    (PhiBB : BlockId) (InstrsToSink : list InstId) : Prop :=
  programOrdered InstrsToSink /\
  forall Inst, Inst ∈ InstrsToSink ->
    parent F Inst = PhiBB /\ mv_find SinkAfter Inst = None.

(** The operand slots of the instructions that [collectCastsToIgnore] has
    not visited yet, and what its worklist satisfies: the in-loop operands
    of a visited instruction that is looked through are visited or lie
    above it on the worklist. *)
Definition unvisitedSlots (F : Function) (Visited : gset InstId)
    (ids : list InstId) : nat :=
  sum_list (map (fun I => if bool_decide (I ∈ Visited) then 0
                          else length (operands (inst F I))) ids).

Definition castWorklistInvariant (F : Function) (TheLoop : Loop)
    (RecurrenceType : Ty) (Worklist : list InstId) (Visited : gset InstId)
    : Prop :=
  forall above Val below O,
    Worklist = above ++ Val :: below ->
    Val ∈ Visited ->
    isCastFromRecurrenceType F RecurrenceType Val = false ->
    O ∈ operandInsts F Val ->
    contains F TheLoop O = true ->
    O ∈ Visited \/ O ∈ above.

(** A floating-point induction and a loop that only looks like one:
    [%x = phi float [ %init, %ph ], [ %next, %loop ]]
    [%next = fadd float %x, %step], and the same with
    [%next = fsub float %step, %x]. *)
Definition fpInductionLoop : Function :=
  mkFunction []
    [ phiInst FloatTy [VOther FloatTy 0; VInst 1] [0; 1] [1] 1;
      binInst Opcode.FAdd FloatTy FMF_none (VInst 0) (VOther FloatTy 1)
        [0] 1 ].

Definition reversedFSubLoop : Function :=
  mkFunction []
    [ phiInst FloatTy [VOther FloatTy 0; VInst 1] [0; 1] [1] 1;
      binInst Opcode.FSub FloatTy FMF_none (VOther FloatTy 1) (VInst 0)
        [0] 1 ].

(** The predicated engine on the pointer induction: nothing can be
    assumed. *)
Definition ptrPSE (stepBytes : Z) : PredicatedScalarEvolution :=
  mkPSE (fun _ => getSCEV (ptrSE stepBytes)) (fun _ _ => None)
        (fun _ _ _ => false) (ptrSE stepBytes).

(** The masked sum read as an induction whose update passes through the
    mask.  Without predicates the PHI is opaque to the engine; it can be
    assumed to be the add-recurrence {0,+,1}, and under the predicates
    added for that the masked value is this recurrence as well. *)
Definition maskedRecurrence : SCEV :=
  SCEVAddRecExpr (SCEVConstant 32 0) (SCEVConstant 32 1) loop1.

Definition maskedPSE : PredicatedScalarEvolution :=
  mkPSE (fun Assumed J =>
           match J with
           | 0 => if bool_decide (0 ∈ Assumed) then maskedRecurrence
                  else SCEVUnknown (VInst 0)
           | 1 => if bool_decide (0 ∈ Assumed) then maskedRecurrence
                  else SCEVOther 1
           | _ => SCEVOther J
           end)
        (fun _ J =>
           match J with
           | 0 => Some (SCEVConstant 32 0, SCEVConstant 32 1, loop1)
           | _ => None
           end)
        (fun _ A B => bool_decide (A = B))
        (mkSE (fun J => SCEVOther J) (fun _ _ => true) (fun _ => 4%Z)).

(** A sum that is updated on one path through the loop only.  Block 1 is
    the header, block 3 the conditional block, block 4 the latch:
    [%s = phi i32 [ %start, %ph ], [ %m, %latch ]]
    [%a = add i32 %s, %x] in the conditional block,
    [%m = phi i32 [ %a, %then ], [ %s, %header ]] in the latch, and
    [ret i32 %m] after the loop. *)
Definition conditionalSumLoop : Function :=
  mkFunction []
    [ phiInst i32 [VOther i32 0; VInst 2] [0; 4] [1; 2] 1;
      binInst Opcode.Add i32 FMF_none (VInst 0) (VOther i32 1) [2] 3;
      phiInst i32 [VInst 1; VInst 0] [3; 1] [0; 3] 4;
      retInst (VInst 2) 5 ].

Definition loop134 : Loop := mkLoop 1 (Some 0) (Some 4) [1; 3; 4].

Definition conditionalSumDescriptor : RecurrenceDescriptor.t :=
  RecurrenceDescriptor.mk (Some (VOther i32 0)) 2 RecurKind.Add FMF_getFast
    None i32 false false ∅.

(** A running difference:
    [%s = phi i32 [ %start, %ph ], [ %d, %loop ]]
    [%d = sub i32 %s, %x], and [ret i32 %d] after the loop. *)
Definition differenceLoop : Function :=
  mkFunction []
    [ phiInst i32 [VOther i32 0; VInst 1] [0; 1] [1] 1;
      binInst Opcode.Sub i32 FMF_none (VInst 0) (VOther i32 1) [0; 2] 1;
      retInst (VInst 1) 2 ].

(** ** Specification-side definitions *)

(** The priority order of the reduction kind prober as the specification
    lists it, and the first success of a matcher along a list. *)
Definition reductionKindOrder : list RecurKind.t :=
  [ RecurKind.Add; RecurKind.Mul; RecurKind.Or; RecurKind.And;
    RecurKind.Xor; RecurKind.SMax; RecurKind.SMin; RecurKind.UMax;
    RecurKind.UMin; RecurKind.FMul; RecurKind.FAdd; RecurKind.FMax;
    RecurKind.FMin ].

Fixpoint firstMatch {A B : Type} (f : A -> option B) (l : list A)
    : option B :=
  match l with
  | [] => None
  | a :: r => match f a with Some b => Some b | None => firstMatch f r end
  end.

(** The number of history entries that were counted as instructions of the
    min/max pattern. *)
Definition countedPatternInsts (F : Function)
    (tr : list (InstId * ReductionState)) : Z :=
  Z.of_nat
    (length (List.filter
               (fun p => countsAsPattern F (st_Kind (snd p)) (fst p)) tr)).

(** What the running kind and the kind of [ReduxDesc] can be when the
    candidate kind is [Kind0]: a min/max candidate keeps the running kind
    among the min/max kinds, any other candidate never changes it. *)
Definition kindInvariant (Kind0 : RecurKind.t) (st : ReductionState) : Prop :=
  (getRecKind (st_ReduxDesc st) = RecurKind.None \/
   isMinMaxRecurrenceKind (getRecKind (st_ReduxDesc st)) = true) /\
  if isMinMaxRecurrenceKind Kind0
  then isMinMaxRecurrenceKind (st_Kind st) = true
  else st_Kind st = Kind0 /\
       getRecKind (st_ReduxDesc st) = RecurKind.None.

(** What holds of a recorded exit instruction. *)
Definition exitInvariant (F : Function) (TheLoop : Loop) (Phi : InstId)
    (st : ReductionState) : Prop :=
  forall Exit,
    st_ExitInstruction st = Some Exit ->
    Exit ≠ Phi /\ VInst Exit ∈ operands (inst F Phi) /\
    hasOutsideUser F TheLoop Exit = true.

(** ** Walks, histories and invariants *)

(** The bits that the smearing steps of [NextPowerOf2] have set in [X]: none
    above position [h], and all of the [s + 1] positions from [h] down. *)
Definition smeared (h s X : Z) : Prop :=
  (forall i, (h < i)%Z -> Z.testbit X i = false) /\
  (forall i, (0 <= i)%Z -> (h - s <= i <= h)%Z -> Z.testbit X i = true).

(** The number of steps that a partial step function takes from a state
    before it stops, counted with fuel. *)
Fixpoint stepCount {A : Type} (next : A -> option A) (fuel : nat) (a : A)
    : option nat :=
  match fuel with
  | O => None
  | S fuel' =>
      match next a with
      | None => Some 0
      | Some a' => S <$> stepCount next fuel' a'
      end
  end.

(** Where the walk of [getReductionOpChain] goes from an instruction that
    it passes. *)
Definition chainNext (F : Function) (isMinOrMaxSelectPattern : InstId -> bool)
    (RedOp : Opcode.t) (LoopExitInstr Cur : InstId) : option InstId :=
  if bool_decide (Cur = LoopExitInstr) then None
  else if negb (isCorrectOpcode F isMinOrMaxSelectPattern RedOp Cur) ||
          negb (hasNUses F Cur (ExpectedUses RedOp)) then None
  else getNextInstruction F RedOp Cur.

(** The instructions from [First] up to the exit instruction, each passing
    the checks of the walk and followed by its next instruction. *)
Inductive chainWalk (F : Function) (isMinOrMaxSelectPattern : InstId -> bool)
    (RedOp : Opcode.t) (LoopExitInstr : InstId)
    : InstId -> list InstId -> Prop :=
| chainWalk_exit :
    chainWalk F isMinOrMaxSelectPattern RedOp LoopExitInstr LoopExitInstr
      [LoopExitInstr]
| chainWalk_step Cur Next path :
    chainNext F isMinOrMaxSelectPattern RedOp LoopExitInstr Cur = Some Next ->
    chainWalk F isMinOrMaxSelectPattern RedOp LoopExitInstr Next path ->
    chainWalk F isMinOrMaxSelectPattern RedOp LoopExitInstr Cur (Cur :: path).

(** The indices that name an instruction of the function. *)
Definition instructionIds (F : Function) : gset InstId :=
  list_to_set (seq 0 (length (instructions F))).

(** The value at which the loop of [getCastsForInductionPHI] meets an
    add-recurrence equal to [AR] under the predicates. *)
Definition entersCastSequence (PSE : PredicatedScalarEvolution)
    (Assumed : list InstId) (AR : SCEV) (Inst : InstId) : bool :=
  match PSE_getSCEV PSE Assumed Inst with
  | SCEVAddRecExpr _ _ _ as AddRec =>
      PSE_areAddRecsEqualWithPreds PSE Assumed AddRec AR
  | _ => false
  end.

(** Where that loop goes from an instruction, given the flag and whether a
    cast has been recorded. *)
Definition castNext (F : Function) (PSE : PredicatedScalarEvolution)
    (Assumed : list InstId) (L : Loop) (PN : InstId) (AR : SCEV)
    (s : InstId * bool * bool)
    : option (InstId * bool * bool) :=
  let '(Inst, InCastSequence, Recorded) := s in
  if bool_decide (Inst = PN) then None
  else if negb (contains F L Inst) then None
  else
    let InCastSequence' :=
      entersCastSequence PSE Assumed AR Inst || InCastSequence in
    if InCastSequence' && Recorded && negb (hasOneUse F Inst) then None
    else
      match getDef F L (VInst Inst) with
      | Some (VInst Inst') =>
          Some (Inst', InCastSequence', Recorded || InCastSequence')
      | _ => None
      end.

(** The instructions of the loop from a value up to the merge node [PN],
    each defined from the next by [getDef]. *)
Fixpoint defChain (F : Function) (L : Loop) (PN : InstId) (Val : Value)
    (path : list InstId) : Prop :=
  match path with
  | [] => Val = VInst PN
  | Inst :: r =>
      Val = VInst Inst /\ Inst ≠ PN /\ contains F L Inst = true /\
      exists Val', getDef F L Val = Some Val' /\ defChain F L PN Val' r
  end.

(** The states of that loop on the instructions of the function. *)
Definition castStates (F : Function) : gset (InstId * bool * bool) :=
  list_to_set
    (J ← seq 0 (length (instructions F));
     [(J, false, false); (J, false, true); (J, true, false); (J, true, true)]).

(** The start instruction and the history of the worklist loop of
    [AddReductionVar] on a merge node and a candidate kind, and the
    instructions that the loop has popped, in the order of their visit. *)
Definition reductionStartInst (F : Function) (Phi : InstId)
    (Kind : RecurKind.t) : InstId :=
  match reductionStart F Phi Kind with
  | Some (Start, _, _, _) => Start
  | None => Phi
  end.

Definition reductionHistory (F : Function) (TheLoop : Loop) (Phi : InstId)
    (Kind : RecurKind.t) (FuncFMF : FastMathFlags)
    : list (InstId * ReductionState) :=
  match reductionStart F Phi Kind with
  | Some (Start, _, VisitedInsts, _) =>
      runReductionTrace F TheLoop Phi Kind FuncFMF Start VisitedInsts
  | None => []
  end.

Definition visitedInstructions (F : Function) (TheLoop : Loop) (Phi : InstId)
    (Kind : RecurKind.t) (FuncFMF : FastMathFlags) : list InstId :=
  fst <$> reductionHistory F TheLoop Phi Kind FuncFMF.

(** What the worklist loop keeps true of the instructions it has popped
    ([seen]), of its worklist and of [VisitedInsts], where [V0] is what
    [VisitedInsts] held before the start instruction was inserted. *)
Definition visitInvariant (F : Function) (TheLoop : Loop) (Start : InstId)
    (V0 : gset InstId) (seen : list InstId) (st : ReductionState) : Prop :=
  NoDup (seen ++ st_Worklist st) /\
  st_VisitedInsts st = V0 ∪ list_to_set (seen ++ st_Worklist st) /\
  (forall x, x ∈ seen ++ st_Worklist st ->
     x = Start \/
     (contains F TheLoop x = true /\ exists p, p ∈ seen /\ x ∈ users (inst F p))) /\
  (forall p, p ∈ seen ->
     users (inst F p) ≠ [] /\
     forall UI, UI ∈ users (inst F p) -> contains F TheLoop UI = true ->
       UI ∈ st_VisitedInsts st).

(** The opcodes that a candidate kind allows on the instructions visited
    after the start instruction. *)
Definition kindOpcodes (Kind : RecurKind.t) : list Opcode.t :=
  match Kind with
  | RecurKind.None => [Opcode.PHI]
  | RecurKind.Add => [Opcode.PHI; Opcode.Add; Opcode.Sub]
  | RecurKind.Mul => [Opcode.PHI; Opcode.Mul]
  | RecurKind.Or => [Opcode.PHI; Opcode.Or]
  | RecurKind.And => [Opcode.PHI; Opcode.And]
  | RecurKind.Xor => [Opcode.PHI; Opcode.Xor]
  | RecurKind.FAdd => [Opcode.PHI; Opcode.FAdd; Opcode.FSub; Opcode.Select]
  | RecurKind.FMul => [Opcode.PHI; Opcode.FMul; Opcode.FDiv; Opcode.Select]
  | RecurKind.SMin | RecurKind.SMax | RecurKind.UMin | RecurKind.UMax
  | RecurKind.FMin | RecurKind.FMax =>
      [Opcode.PHI; Opcode.ICmp; Opcode.FCmp; Opcode.Select]
  end.

(** The floating-point arithmetic opcodes, on which the matcher records the
    instruction that forbids reassociation. *)
Definition fpArithmeticOpcodes : list Opcode.t :=
  [Opcode.FAdd; Opcode.FSub; Opcode.FMul; Opcode.FDiv].

(** A user that the sinker needs not move: it is not the previous value
    and is dominated by it already, or it is a PHI of the block of the merge
    node that has no side effects, reads no memory and has no entry in
    [SinkAfter]. *)
Definition staysInPlace (F : Function) (dominates : InstId -> InstId -> bool)
    (SinkAfter : MapVector) (PhiBB : BlockId) (Previous U : InstId) : Prop :=
  U ≠ Previous /\
  (dominates Previous U = true \/
   (isa_PHINode F U = true /\ parent F U = PhiBB /\
    mayHaveSideEffects (inst F U) = false /\
    mayReadFromMemory (inst F U) = false /\
    mv_find SinkAfter U = None)).

(** An instruction that the sinker may move after the previous value. *)
Definition sinkable (F : Function) (dominates : InstId -> InstId -> bool)
    (SinkAfter : MapVector) (PhiBB : BlockId) (Previous Inst : InstId)
    : Prop :=
  Inst ≠ Previous /\ dominates Previous Inst = false /\
  parent F Inst = PhiBB /\
  mayHaveSideEffects (inst F Inst) = false /\
  mayReadFromMemory (inst F Inst) = false /\
  isTerminator F Inst = false /\ isa_PHINode F Inst = false /\
  mv_find SinkAfter Inst = None.

(** What the worklist loop of the sinker keeps true of the instructions to
    sink and of its worklist while it scans the users of [Current], of
    which [handled] have been tried: the instructions to sink are in
    program order, each may be moved and is a user of the merge node or of
    another one; the worklist holds the merge node and instructions to sink
    only; and the users of the merge node and of every instruction to sink
    that is neither [Current] nor on the worklist, and the users already
    tried, are to be sunk or stay in place. *)
Definition sinkerInvariant (F : Function)
    (dominates : InstId -> InstId -> bool) (SinkAfter : MapVector)
    (PhiBB : BlockId) (Previous Phi : InstId) (Current : option InstId)
    (handled : list InstId) (st : list InstId * list InstId) : Prop :=
  let '(InstrsToSink, WorkList) := st in
  let reached P := P = Phi \/ P ∈ InstrsToSink in
  let settled U :=
    U ∈ InstrsToSink \/
    staysInPlace F dominates SinkAfter PhiBB Previous U in
  programOrdered InstrsToSink /\
  (forall Inst, Inst ∈ InstrsToSink ->
     sinkable F dominates SinkAfter PhiBB Previous Inst /\
     exists P, reached P /\ Inst ∈ users (inst F P)) /\
  (forall P, P ∈ WorkList \/ Some P = Current -> reached P) /\
  (forall P, reached P ->
     Some P = Current \/ P ∈ WorkList \/
     forall U, U ∈ users (inst F P) -> settled U) /\
  (forall U, U ∈ handled -> settled U).

(** * Verification *)

(** ** The reduction kind prober *)

Lemma firstMatch_Some {A B : Type} (f : A -> option B) (l : list A) (b : B) :
  firstMatch f l = Some b <->
  exists pre a post,
    l = pre ++ a :: post /\ Forall (fun a' => f a' = None) pre /\ f a = Some b.
Proof.
  induction l as [|x l IH]; simpl.
  - split; [discriminate|].
    intros (pre & a & post & Heq & _). by destruct pre.
  - destruct (f x) as [b'|] eqn:Hx.
    + split.
      * intros [= <-]. exists [], x, l. by repeat split.
      * intros (pre & a & post & Heq & Hpre & Ha).
        destruct pre as [|p pre]; simpl in Heq; injection Heq as <- ->.
        -- congruence.
        -- inversion Hpre; congruence.
    + rewrite IH. split.
      * intros (pre & a & post & -> & Hpre & Ha).
        exists (x :: pre), a, post. repeat split; [|done]. by constructor.
      * intros (pre & a & post & Heq & Hpre & Ha).
        destruct pre as [|p pre]; simpl in Heq; injection Heq as <- ->.
        -- congruence.
        -- exists pre, a, post. inversion Hpre; by subst.
Qed.

Lemma firstMatch_None {A B : Type} (f : A -> option B) (l : list A) :
  firstMatch f l = None <-> Forall (fun a => f a = None) l.
Proof.
  induction l as [|x l IH]; simpl.
  - split; [constructor|done].
  - destruct (f x) eqn:Hx.
    + split; [discriminate|]. inversion 1; congruence.
    + rewrite IH. split; [by constructor|by inversion 1].
Qed.

Lemma isReductionPHI_firstMatch F TheLoop An Phi :
  isReductionPHI F TheLoop An Phi =
  firstMatch (fun K => AddReductionVar F TheLoop An Phi K (functionFMF F))
             reductionKindOrder.
Proof.
  unfold isReductionPHI, reductionKindOrder. simpl.
  repeat match goal with
         | |- context [AddReductionVar ?f ?l ?a ?p ?k ?m] =>
             destruct (AddReductionVar f l a p k m); [reflexivity|]
         end.
  reflexivity.
Qed.

(** C1: [isReductionPHI] tries the matcher for each kind in the order Add,
    Mul, Or, And, Xor, SMax, SMin, UMax, UMin, FMul, FAdd, FMax, FMin; it
    returns the descriptor of the first kind that matches, and it returns
    no match exactly when every kind of the list fails. *)
Theorem isReductionPHI_priority_order F TheLoop An Phi :
  let tryKind K := AddReductionVar F TheLoop An Phi K (functionFMF F) in
  isReductionPHI F TheLoop An Phi = firstMatch tryKind reductionKindOrder /\
  (forall RedDes,
     isReductionPHI F TheLoop An Phi = Some RedDes <->
     exists earlier K later,
       reductionKindOrder = earlier ++ K :: later /\
       Forall (fun K' => tryKind K' = None) earlier /\
       tryKind K = Some RedDes) /\
  (isReductionPHI F TheLoop An Phi = None <->
   Forall (fun K => tryKind K = None) reductionKindOrder).
Proof.
  intros tryKind. rewrite isReductionPHI_firstMatch. fold tryKind.
  split; [reflexivity|]. split.
  - intros RedDes. apply firstMatch_Some.
  - apply firstMatch_None.
Qed.

(** ** The worklist loop of the reduction matcher terminates *)

Section ReductionLoopFacts.
Variable F : Function.
Variable TheLoop : Loop.
Variable Phi Start : InstId.
Variable FuncFMF : FastMathFlags.

Abbreviation visit := (visitInstruction F TheLoop Phi Start FuncFMF).
Abbreviation reductionLoop := (reductionLoop F TheLoop Phi Start FuncFMF).
Abbreviation reductionTrace := (reductionTrace F TheLoop Phi Start FuncFMF).
Abbreviation reductionStep := (reductionStep F TheLoop Phi Start FuncFMF).

Lemma users_in_universe (I UI : InstId) :
  UI ∈ users (inst F I) -> UI ∈ userUniverse F.
Proof.
  unfold inst, userUniverse. intros HUI.
  destruct (instructions F !! I) as [ins|] eqn:Hlk; simpl in HUI.
  - apply elem_of_list_to_set, list_elem_of_In, in_concat.
    exists (users ins). split; [|by apply list_elem_of_In].
    apply in_map, list_elem_of_In. by eapply list_elem_of_lookup_2.
  - by apply not_elem_of_nil in HUI.
Qed.

Lemma size_difference_insert (U V : gset InstId) (x : InstId) :
  x ∈ U -> x ∉ V -> S (size (U ∖ ({[x]} ∪ V))) = size (U ∖ V).
Proof.
  intros HU HV.
  assert (U ∖ ({[x]} ∪ V) = (U ∖ V) ∖ {[x]}) as -> by set_solver.
  rewrite size_difference by set_solver.
  rewrite size_singleton.
  assert (size ({[x]} : gset InstId) ≤ size (U ∖ V)) as Hle
    by (apply subseteq_size; set_solver).
  rewrite size_singleton in Hle. lia.
Qed.

(** The effect of one user on the scan. *)
Lemma scanUser_cases Kind Cur UI us us' :
  scanUser F TheLoop Phi Kind Cur UI us = Some us' ->
  (containsBlock TheLoop (parent F UI) = false /\
   us_VisitedInsts us' = us_VisitedInsts us /\
   us_PHIs us' = us_PHIs us /\ us_NonPHIs us' = us_NonPHIs us /\
   us_FoundStartPHI us' = us_FoundStartPHI us /\
   us_ExitInstruction us' = Some Cur /\
   (us_ExitInstruction us = Some Cur \/
    (us_ExitInstruction us = None /\ (Cur ≠ Phi) /\
     VInst Cur ∈ operands (inst F Phi)))) \/
  (containsBlock TheLoop (parent F UI) = true /\
   us_ExitInstruction us' = us_ExitInstruction us /\
   us_FoundStartPHI us' =
     (if bool_decide (UI = Phi) then true else us_FoundStartPHI us) /\
   ((UI ∈ us_VisitedInsts us /\
     us_VisitedInsts us' = us_VisitedInsts us /\
     us_PHIs us' = us_PHIs us /\ us_NonPHIs us' = us_NonPHIs us) \/
    ((UI ∉ us_VisitedInsts us) /\
     us_VisitedInsts us' = {[UI]} ∪ us_VisitedInsts us /\
     ((us_PHIs us' = us_PHIs us ++ [UI] /\ us_NonPHIs us' = us_NonPHIs us) \/
      (us_PHIs us' = us_PHIs us /\ us_NonPHIs us' = us_NonPHIs us ++ [UI]))))).
Proof.
  unfold scanUser.
  destruct (containsBlock TheLoop (parent F UI)) eqn:Hin; simpl.
  - intros H. right. split; [done|].
    destruct (bool_decide (UI ∈ us_VisitedInsts us)) eqn:Hvis.
    + apply bool_decide_eq_true in Hvis.
      match type of H with
      | context [if ?c then None else Some us] => destruct c; [done|]
      end.
      injection H as <-. simpl. naive_solver.
    + apply bool_decide_eq_false in Hvis.
      destruct (isa_PHINode F UI); injection H as <-; simpl; naive_solver.
  - intros H. left. split; [done|].
    case_bool_decide as Hex; [injection H as <-; naive_solver|].
    destruct (bool_decide (us_ExitInstruction us ≠ None) ||
              bool_decide (Cur = Phi)) eqn:Hor; [done|].
    apply orb_false_iff in Hor as [H1 H2].
    apply bool_decide_eq_false in H1, H2.
    case_bool_decide as Hop; [|done]. simpl in H.
    injection H as <-. simpl.
    repeat split; try done. right.
    destruct (us_ExitInstruction us); [by destruct H1|done].
Qed.

(** Each user that the scan pushes is new to the visited set, so the number
    of pushed instructions is paid for by the unvisited part of the
    universe. *)
Lemma scanUsers_measure Kind Cur Us us us' :
  scanUsers F TheLoop Phi Kind Cur Us us = Some us' ->
  (forall UI, UI ∈ Us -> UI ∈ userUniverse F) ->
  length (us_PHIs us') + length (us_NonPHIs us') +
    size (userUniverse F ∖ us_VisitedInsts us') =
  length (us_PHIs us) + length (us_NonPHIs us) +
    size (userUniverse F ∖ us_VisitedInsts us).
Proof.
  revert us. induction Us as [|UI Us IH]; intros us; simpl.
  - by intros [= <-].
  - destruct (scanUser F TheLoop Phi Kind Cur UI us) as [us1|] eqn:H1; [|done].
    intros H HU. rewrite (IH us1 H) by (intros; apply HU; set_solver).
    assert (UI ∈ userUniverse F) as HUI by (apply HU; set_solver).
    apply scanUser_cases in H1
      as [(_ & -> & -> & -> & _)|(_ & _ & _ & [(_ & -> & -> & ->)|(Hn & -> & Hl)])];
      [done|done|].
    rewrite <- (size_difference_insert _ _ UI HUI Hn).
    destruct Hl as [[-> ->]|[-> ->]]; rewrite length_app; simpl; lia.
Qed.

Lemma visitInstruction_scan Cur st st' :
  visit Cur st = Some st' ->
  exists us,
    scanUsers F TheLoop Phi (st_Kind st') Cur (users (inst F Cur))
      (mkUserScan (st_ExitInstruction st) (st_VisitedInsts st) [] []
         (st_FoundStartPHI st)) = Some us /\
    st_ExitInstruction st' = us_ExitInstruction us /\
    st_FoundStartPHI st' = us_FoundStartPHI us /\
    st_VisitedInsts st' = us_VisitedInsts us /\
    st_Worklist st' =
      rev (us_NonPHIs us) ++ rev (us_PHIs us) ++ st_Worklist st.
Proof.
  unfold visitInstruction. intros H.
  repeat match type of H with
         | (if ?c then None else _) = Some _ => destruct c; [discriminate|]
         end.
  match type of H with
  | match ?c with Some _ => _ | None => None end = _ =>
      destruct c as [[[RD FMF'] K']|]; [|discriminate]
  end.
  repeat match type of H with
         | (if ?c then None else _) = Some _ => destruct c; [discriminate|]
         end.
  match type of H with
  | match ?c with Some _ => _ | None => None end = _ =>
      destruct c as [us|] eqn:Hscan; [|discriminate]
  end.
  injection H as <-. simpl. by exists us.
Qed.

Lemma visitInstruction_measure Cur st st' :
  visit Cur st = Some st' ->
  length (st_Worklist st') + size (userUniverse F ∖ st_VisitedInsts st') =
  length (st_Worklist st) + size (userUniverse F ∖ st_VisitedInsts st).
Proof.
  intros (us & Hscan & _ & _ & -> & ->)%visitInstruction_scan.
  apply scanUsers_measure in Hscan; [|by intros; eapply users_in_universe].
  simpl in Hscan. rewrite !length_app, !length_rev. lia.
Qed.

Lemma reductionLoop_fuel fuel st :
  length (st_Worklist st) + size (userUniverse F ∖ st_VisitedInsts st) < fuel ->
  reductionLoop fuel st ≠ OutOfFuel.
Proof.
  revert st. induction fuel as [|fuel IH]; intros st Hm; [lia|]. simpl.
  destruct (st_Worklist st) as [|Cur W'] eqn:HW; [done|].
  destruct (visit Cur (withWorklist st W')) as [st'|] eqn:Hv;
    [|done].
  apply IH. apply visitInstruction_measure in Hv. simpl in *. lia.
Qed.

(** The loop and its history in terms of single steps. *)
Lemma reductionLoop_Done fuel st stf :
  reductionLoop fuel st = Done stf ->
  rtc reductionStep st stf /\ st_Worklist stf = [].
Proof.
  revert st. induction fuel as [|fuel IH]; intros st; simpl; [done|].
  destruct (st_Worklist st) as [|Cur W'] eqn:HW.
  - intros [= <-]. split; [constructor|done].
  - destruct (visit Cur (withWorklist st W')) as [st'|] eqn:Hv;
      [|done].
    intros [Hrtc Hnil]%IH. split; [|done].
    eapply rtc_l; [|done]. by exists Cur, W'.
Qed.

Lemma reductionTrace_steps fuel st stf Cur st' :
  reductionLoop fuel st = Done stf ->
  (Cur, st') ∈ reductionTrace fuel st ->
  exists s W',
    rtc reductionStep st s /\
    st_Worklist s = Cur :: W' /\
    visit Cur (withWorklist s W') = Some st' /\
    rtc reductionStep st' stf.
Proof.
  revert st. induction fuel as [|fuel IH]; intros st; simpl; [done|].
  destruct (st_Worklist st) as [|C W'] eqn:HW.
  - intros _ []%not_elem_of_nil.
  - destruct (visit C (withWorklist st W')) as [st1|] eqn:Hv;
      [|done].
    intros HD [[= -> ->]|Hin]%elem_of_cons.
    + exists st, W'. repeat split; try done.
      by apply reductionLoop_Done in HD as [? _].
    + destruct (IH _ HD Hin) as (s & W'' & Hrtc & ? & ? & ?).
      exists s, W''. repeat split; try done.
      eapply rtc_l; [|done]. by exists C, W'.
Qed.

(** Every visited instruction except the start (and a looked-through PHI)
    is in the history once the worklist is empty. *)
Lemma reductionStep_inv (P : ReductionState -> Prop) st stf :
  (forall s Cur W' s',
     P s -> st_Worklist s = Cur :: W' ->
     visit Cur (withWorklist s W') = Some s' -> P s') ->
  rtc reductionStep st stf -> P st -> P stf.
Proof.
  intros Hstep Hrtc. induction Hrtc as [|s1 s2 s3 (Cur & W' & HW & Hv) _ IH];
    [done|].
  intros HP. apply IH. by eapply Hstep.
Qed.

End ReductionLoopFacts.

(** ** [collectCastsToIgnore] terminates *)

Section CollectCasts.
Variable F : Function.
Variable TheLoop : Loop.
Variable RecurrenceType : Ty.

Lemma unvisitedSlots_insert (Visited : gset InstId) (Val : InstId)
    (ids : list InstId) :
  NoDup ids -> Val ∉ Visited ->
  unvisitedSlots F ({[Val]} ∪ Visited) ids +
    (if bool_decide (Val ∈ ids) then length (operands (inst F Val)) else 0) =
  unvisitedSlots F Visited ids.
Proof.
  intros Hnd Hnot. unfold unvisitedSlots.
  induction Hnd as [|x l Hx Hnd IH]; simpl; [done|].
  destruct (decide (x = Val)) as [->|Hne].
  - rewrite (bool_decide_eq_true_2 (Val ∈ {[Val]} ∪ Visited)) by set_solver.
    rewrite (bool_decide_eq_false_2 (Val ∈ Visited)) by done.
    rewrite (bool_decide_eq_true_2 (Val ∈ Val :: l)) by set_solver.
    rewrite (bool_decide_eq_false_2 (Val ∈ l)) in IH by done. lia.
  - assert (bool_decide (x ∈ {[Val]} ∪ Visited) = bool_decide (x ∈ Visited))
      as -> by (apply bool_decide_ext; set_solver).
    assert (bool_decide (Val ∈ x :: l) = bool_decide (Val ∈ l))
      as -> by (apply bool_decide_ext; set_solver).
    lia.
Qed.

Lemma slots_out_of_range (Val : InstId) :
  Val ∉ seq 0 (length (instructions F)) ->
  length (operands (inst F Val)) = 0.
Proof.
  intros Hnot. unfold inst.
  destruct (instructions F !! Val) eqn:Hlk; [|done].
  destruct Hnot. apply elem_of_seq. apply lookup_lt_Some in Hlk.
  split; [apply Nat.le_0_l|exact Hlk].
Qed.

Lemma unvisitedSlots_visit (Visited : gset InstId) (Val : InstId) :
  Val ∉ Visited ->
  unvisitedSlots F ({[Val]} ∪ Visited) (seq 0 (length (instructions F))) +
    length (operands (inst F Val)) =
  unvisitedSlots F Visited (seq 0 (length (instructions F))).
Proof.
  intros Hnot.
  rewrite <- (unvisitedSlots_insert Visited Val _ (NoDup_seq _ _) Hnot).
  case_bool_decide as Hin; [done|].
  by rewrite slots_out_of_range.
Qed.

Lemma length_operandInsts (Val : InstId) :
  length (operandInsts F Val) ≤ length (operands (inst F Val)).
Proof.
  unfold operandInsts. induction (operands (inst F Val)) as [|v l IH];
    simpl; [done|].
  destruct (asInst v); simpl; [by apply le_n_S|by apply le_S].
Qed.

Lemma elem_of_rev (x : InstId) (l : list InstId) : x ∈ rev l <-> x ∈ l.
Proof. rewrite rev_alt. apply elem_of_reverse. Qed.

Lemma castWorklistInvariant_pop Val Worklist Visited pushed :
  castWorklistInvariant F TheLoop RecurrenceType (Val :: Worklist) Visited ->
  (forall O, O ∈ pushed -> O ∉ {[Val]} ∪ Visited) ->
  (isCastFromRecurrenceType F RecurrenceType Val = false ->
   forall O, O ∈ operandInsts F Val -> contains F TheLoop O = true ->
             O ∈ {[Val]} ∪ Visited \/ O ∈ pushed) ->
  castWorklistInvariant F TheLoop RecurrenceType (rev pushed ++ Worklist)
    ({[Val]} ∪ Visited).
Proof.
  intros Hinv Hfresh Hops above V below O Heq HV Hexp HO Hin.
  apply app_eq_app in Heq as [l [[Hpre Heq]|[Hpre Heq]]].
  - destruct l as [|x l]; simpl in Heq.
    + rewrite app_nil_r in Hpre. subst above Worklist.
      apply elem_of_union in HV as [->%elem_of_singleton|HV].
      * destruct (Hops Hexp O HO Hin) as [?|?]; [by left|].
        right. by apply elem_of_rev.
      * destruct (Hinv [Val] V below O eq_refl HV Hexp HO Hin) as [?|Hab].
        -- left. set_solver.
        -- left. set_solver.
    + injection Heq as <- _.
      assert (V ∈ pushed) as HVp.
      { apply elem_of_rev. rewrite Hpre. set_solver. }
      by destruct (Hfresh _ HVp).
  - subst above Worklist.
    apply elem_of_union in HV as [->%elem_of_singleton|HV].
    + destruct (Hops Hexp O HO Hin) as [?|?]; [by left|].
      right. rewrite elem_of_app. left. by apply elem_of_rev.
    + destruct (Hinv (Val :: l) V below O eq_refl HV Hexp HO Hin) as [?|Hab].
      * left. set_solver.
      * apply elem_of_cons in Hab as [->|?]; [left; set_solver|].
        right. rewrite elem_of_app. by right.
Qed.

Lemma collectCastsToIgnore_loop_fuel fuel Worklist Visited Casts :
  castWorklistInvariant F TheLoop RecurrenceType Worklist Visited ->
  length Worklist +
    unvisitedSlots F Visited (seq 0 (length (instructions F))) < fuel ->
  exists Casts',
    collectCastsToIgnore_loop F TheLoop fuel RecurrenceType Worklist Visited
      Casts = Done Casts'.
Proof.
  revert Worklist Visited Casts.
  induction fuel as [|fuel IH]; intros W V Casts Hinv Hm; [lia|]. simpl.
  destruct W as [|Val W]; [by eexists|].
  assert (unvisitedSlots F ({[Val]} ∪ V) (seq 0 (length (instructions F))) +
            (if bool_decide (Val ∈ V) then 0
             else length (operands (inst F Val)))
          = unvisitedSlots F V (seq 0 (length (instructions F)))) as Hslots.
  { case_bool_decide as HV.
    - assert ({[Val]} ∪ V = V) as -> by set_solver. lia.
    - by apply unvisitedSlots_visit. }
  destruct (isCastFromRecurrenceType F RecurrenceType Val) eqn:Hcast.
  - apply IH.
    + apply (castWorklistInvariant_pop Val W V []) in Hinv;
        [done| |by rewrite Hcast].
      by intros ? ?%not_elem_of_nil.
    + simpl in Hm. lia.
  - set (pushed :=
           filter (fun I => contains F TheLoop I = true ∧ I ∉ {[Val]} ∪ V)
                  (operandInsts F Val)).
    apply IH.
    + apply castWorklistInvariant_pop; [done| |].
      * by intros O [[_ ?] _]%list_elem_of_filter.
      * intros _ O HO Hin.
        destruct (decide (O ∈ {[Val]} ∪ V)); [by left|].
        right. by apply list_elem_of_filter.
    + rewrite length_app, length_rev. simpl in Hm.
      assert (length pushed ≤
              if bool_decide (Val ∈ V) then 0
              else length (operands (inst F Val))) as Hp; [|lia].
      case_bool_decide as HV.
      * destruct pushed as [|O r] eqn:Hpushed; [done|].
        assert (O ∈ pushed) as HO by (rewrite Hpushed; set_solver).
        apply list_elem_of_filter in HO as [[Hin Hnot] HO].
        destruct (Hinv [] Val W O eq_refl HV Hcast HO Hin) as [?|Hab];
          [set_solver|by apply not_elem_of_nil in Hab].
      * etrans; [apply length_filter|]. apply length_operandInsts.
Qed.

Lemma unvisitedSlots_empty :
  unvisitedSlots F ∅ (seq 0 (length (instructions F))) = operandSlots F.
Proof.
  unfold unvisitedSlots, operandSlots.
  induction (seq 0 (length (instructions F))) as [|I l IH]; simpl; [done|].
  rewrite bool_decide_eq_false_2 by set_solver. by rewrite IH.
Qed.

Lemma collectCastsToIgnore_terminates Exit Casts :
  exists Casts',
    collectCastsToIgnore_loop F TheLoop (2 + operandSlots F) RecurrenceType
      [Exit] ∅ Casts = Done Casts' /\
    collectCastsToIgnore F TheLoop Exit RecurrenceType Casts = Casts'.
Proof.
  destruct (collectCastsToIgnore_loop_fuel (2 + operandSlots F) [Exit] ∅ Casts)
    as [Casts' HD].
  - intros above V below O _ HV. set_solver.
  - rewrite unvisitedSlots_empty. simpl. lia.
  - exists Casts'. split; [done|]. unfold collectCastsToIgnore. by rewrite HD.
Qed.

End CollectCasts.

(** ** What one iteration does to the kind, the counter and the exit *)

Section ReductionStepFacts.
Variable F : Function.
Variable TheLoop : Loop.
Variable Phi Start : InstId.
Variable FuncFMF : FastMathFlags.

Abbreviation visit := (visitInstruction F TheLoop Phi Start FuncFMF).
Abbreviation reductionLoop := (reductionLoop F TheLoop Phi Start FuncFMF).
Abbreviation reductionTrace := (reductionTrace F TheLoop Phi Start FuncFMF).
Abbreviation reductionStep := (reductionStep F TheLoop Phi Start FuncFMF).

Lemma visitInstruction_classified Cur st st' :
  visit Cur st = Some st' ->
  (if bool_decide (Cur ≠ Start)
   then classify F FuncFMF Cur (st_Kind st) (st_ReduxDesc st) (st_FMF st)
   else Some (st_ReduxDesc st, st_FMF st, st_Kind st)) =
    Some (st_ReduxDesc st', st_FMF st', st_Kind st') /\
  st_NumCmpSelectPatternInst st' =
    (if countsAsPattern F (st_Kind st') Cur
     then incr32 (st_NumCmpSelectPatternInst st)
     else st_NumCmpSelectPatternInst st) /\
  st_FoundReduxOp st' =
    st_FoundReduxOp st || (negb (isa_PHINode F Cur) && bool_decide (Cur ≠ Start)).
Proof.
  unfold visitInstruction. intros H.
  repeat match type of H with
         | (if ?c then None else _) = Some _ => destruct c; [discriminate|]
         end.
  match type of H with
  | match ?c with Some _ => _ | None => None end = _ =>
      destruct c as [[[RD FMF'] K']|]; [|discriminate]
  end.
  repeat match type of H with
         | (if ?c then None else _) = Some _ => destruct c; [discriminate|]
         end.
  match type of H with
  | match ?c with Some _ => _ | None => None end = _ =>
      destruct c as [us|] eqn:Hscan; [|discriminate]
  end.
  injection H as <-. simpl. split; [done|]. split; [|done].
  unfold countsAsPattern.
  destruct K'; simpl; try done;
    by destruct (isa_ICmpInst F Cur || isa_SelectInst F Cur),
               (isa_FCmpInst F Cur || isa_SelectInst F Cur).
Qed.

(** *** Kinds *)

Lemma isConditionalRdxPattern_RecKind Kind I :
  getRecKind (isConditionalRdxPattern F Kind I) = RecurKind.None.
Proof.
  unfold isConditionalRdxPattern.
  repeat match goal with
         | |- context [if ?c then _ else _] => destruct c; try done
         | |- context [match ?c with _ => _ end] => destruct c; try done
         end.
Qed.

Lemma isMinMaxSelectCmpPattern_RecKind I Prev :
  let R := isMinMaxSelectCmpPattern F I Prev in
  getRecKind R = RecurKind.None \/ getRecKind R = getRecKind Prev \/
  isMinMaxRecurrenceKind (getRecKind R) = true.
Proof.
  unfold isMinMaxSelectCmpPattern.
  repeat match goal with
         | |- context [if ?c then _ else _] => destruct c; simpl; auto
         | |- context [match ?c with _ => _ end] => destruct c; simpl; auto
         end.
Qed.

Lemma isRecurrenceInstr_RecKind I Kind Prev FMF :
  let R := isRecurrenceInstr F I Kind Prev FMF in
  getRecKind R = RecurKind.None \/ getRecKind R = getRecKind Prev \/
  (isMinMaxRecurrenceKind Kind = true /\
   isMinMaxRecurrenceKind (getRecKind R) = true).
Proof.
  assert (forall (c : bool) R0,
    (c = true -> isMinMaxRecurrenceKind Kind = true) ->
    R0 = (if c then isMinMaxSelectCmpPattern F I Prev
          else InstDesc_flag false (Some I) None) ->
    getRecKind R0 = RecurKind.None \/ getRecKind R0 = getRecKind Prev \/
    (isMinMaxRecurrenceKind Kind = true /\
     isMinMaxRecurrenceKind (getRecKind R0) = true)) as Hmm.
  { intros [] R0 Hc ->; [|by left].
    destruct (isMinMaxSelectCmpPattern_RecKind I Prev) as [?|[?|?]]; auto. }
  assert (isIntMinMaxRecurrenceKind Kind ||
          noNaNs FMF && noSignedZeros FMF && isFPMinMaxRecurrenceKind Kind
          = true -> isMinMaxRecurrenceKind Kind = true) as Hc.
  { unfold isMinMaxRecurrenceKind.
    destruct (isIntMinMaxRecurrenceKind Kind); [done|].
    simpl. by intros [_ ?]%andb_true_iff. }
  cbv zeta. unfold isRecurrenceInstr.
  destruct (opcode F I); simpl; auto; try (by eapply Hmm).
  destruct (bool_decide (Kind = RecurKind.FAdd) ||
            bool_decide (Kind = RecurKind.FMul)).
  - left. apply isConditionalRdxPattern_RecKind.
  - by eapply Hmm.
Qed.

Lemma classify_kind Cur Kind RD FMF RD' FMF' Kind' :
  classify F FuncFMF Cur Kind RD FMF = Some (RD', FMF', Kind') ->
  RD' = isRecurrenceInstr F Cur Kind RD FuncFMF /\
  isRecurrence RD' = true /\
  Kind' = (if bool_decide (getRecKind RD' ≠ RecurKind.None)
           then getRecKind RD' else Kind).
Proof.
  unfold classify.
  destruct (isRecurrence (isRecurrenceInstr F Cur Kind RD FuncFMF)) eqn:Hr;
    [|done].
  simpl. by intros [= <- _ <-].
Qed.

Lemma kindInvariant_step Kind0 Cur st st' :
  kindInvariant Kind0 st ->
  visit Cur st = Some st' ->
  kindInvariant Kind0 st'.
Proof.
  intros [Hrk HK] (Hc & _ & _)%visitInstruction_classified.
  case_bool_decide as Hne.
  - apply classify_kind in Hc as (HRD & _ & HK').
    pose proof (isRecurrenceInstr_RecKind Cur (st_Kind st) (st_ReduxDesc st)
                  FuncFMF) as Hcases.
    simpl in Hcases. rewrite <- HRD in Hcases.
    unfold kindInvariant. rewrite HK'.
    destruct (isMinMaxRecurrenceKind Kind0) eqn:HK0.
    + split.
      * destruct Hcases as [?|[->|[_ ?]]]; auto.
      * case_bool_decide as Hn; [|done].
        destruct Hcases as [?|[Heq|[_ ?]]]; [done| |done].
        rewrite Heq in Hn |- *. by destruct Hrk.
    + destruct HK as [HKe Hnone].
      assert (getRecKind (st_ReduxDesc st') = RecurKind.None) as Hn'.
      { destruct Hcases as [?|[->|[Hmm _]]]; [done|done|].
        rewrite HKe in Hmm. congruence. }
      split; [by left|]. rewrite Hn'. by case_bool_decide.
  - injection Hc as H1 _ H3. unfold kindInvariant in *.
    rewrite <- H1, <- H3. by split.
Qed.

Lemma kindInvariant_rtc Kind0 st stf :
  rtc reductionStep st stf -> kindInvariant Kind0 st -> kindInvariant Kind0 stf.
Proof.
  apply (reductionStep_inv F TheLoop Phi Start FuncFMF (kindInvariant Kind0)).
  intros s Cur W' s' HP _ Hv. eapply kindInvariant_step; [|done].
  exact HP.
Qed.


(** *** The exit instruction *)

Lemma scanUsers_exit Kind Cur Us us us' :
  scanUsers F TheLoop Phi Kind Cur Us us = Some us' ->
  (existsb (fun UI => negb (containsBlock TheLoop (parent F UI))) Us = true ->
   us_ExitInstruction us' = Some Cur) /\
  (us_ExitInstruction us' = us_ExitInstruction us \/
   (us_ExitInstruction us = None /\ us_ExitInstruction us' = Some Cur /\
    (Cur ≠ Phi) /\ VInst Cur ∈ operands (inst F Phi) /\
    existsb (fun UI => negb (containsBlock TheLoop (parent F UI))) Us = true)).
Proof.
  revert us. induction Us as [|UI Us IH]; intros us; simpl.
  - intros [= <-]. split; [done|by left].
  - destruct (scanUser F TheLoop Phi Kind Cur UI us) as [us1|] eqn:H1; [|done].
    intros [IH1 IH2]%IH.
    apply scanUser_cases in H1
      as [(Hout & _ & _ & _ & _ & He1 & Hprev)|(Hin & He1 & _)].
    + rewrite Hout. simpl.
      assert (us_ExitInstruction us' = Some Cur) as He'.
      { destruct IH2 as [->|(Hn & _)]; congruence. }
      split; [done|].
      destruct Hprev as [->|(Hn & Hne & Hop)]; [by left|].
      right. by rewrite Hn.
    + rewrite Hin. simpl. rewrite <- He1. by split.
Qed.

Lemma visitInstruction_exit Cur st st' :
  visit Cur st = Some st' ->
  (hasOutsideUser F TheLoop Cur = true -> st_ExitInstruction st' = Some Cur) /\
  (st_ExitInstruction st' = st_ExitInstruction st \/
   (st_ExitInstruction st = None /\ st_ExitInstruction st' = Some Cur /\
    (Cur ≠ Phi) /\ VInst Cur ∈ operands (inst F Phi) /\
    hasOutsideUser F TheLoop Cur = true)).
Proof.
  intros (us & Hscan & -> & _)%visitInstruction_scan.
  by apply scanUsers_exit in Hscan.
Qed.

Lemma exitInvariant_step Cur st st' :
  exitInvariant F TheLoop Phi st ->
  visit Cur st = Some st' ->
  exitInvariant F TheLoop Phi st'.
Proof.
  intros Hinv [_ [Heq|(Hn & He & ? & ? & ?)]]%visitInstruction_exit Exit.
  - rewrite Heq. apply Hinv.
  - rewrite He. by intros [= <-].
Qed.

Lemma exit_stays_step Exit Cur st st' :
  st_ExitInstruction st = Some Exit ->
  visit Cur st = Some st' ->
  st_ExitInstruction st' = Some Exit.
Proof.
  intros He [_ [Heq|(Hn & _)]]%visitInstruction_exit; congruence.
Qed.

Lemma exitInvariant_rtc st stf :
  rtc reductionStep st stf ->
  exitInvariant F TheLoop Phi st -> exitInvariant F TheLoop Phi stf.
Proof.
  apply (reductionStep_inv F TheLoop Phi Start FuncFMF
           (exitInvariant F TheLoop Phi)).
  intros s Cur W' s' HP _ Hv. eapply exitInvariant_step; [|done].
  exact HP.
Qed.

Lemma exit_stays_rtc Exit st stf :
  rtc reductionStep st stf ->
  st_ExitInstruction st = Some Exit -> st_ExitInstruction stf = Some Exit.
Proof.
  apply (reductionStep_inv F TheLoop Phi Start FuncFMF
           (fun s => st_ExitInstruction s = Some Exit)).
  intros s Cur W' s' HP _ Hv. eapply exit_stays_step; [|done].
  exact HP.
Qed.

Lemma exit_in_trace fuel st stf Exit :
  reductionLoop fuel st = Done stf ->
  st_ExitInstruction stf = Some Exit ->
  st_ExitInstruction st = Some Exit \/
  Exit ∈ (fst <$> reductionTrace fuel st).
Proof.
  revert st. induction fuel as [|fuel IH]; intros st; simpl; [done|].
  destruct (st_Worklist st) as [|Cur W'] eqn:HW.
  - intros [= <-]. by left.
  - destruct (visit Cur (withWorklist st W')) as [st1|] eqn:Hv;
      [|done].
    intros HD He. destruct (IH _ HD He) as [H1|Hin].
    + apply visitInstruction_exit in Hv as [_ [Heq|(_ & He1 & _)]].
      * left. simpl in Heq. by rewrite <- Heq, H1.
      * right. rewrite fmap_cons. simpl. rewrite He1 in H1.
        injection H1 as ->. set_solver.
    + right. rewrite fmap_cons. set_solver.
Qed.

(** *** The counter of min/max pattern instructions *)

Lemma incr32_range n : (0 <= incr32 n < 2 ^ 32)%Z.
Proof. unfold incr32. apply Z.mod_pos_bound. lia. Qed.

Lemma countedPatternInsts_cons Cur st' tr :
  countedPatternInsts F ((Cur, st') :: tr) =
  ((if countsAsPattern F (st_Kind st') Cur then 1 else 0) +
   countedPatternInsts F tr)%Z.
Proof.
  unfold countedPatternInsts. simpl.
  destruct (countsAsPattern F (st_Kind st') Cur); simpl length; lia.
Qed.

Lemma reductionLoop_counter fuel st stf :
  reductionLoop fuel st = Done stf ->
  (0 <= st_NumCmpSelectPatternInst st < 2 ^ 32)%Z ->
  st_NumCmpSelectPatternInst stf =
  ((st_NumCmpSelectPatternInst st +
    countedPatternInsts F (reductionTrace fuel st)) mod 2 ^ 32)%Z.
Proof.
  revert st. induction fuel as [|fuel IH]; intros st; simpl; [done|].
  destruct (st_Worklist st) as [|Cur W'] eqn:HW.
  - intros [= <-] Hr. unfold countedPatternInsts. simpl.
    rewrite Z.add_0_r, Z.mod_small; lia.
  - destruct (visit Cur (withWorklist st W')) as [st1|] eqn:Hv;
      [|done].
    intros HD Hr. rewrite countedPatternInsts_cons.
    apply visitInstruction_classified in Hv as (_ & Hn & _). simpl in Hn.
    rewrite (IH _ HD); rewrite Hn.
    + destruct (countsAsPattern F (st_Kind st1) Cur).
      * unfold incr32. rewrite Z.add_mod_idemp_l by lia. f_equal. lia.
      * f_equal.
    + destruct (countsAsPattern F (st_Kind st1) Cur);
        [apply incr32_range|done].
Qed.

End ReductionStepFacts.

(** ** Inversion of a successful match *)

Section AddReductionVarFacts.
Variable F : Function.
Variable TheLoop : Loop.
Variable An : Analyses.

Lemma runReductionLoop_terminates Phi Kind FuncFMF Start VisitedInsts :
  runReductionLoop F TheLoop Phi Kind FuncFMF Start VisitedInsts ≠ OutOfFuel.
Proof.
  apply reductionLoop_fuel. unfold reductionFuel, initialState. simpl.
  assert (size (userUniverse F ∖ ({[Start]} ∪ VisitedInsts))
          ≤ size (userUniverse F)) by (apply subseteq_size; set_solver).
  lia.
Qed.

Lemma AddReductionVar_inv Phi Kind FuncFMF RedDes :
  AddReductionVar F TheLoop An Phi Kind FuncFMF = Some RedDes ->
  exists Start RecurrenceType VisitedInsts CastInsts stf,
    getNumIncomingValues F Phi = 2 /\
    parent F Phi = getHeader TheLoop /\
    reductionStart F Phi Kind =
      Some (Start, RecurrenceType, VisitedInsts, CastInsts) /\
    runReductionLoop F TheLoop Phi Kind FuncFMF Start VisitedInsts =
      Done stf /\
    finishReduction F TheLoop An Phi Start
      (getIncomingValueForBlock F Phi (getLoopPreheader TheLoop))
      RecurrenceType CastInsts stf = Some RedDes.
Proof.
  unfold AddReductionVar.
  case_bool_decide as H1; [done|]. case_bool_decide as H2; [done|].
  destruct (reductionStart F Phi Kind) as [[[[S RT] V0] CI]|]; [|done].
  destruct (runReductionLoop F TheLoop Phi Kind FuncFMF S V0) as [stf| |]
    eqn:HL; [|done|done].
  intros Hfin. exists S, RT, V0, CI, stf.
  repeat split; try done.
Qed.

Lemma finishReduction_inv Phi Start RdxStart RecurrenceType CastInsts stf
    RedDes :
  finishReduction F TheLoop An Phi Start RdxStart RecurrenceType CastInsts stf
    = Some RedDes ->
  (isMinMaxRecurrenceKind (st_Kind stf) = true ->
   st_NumCmpSelectPatternInst stf = 2%Z) /\
  st_FoundStartPHI stf = true /\ st_FoundReduxOp stf = true /\
  st_ExitInstruction stf = Some (RecurrenceDescriptor.LoopExitInstr RedDes) /\
  RecurrenceDescriptor.Kind RedDes = st_Kind stf /\
  RecurrenceDescriptor.ExactFPMathInst RedDes =
    getExactFPMathInst (st_ReduxDesc stf) /\
  RecurrenceDescriptor.IsOrdered RedDes =
    checkOrderedReduction F (st_Kind stf)
      (getExactFPMathInst (st_ReduxDesc stf))
      (RecurrenceDescriptor.LoopExitInstr RedDes) Phi /\
  RecurrenceDescriptor.RecurrenceType RedDes = RecurrenceType /\
  (Start ≠ Phi ->
   computeRecurrenceType F An (RecurrenceDescriptor.LoopExitInstr RedDes) =
     (RecurrenceType, RecurrenceDescriptor.IsSigned RedDes)).
Proof.
  unfold finishReduction.
  destruct (isMinMaxRecurrenceKind (st_Kind stf) &&
            bool_decide (st_NumCmpSelectPatternInst stf ≠ 2%Z)) eqn:Hmm;
    [done|].
  destruct (negb (st_FoundStartPHI stf) || negb (st_FoundReduxOp stf)) eqn:Hf;
    [done|].
  apply orb_false_iff in Hf as [Hf1%negb_false_iff Hf2%negb_false_iff].
  destruct (st_ExitInstruction stf) as [Exit|]; [|done].
  assert (isMinMaxRecurrenceKind (st_Kind stf) = true ->
          st_NumCmpSelectPatternInst stf = 2%Z) as Hcount.
  { intros Hk. rewrite Hk in Hmm. simpl in Hmm.
    apply bool_decide_eq_false in Hmm.
    by destruct (decide (st_NumCmpSelectPatternInst stf = 2%Z)). }
  clear Hmm. case_bool_decide as Hne.
  - destruct (computeRecurrenceType F An Exit) as [CT IsS] eqn:HCT.
    case_bool_decide as Hty; [done|].
    intros [= <-]. simpl. repeat split; try done.
    intros _. rewrite HCT. f_equal.
    by destruct (decide (CT = RecurrenceType)).
  - intros [= <-]. simpl. repeat split; try done.
Qed.

End AddReductionVarFacts.

(** ** Properties of the reduction matcher *)

Section ReductionProperties.
Variable F : Function.
Variable TheLoop : Loop.
Variable An : Analyses.

Lemma initialState_kindInvariant Kind Start VisitedInsts :
  kindInvariant Kind (initialState Kind Start VisitedInsts).
Proof.
  unfold kindInvariant, initialState. simpl. split; [by left|].
  by destruct (isMinMaxRecurrenceKind Kind) eqn:HK.
Qed.

Lemma runReductionLoop_kindInvariant Phi Kind FuncFMF Start VisitedInsts stf :
  runReductionLoop F TheLoop Phi Kind FuncFMF Start VisitedInsts = Done stf ->
  kindInvariant Kind stf.
Proof.
  intros [Hrtc _]%reductionLoop_Done.
  eapply kindInvariant_rtc; [done|]. apply initialState_kindInvariant.
Qed.

Lemma runReductionTrace_start Phi Kind FuncFMF Start VisitedInsts stf :
  runReductionLoop F TheLoop Phi Kind FuncFMF Start VisitedInsts = Done stf ->
  exists st1,
    (Start, st1) ∈ runReductionTrace F TheLoop Phi Kind FuncFMF Start
                     VisitedInsts.
Proof.
  unfold runReductionLoop, runReductionTrace, reductionFuel. simpl.
  destruct (visitInstruction F TheLoop Phi Start FuncFMF Start _) as [st1|];
    [|done].
  intros _. exists st1. set_solver.
Qed.

Lemma lookThroughAnd_start Phi RT Visited CI Start RT' Visited' CI' :
  lookThroughAnd F Phi RT Visited CI = (Start, RT', Visited', CI') ->
  Start ≠ Phi ->
  users (inst F Phi) = [Start].
Proof.
  unfold lookThroughAnd, hasOneUse, user_begin. intros H Hne.
  destruct (users (inst F Phi)) as [|J [|K r]]; simpl in H;
    repeat case_match; simplify_eq; done.
Qed.

Lemma reductionStart_lookThrough Phi Kind Start RecurrenceType VisitedInsts
    CastInsts :
  reductionStart F Phi Kind =
    Some (Start, RecurrenceType, VisitedInsts, CastInsts) ->
  Start ≠ Phi ->
  users (inst F Phi) = [Start].
Proof.
  unfold reductionStart. intros H Hne.
  repeat match type of H with
         | (if ?c then _ else _) = Some _ => destruct c eqn:?
         end; simplify_eq; try done.
  by eapply lookThroughAnd_start.
Qed.

(** C2: the worklist loop of the matcher always comes to an end.  The first
    visited instruction with a user outside the loop becomes the exit
    instruction and stays it; a successful match has such an exit
    instruction, it is the only visited instruction with an outside user,
    it is not the merge node, and it is an operand of the merge node.  The
    merge node itself is visited unless the matcher looked through a
    masking AND, which then is its only user. *)
Theorem reduction_exit_instruction_unique Phi Kind FuncFMF :
  (forall Start VisitedInsts,
     runReductionLoop F TheLoop Phi Kind FuncFMF Start VisitedInsts
       ≠ OutOfFuel) /\
  forall RedDes,
    AddReductionVar F TheLoop An Phi Kind FuncFMF = Some RedDes ->
    let Exit := RecurrenceDescriptor.LoopExitInstr RedDes in
    exists Start RecurrenceType VisitedInsts CastInsts stf,
      reductionStart F Phi Kind =
        Some (Start, RecurrenceType, VisitedInsts, CastInsts) /\
      runReductionLoop F TheLoop Phi Kind FuncFMF Start VisitedInsts =
        Done stf /\
      let history :=
        runReductionTrace F TheLoop Phi Kind FuncFMF Start VisitedInsts in
      st_ExitInstruction stf = Some Exit /\
      Exit ∈ (fst <$> history) /\
      hasOutsideUser F TheLoop Exit = true /\
      (forall Cur st',
         (Cur, st') ∈ history ->
         hasOutsideUser F TheLoop Cur = true ->
         st_ExitInstruction st' = Some Cur /\ Cur = Exit) /\
      (Exit ≠ Phi) /\
      VInst Exit ∈ operands (inst F Phi) /\
      (Start = Phi -> hasOutsideUser F TheLoop Phi = false) /\
      (Start ≠ Phi -> users (inst F Phi) = [Start]).
Proof.
  split; [intros; apply runReductionLoop_terminates|].
  intros RedDes
    (Start & RT & V0 & CI & stf & _ & _ & Hstart & Hloop & Hfin)
    %AddReductionVar_inv Exit.
  apply finishReduction_inv in Hfin as (_ & _ & _ & Hexit & _).
  fold Exit in Hexit.
  exists Start, RT, V0, CI, stf. split; [done|]. split; [done|].
  intros history.
  pose proof Hloop as [Hrtc _]%reductionLoop_Done.
  assert (exitInvariant F TheLoop Phi stf) as Hinv.
  { eapply exitInvariant_rtc; [done|]. by intros e. }
  destruct (Hinv _ Hexit) as (Hne & Hop & Hout).
  assert (forall Cur st',
            (Cur, st') ∈ history ->
            hasOutsideUser F TheLoop Cur = true ->
            st_ExitInstruction st' = Some Cur /\ Cur = Exit) as Huniq.
  { intros Cur st' Hin HoutC.
    destruct (reductionTrace_steps _ _ _ _ _ _ _ _ _ _ Hloop Hin)
      as (s & W' & _ & _ & Hv & Hrest).
    apply visitInstruction_exit in Hv as [Hset _].
    specialize (Hset HoutC). split; [done|].
    eapply exit_stays_rtc in Hrest; [|done]. congruence. }
  split; [done|]. split.
  { destruct (exit_in_trace _ _ _ _ _ _ _ _ _ Hloop Hexit) as [Hinit|Hin];
      [done|exact Hin]. }
  split; [done|]. split; [exact Huniq|]. split; [done|]. split; [done|].
  split; [|by eapply reductionStart_lookThrough].
  intros ->. destruct (hasOutsideUser F TheLoop Phi) eqn:HoutP; [|done].
  destruct (runReductionTrace_start _ _ _ _ _ _ Hloop) as [st1 Hin].
  destruct (Huniq _ _ Hin HoutP) as [_ Heq]. by destruct Hne.
Qed.

(** C3: a successful match sets the ordered flag exactly when the candidate
    kind is FAdd, the exit instruction is an FAdd, it is the recorded
    exact-fp-math instruction, and the merge node is one of its two
    operands. *)
Theorem ordered_flag_iff Phi Kind FuncFMF RedDes :
  AddReductionVar F TheLoop An Phi Kind FuncFMF = Some RedDes ->
  let Exit := RecurrenceDescriptor.LoopExitInstr RedDes in
  RecurrenceDescriptor.IsOrdered RedDes = true <->
  Kind = RecurKind.FAdd /\
  opcode F Exit = Opcode.FAdd /\
  RecurrenceDescriptor.ExactFPMathInst RedDes = Some Exit /\
  (getOperand F Exit 0 = Some (VInst Phi) \/
   getOperand F Exit 1 = Some (VInst Phi)).
Proof.
  intros (Start & RT & V0 & CI & stf & _ & _ & Hstart & Hloop & Hfin)
    %AddReductionVar_inv Exit.
  apply finishReduction_inv in Hfin
    as (_ & _ & _ & _ & _ & Hexact & Hord & _).
  fold Exit in Hord. rewrite Hord, Hexact.
  apply runReductionLoop_kindInvariant in Hloop as [_ HK].
  assert (st_Kind stf = RecurKind.FAdd <-> Kind = RecurKind.FAdd) as HKiff.
  { destruct (isMinMaxRecurrenceKind Kind) eqn:Hmm.
    - split; intros Heq; rewrite Heq in *; done.
    - destruct HK as [-> _]. done. }
  unfold checkOrderedReduction.
  repeat case_bool_decide; simpl; naive_solver.
Qed.

(** C5: under a min/max candidate kind every running kind is a min/max
    kind, the counter is the number of visited compare and select pattern
    instructions, and a successful match has counted exactly two. *)
Theorem minmax_pattern_count_two Phi Kind FuncFMF RedDes :
  isMinMaxRecurrenceKind Kind = true ->
  AddReductionVar F TheLoop An Phi Kind FuncFMF = Some RedDes ->
  exists Start RecurrenceType VisitedInsts CastInsts stf,
    reductionStart F Phi Kind =
      Some (Start, RecurrenceType, VisitedInsts, CastInsts) /\
    runReductionLoop F TheLoop Phi Kind FuncFMF Start VisitedInsts =
      Done stf /\
    let history :=
      runReductionTrace F TheLoop Phi Kind FuncFMF Start VisitedInsts in
    (forall Cur st',
       (Cur, st') ∈ history -> isMinMaxRecurrenceKind (st_Kind st') = true) /\
    st_NumCmpSelectPatternInst stf =
      (countedPatternInsts F history mod 2 ^ 32)%Z /\
    st_NumCmpSelectPatternInst stf = 2%Z.
Proof.
  intros Hmm (Start & RT & V0 & CI & stf & _ & _ & Hstart & Hloop & Hfin)
    %AddReductionVar_inv.
  apply finishReduction_inv in Hfin as (Hcount & _).
  exists Start, RT, V0, CI, stf. split; [done|]. split; [done|].
  intros history. repeat split.
  - intros Cur st' Hin.
    destruct (reductionTrace_steps _ _ _ _ _ _ _ _ _ _ Hloop Hin)
      as (s & W' & Hrtc & HW & Hv & _).
    assert (kindInvariant Kind st') as [_ HK].
    { eapply kindInvariant_step; [|exact Hv].
      eapply (kindInvariant_rtc F TheLoop Phi Start FuncFMF Kind) in Hrtc;
        [|apply initialState_kindInvariant].
      exact Hrtc. }
    by rewrite Hmm in HK.
  - apply reductionLoop_counter in Hloop; [|simpl; lia].
    simpl in Hloop. by rewrite Z.add_0_l in Hloop.
  - apply Hcount.
    apply runReductionLoop_kindInvariant in Hloop as [_ HK].
    by rewrite Hmm in HK.
Qed.


(** *** Floating-point min/max needs the fast-math conditions *)

Lemma isRecurrenceInstr_fpminmax_noflags I Kind Prev FMF :
  isFPMinMaxRecurrenceKind Kind = true ->
  noNaNs FMF && noSignedZeros FMF = false ->
  isRecurrence (isRecurrenceInstr F I Kind Prev FMF) = true ->
  opcode F I = Opcode.PHI.
Proof.
  intros HK Hflags. unfold isRecurrenceInstr. rewrite Hflags.
  destruct Kind; try discriminate HK; simpl;
    destruct (opcode F I); simpl; done.
Qed.

Lemma fpminmax_noflags_step Phi Start FuncFMF Kind Cur st st' :
  isFPMinMaxRecurrenceKind Kind = true ->
  noNaNs FuncFMF && noSignedZeros FuncFMF = false ->
  st_Kind st = Kind /\
  getRecKind (st_ReduxDesc st) = RecurKind.None /\
  st_FoundReduxOp st = false ->
  visitInstruction F TheLoop Phi Start FuncFMF Cur st = Some st' ->
  st_Kind st' = Kind /\
  getRecKind (st_ReduxDesc st') = RecurKind.None /\
  st_FoundReduxOp st' = false.
Proof.
  intros HK Hflags (HKe & Hrk & Hfound)
    (Hc & _ & Hf)%visitInstruction_classified.
  rewrite Hf, Hfound. simpl.
  case_bool_decide as Hne; simpl.
  - apply classify_kind in Hc as (HRD & Hrec & HK').
    rewrite HRD, HKe in Hrec.
    pose proof (isRecurrenceInstr_fpminmax_noflags _ _ _ _ HK Hflags Hrec)
      as Hphi.
    assert (getRecKind (st_ReduxDesc st') = RecurKind.None) as Hn.
    { rewrite HRD. unfold isRecurrenceInstr. by rewrite Hphi. }
    rewrite HK', Hn. unfold isa_PHINode. rewrite Hphi.
    repeat case_bool_decide; done.
  - injection Hc as H1 _ H3. rewrite <- H1, <- H3.
    by rewrite andb_false_r.
Qed.

Lemma fpminmax_candidate_fails Phi Kind FuncFMF :
  isFPMinMaxRecurrenceKind Kind = true ->
  noNaNs FuncFMF && noSignedZeros FuncFMF = false ->
  AddReductionVar F TheLoop An Phi Kind FuncFMF = None.
Proof.
  intros HK Hflags.
  destruct (AddReductionVar F TheLoop An Phi Kind FuncFMF) as [RedDes|] eqn:HA;
    [|done].
  apply AddReductionVar_inv in HA
    as (Start & RT & V0 & CI & stf & _ & _ & _ & Hloop & Hfin).
  apply finishReduction_inv in Hfin as (_ & _ & Hfound & _).
  apply reductionLoop_Done in Hloop as [Hrtc _].
  eapply (reductionStep_inv F TheLoop Phi Start FuncFMF
            (fun s => st_Kind s = Kind /\
                      getRecKind (st_ReduxDesc s) = RecurKind.None /\
                      st_FoundReduxOp s = false)) in Hrtc
    as (_ & _ & Hnot); [congruence| |done].
  intros s Cur W' s' HP _ Hv.
  eapply fpminmax_noflags_step; [done|done| |exact Hv]. exact HP.
Qed.

Lemma AddReductionVar_kind_not_minmax Phi Kind FuncFMF RedDes :
  isMinMaxRecurrenceKind Kind = false ->
  AddReductionVar F TheLoop An Phi Kind FuncFMF = Some RedDes ->
  RecurrenceDescriptor.Kind RedDes = Kind.
Proof.
  intros Hmm (Start & RT & V0 & CI & stf & _ & _ & _ & Hloop & Hfin)
    %AddReductionVar_inv.
  apply finishReduction_inv in Hfin as (_ & _ & _ & _ & -> & _).
  apply runReductionLoop_kindInvariant in Hloop as [_ HK].
  rewrite Hmm in HK. by destruct HK.
Qed.

Lemma AddReductionVar_fp_type Phi Kind FuncFMF RedDes :
  isFloatingPointTy (getType (inst F Phi)) = true ->
  AddReductionVar F TheLoop An Phi Kind FuncFMF = Some RedDes ->
  isFloatingPointRecurrenceKind Kind = true.
Proof.
  intros Hty (Start & RT & V0 & CI & stf & _ & _ & Hstart & _)
    %AddReductionVar_inv.
  unfold reductionStart in Hstart. rewrite Hty in Hstart.
  by destruct (isFloatingPointRecurrenceKind Kind).
Qed.

(** C9: under a floating-point min/max kind an FCmp or Select is accepted
    only with both the no-NaNs and the no-signed-zeros condition;
    [isReductionPHI] takes the two conditions from the function attributes
    "no-nans-fp-math" and "no-signed-zeros-fp-math"; when either attribute
    is absent the candidates FMax and FMin fail, and the prober reports no
    FMin or FMax reduction for a floating-point merge node. *)
Theorem fp_minmax_needs_function_attributes Phi :
  (forall I Kind Prev FMF,
     isFPMinMaxRecurrenceKind Kind = true ->
     opcode F I = Opcode.FCmp \/ opcode F I = Opcode.Select ->
     isRecurrence (isRecurrenceInstr F I Kind Prev FMF) = true ->
     noNaNs FMF = true /\ noSignedZeros FMF = true) /\
  (noNaNs (functionFMF F) = getFnAttributeAsBool F "no-nans-fp-math" /\
   noSignedZeros (functionFMF F) =
     getFnAttributeAsBool F "no-signed-zeros-fp-math" /\
   isReductionPHI F TheLoop An Phi =
     firstMatch (fun K => AddReductionVar F TheLoop An Phi K (functionFMF F))
                reductionKindOrder) /\
  (getFnAttributeAsBool F "no-nans-fp-math" = false \/
   getFnAttributeAsBool F "no-signed-zeros-fp-math" = false ->
   AddReductionVar F TheLoop An Phi RecurKind.FMax (functionFMF F) = None /\
   AddReductionVar F TheLoop An Phi RecurKind.FMin (functionFMF F) = None /\
   forall RedDes,
     isFloatingPointTy (getType (inst F Phi)) = true ->
     isReductionPHI F TheLoop An Phi = Some RedDes ->
     isFPMinMaxRecurrenceKind (RecurrenceDescriptor.Kind RedDes) = false).
Proof.
  split; [|split].
  - intros I Kind Prev FMF HK Hop Hrec.
    destruct (noNaNs FMF && noSignedZeros FMF) eqn:Hflags.
    + by apply andb_true_iff in Hflags.
    + pose proof (isRecurrenceInstr_fpminmax_noflags _ _ _ _ HK Hflags Hrec).
      destruct Hop; congruence.
  - split; [done|]. split; [done|]. apply isReductionPHI_firstMatch.
  - intros Habsent.
    assert (noNaNs (functionFMF F) && noSignedZeros (functionFMF F) = false)
      as Hflags.
    { simpl. destruct Habsent as [-> | ->]; [done|apply andb_false_r]. }
    split; [by apply fpminmax_candidate_fails|].
    split; [by apply fpminmax_candidate_fails|].
    intros RedDes Hty. rewrite isReductionPHI_firstMatch.
    intros (earlier & K & later & _ & _ & HK)%firstMatch_Some.
    destruct (isFPMinMaxRecurrenceKind K) eqn:Hfp.
    + by rewrite fpminmax_candidate_fails in HK.
    + destruct (isMinMaxRecurrenceKind K) eqn:Hmm.
      * apply AddReductionVar_fp_type in HK; [|done].
        by destruct K.
      * by rewrite (AddReductionVar_kind_not_minmax _ _ _ _ Hmm HK).
Qed.

End ReductionProperties.

(** *** Witnesses on the example loops *)

Lemma reduction_exit_instruction_unique_witness :
  AddReductionVar sumLoop loop1 noAnalyses 0 RecurKind.Add FMF_none =
    Some sumLoopDescriptor /\
  hasOutsideUser sumLoop loop1 1 = true /\
  VInst 1 ∈ operands (inst sumLoop 0) /\
  hasOutsideUser sumLoop loop1 0 = false.
Proof.
  assert (AddReductionVar sumLoop loop1 noAnalyses 0 RecurKind.Add FMF_none =
            Some sumLoopDescriptor) as H by (vm_compute; reflexivity).
  split; [exact H|].
  destruct (proj2 (reduction_exit_instruction_unique sumLoop loop1
                     noAnalyses 0 RecurKind.Add FMF_none) sumLoopDescriptor H)
    as (Start & RT & V0 & CI & stf & Hstart & _ & _ & _ & Hout & _ & _ &
        Hop & HPhi & _).
  split; [exact Hout|]. split; [exact Hop|].
  apply HPhi. vm_compute in Hstart. congruence.
Defined.

Lemma ordered_flag_iff_witness :
  AddReductionVar strictFAddLoop loop1 noAnalyses 0 RecurKind.FAdd FMF_none =
    Some strictFAddDescriptor /\
  opcode strictFAddLoop 1 = Opcode.FAdd /\
  RecurrenceDescriptor.ExactFPMathInst strictFAddDescriptor = Some 1.
Proof.
  assert (AddReductionVar strictFAddLoop loop1 noAnalyses 0 RecurKind.FAdd
            FMF_none = Some strictFAddDescriptor) as H
    by (vm_compute; reflexivity).
  split; [exact H|].
  destruct (proj1 (ordered_flag_iff strictFAddLoop loop1 noAnalyses 0
                     RecurKind.FAdd FMF_none strictFAddDescriptor H)
              eq_refl) as (_ & Hop & Hex & _).
  split; [exact Hop|exact Hex].
Defined.

Lemma minmax_pattern_count_two_witness :
  AddReductionVar sminLoop loop1 noAnalyses 0 RecurKind.SMin FMF_none =
    Some sminLoopDescriptor /\
  countedPatternInsts sminLoop
    (runReductionTrace sminLoop loop1 0 RecurKind.SMin FMF_none 0 ∅) = 2%Z.
Proof.
  assert (AddReductionVar sminLoop loop1 noAnalyses 0 RecurKind.SMin FMF_none
          = Some sminLoopDescriptor) as H by (vm_compute; reflexivity).
  split; [exact H|].
  destruct (minmax_pattern_count_two sminLoop loop1 noAnalyses 0
              RecurKind.SMin FMF_none sminLoopDescriptor eq_refl H)
    as (Start & RT & V0 & CI & stf & Hstart & _ & _ & _ & _).
  vm_compute. reflexivity.
Defined.

Lemma fp_minmax_needs_function_attributes_witness :
  getFnAttributeAsBool fmaxLoopNoNsz "no-signed-zeros-fp-math" = false /\
  AddReductionVar fmaxLoopNoNsz loop1 noAnalyses 0 RecurKind.FMax
    (functionFMF fmaxLoopNoNsz) = None /\
  isReductionPHI fmaxLoopNoNsz loop1 noAnalyses 0 = None /\
  (RecurrenceDescriptor.Kind <$> isReductionPHI fmaxLoopFast loop1 noAnalyses 0)
    = Some RecurKind.FMax.
Proof.
  split; [reflexivity|].
  destruct (fp_minmax_needs_function_attributes fmaxLoopNoNsz loop1
              noAnalyses 0) as (_ & _ & Habsent).
  destruct (Habsent (or_intror eq_refl)) as (Hmax & _ & _).
  split; [exact Hmax|]. split; vm_compute; reflexivity.
Defined.

(** ** Looking through a masking AND *)

Lemma exactLogBase2_mask (w n : Z) :
  (0 < n < w)%Z -> exactLogBase2 ((2 ^ n - 1 + 1) mod 2 ^ w) = n.
Proof.
  intros Hn. replace (2 ^ n - 1 + 1)%Z with (2 ^ n)%Z by lia.
  assert (0 < 2 ^ n < 2 ^ w)%Z as Hlt.
  { split; [apply Z.pow_pos_nonneg; lia|].
    apply Z.pow_lt_mono_r; lia. }
  rewrite Z.mod_small by lia.
  unfold exactLogBase2, isPowerOf2_64.
  replace (2 ^ n - 1)%Z with (Z.ones n)
    by (rewrite Z.ones_equiv; lia).
  rewrite Z.land_ones, Z.mod_same by lia.
  destruct (0 <? 2 ^ n)%Z eqn:Hpos; [|lia]. simpl.
  apply Z.log2_pow2. lia.
Qed.

Section LookThroughAnd.
Variable F : Function.
Variable TheLoop : Loop.
Variable An : Analyses.

Lemma lookThroughAnd_mask Phi RT Visited CI J X w n :
  users (inst F Phi) = [J] ->
  opcode F J = Opcode.And ->
  operands (inst F J) = [VInst X; VConstInt w (2 ^ n - 1)] \/
  operands (inst F J) = [VConstInt w (2 ^ n - 1); VInst X] ->
  (0 < n < w)%Z ->
  lookThroughAnd F Phi RT Visited CI =
    (J, IntegerTy n, {[Phi]} ∪ Visited, {[J]} ∪ CI).
Proof.
  intros Hus Hop Hops Hn. unfold lookThroughAnd, hasOneUse, user_begin.
  rewrite Hus. simpl. rewrite Hop. simpl.
  unfold getOperand.
  destruct Hops as [-> | ->]; simpl;
    rewrite (exactLogBase2_mask w n Hn);
    by destruct (0 <? n)%Z eqn:Hpos; [|lia].
Qed.

(** C4 (amended): for the kinds Add and Mul on an integer merge node whose
    single use is an AND with the constant mask [2^n - 1], where [n] is at
    least 1 and less than the bit width of the mask, the AND is the start of
    the chain and the working type is the integer type of [n] bits; a
    successful match has recomputed exactly that type from the exit
    instruction, and the match fails when the recomputed type differs. *)
Theorem lookThroughAnd_narrowing Phi Kind FuncFMF J X w n :
  Kind = RecurKind.Add \/ Kind = RecurKind.Mul ->
  opcode F Phi = Opcode.PHI ->
  isIntegerTy (getType (inst F Phi)) = true ->
  users (inst F Phi) = [J] ->
  opcode F J = Opcode.And ->
  operands (inst F J) = [VInst X; VConstInt w (2 ^ n - 1)] \/
  operands (inst F J) = [VConstInt w (2 ^ n - 1); VInst X] ->
  (0 < n < w)%Z ->
  reductionStart F Phi Kind =
    Some (J, IntegerTy n, {[Phi]} ∪ ∅, {[J]} ∪ ∅) /\
  (forall RedDes,
     AddReductionVar F TheLoop An Phi Kind FuncFMF = Some RedDes ->
     RecurrenceDescriptor.RecurrenceType RedDes = IntegerTy n /\
     computeRecurrenceType F An (RecurrenceDescriptor.LoopExitInstr RedDes) =
       (IntegerTy n, RecurrenceDescriptor.IsSigned RedDes)) /\
  (forall stf Exit,
     runReductionLoop F TheLoop Phi Kind FuncFMF J ({[Phi]} ∪ ∅) = Done stf ->
     st_ExitInstruction stf = Some Exit ->
     fst (computeRecurrenceType F An Exit) ≠ IntegerTy n ->
     AddReductionVar F TheLoop An Phi Kind FuncFMF = None).
Proof.
  intros HK HPhi Hty Hus Hop Hops Hn.
  assert (reductionStart F Phi Kind =
            Some (J, IntegerTy n, {[Phi]} ∪ ∅, {[J]} ∪ ∅)) as Hstart.
  { unfold reductionStart.
    destruct (getType (inst F Phi)) eqn:HT; try discriminate Hty. simpl.
    rewrite (lookThroughAnd_mask Phi _ ∅ ∅ J X w n Hus Hop Hops Hn).
    by destruct HK as [-> | ->]. }
  assert (J ≠ Phi) as HJ by (intros ->; congruence).
  assert (forall RedDes,
     AddReductionVar F TheLoop An Phi Kind FuncFMF = Some RedDes ->
     exists stf,
       runReductionLoop F TheLoop Phi Kind FuncFMF J ({[Phi]} ∪ ∅) = Done stf /\
       st_ExitInstruction stf =
         Some (RecurrenceDescriptor.LoopExitInstr RedDes) /\
       RecurrenceDescriptor.RecurrenceType RedDes = IntegerTy n /\
       computeRecurrenceType F An (RecurrenceDescriptor.LoopExitInstr RedDes)
         = (IntegerTy n, RecurrenceDescriptor.IsSigned RedDes)) as Hinv.
  { intros RedDes (S & RT & V0 & CI & stf & _ & _ & HS & Hloop & Hfin)
      %AddReductionVar_inv.
    rewrite Hstart in HS. injection HS as <- <- <- <-.
    apply finishReduction_inv in Hfin
      as (_ & _ & _ & Hexit & _ & _ & _ & HRT & Hcomp).
    exists stf. by rewrite (Hcomp HJ). }
  split; [exact Hstart|]. split.
  - intros RedDes (stf & _ & _ & HRT & Hcomp)%Hinv. by split.
  - intros stf Exit Hloop Hexit Hdiff.
    destruct (AddReductionVar F TheLoop An Phi Kind FuncFMF) as [RedDes|]
      eqn:HA; [|done].
    destruct (Hinv _ eq_refl) as (stf' & Hloop' & Hexit' & _ & Hcomp).
    rewrite Hloop in Hloop'. injection Hloop' as <-.
    rewrite Hexit in Hexit'. injection Hexit' as ->.
    rewrite Hcomp in Hdiff. by destruct Hdiff.
Qed.

End LookThroughAnd.

Lemma lookThroughAnd_narrowing_witness :
  reductionStart (maskedSumLoop 255) 0 RecurKind.Add =
    Some (1, IntegerTy 8, {[0]} ∪ ∅, {[1]} ∪ ∅) /\
  AddReductionVar (maskedSumLoop 255) loop1 (demandedLow 8) 0 RecurKind.Add
    FMF_none = Some maskedSumDescriptor /\
  computeRecurrenceType (maskedSumLoop 255) (demandedLow 8) 2 =
    (IntegerTy 8, false) /\
  AddReductionVar (maskedSumLoop 255) loop1 (demandedLow 16) 0 RecurKind.Add
    FMF_none = None.
Proof.
  assert (0 < 8 < 32)%Z as Hn by lia.
  destruct (lookThroughAnd_narrowing (maskedSumLoop 255) loop1 (demandedLow 8)
              0 RecurKind.Add FMF_none 1 0 32 8 (or_introl eq_refl) eq_refl
              eq_refl eq_refl eq_refl (or_introl eq_refl) Hn)
    as (Hstart & Hok & _).
  split; [exact Hstart|].
  assert (AddReductionVar (maskedSumLoop 255) loop1 (demandedLow 8) 0
            RecurKind.Add FMF_none = Some maskedSumDescriptor) as H
    by (vm_compute; reflexivity).
  split; [exact H|]. split; [exact (proj2 (Hok _ H))|].
  vm_compute. reflexivity.
Defined.

(** C4, as stated, fails on an all-ones mask: [255 = 2^8 - 1] on [i8] is of
    the form [2^n - 1], the AND is the single use of the merge node, and
    the matcher keeps the merge node as the start of the chain. *)
Lemma lookThroughAnd_all_ones_counterexample :
  ~ (forall F Phi Kind J X w n,
       Kind = RecurKind.Add \/ Kind = RecurKind.Mul ->
       opcode F Phi = Opcode.PHI ->
       isIntegerTy (getType (inst F Phi)) = true ->
       users (inst F Phi) = [J] ->
       opcode F J = Opcode.And ->
       operands (inst F J) = [VInst X; VConstInt w (2 ^ n - 1)] \/
       operands (inst F J) = [VConstInt w (2 ^ n - 1); VInst X] ->
       reductionStart F Phi Kind =
         Some (J, IntegerTy n, {[Phi]} ∪ ∅, {[J]} ∪ ∅)).
Proof.
  intros Hall.
  specialize (Hall maskedSumLoop8 0 RecurKind.Add 1 0 8%Z 8%Z
                (or_introl eq_refl) eq_refl eq_refl eq_refl eq_refl
                (or_introl eq_refl)).
  vm_compute in Hall. discriminate Hall.
Qed.

(** ** The recorded exact-fp-math instruction *)

(** C6 (code defect): the recorded exact-fp-math instruction is not the
    first floating-point instruction without the reassociation flag.  In
    [mixedFAddLoop] the strict [%a] is visited first and recorded, and
    classifying the fast [%b] clears the record, so the descriptor reports
    no exact-fp-math instruction at all; in [twoStrictFAddLoop] the later
    strict [%b] replaces the recorded [%a]. *)
Theorem exactFPMathInst_replaced_by_later_instruction :
  let recorded F :=
    map (fun p => (fst p, getExactFPMathInst (st_ReduxDesc (snd p))))
        (runReductionTrace F loop1 0 RecurKind.FAdd FMF_none 0 ∅) in
  hasAllowReassoc mixedFAddLoop 1 = false /\
  hasAllowReassoc mixedFAddLoop 2 = true /\
  recorded mixedFAddLoop = [(0, None); (1, Some 1); (2, None)] /\
  (RecurrenceDescriptor.ExactFPMathInst <$>
     AddReductionVar mixedFAddLoop loop1 noAnalyses 0 RecurKind.FAdd FMF_none)
    = Some None /\
  hasAllowReassoc twoStrictFAddLoop 1 = false /\
  recorded twoStrictFAddLoop = [(0, None); (1, Some 1); (2, Some 2)] /\
  (RecurrenceDescriptor.ExactFPMathInst <$>
     AddReductionVar twoStrictFAddLoop loop1 noAnalyses 0 RecurKind.FAdd
       FMF_none) = Some (Some 2).
Proof. vm_compute. repeat split. Qed.

(** On its own, [isRecurrenceInstr] never looks at the instruction recorded
    before, except for a PHI. *)
Lemma isRecurrenceInstr_ignores_recorded F I Kind Prev FMF E :
  opcode F I ≠ Opcode.PHI ->
  getExactFPMathInst
    (isRecurrenceInstr F I Kind
       (mkInstDesc (isRecurrence Prev) (getPatternInst Prev)
          (getRecKind Prev) E) FMF) =
  getExactFPMathInst (isRecurrenceInstr F I Kind Prev FMF).
Proof.
  intros Hphi. unfold isRecurrenceInstr, isMinMaxSelectCmpPattern.
  destruct (opcode F I); try done; simpl;
    repeat match goal with
           | |- context [if ?c then _ else _] => destruct c; simpl; try done
           | |- context [match ?c with _ => _ end] =>
               destruct c; simpl; try done
           end.
Qed.

(** ** Identity constants *)

Lemma all_ones_word (bits : Z) :
  (0 < bits <= 64)%Z -> ((2 ^ 64 - 1) mod 2 ^ bits = 2 ^ bits - 1)%Z.
Proof.
  intros Hb.
  assert (2 ^ 64 = 2 ^ (64 - bits) * 2 ^ bits)%Z as Hpow.
  { rewrite <- Z.pow_add_r by lia. f_equal. lia. }
  assert (0 < 2 ^ bits)%Z by (apply Z.pow_pos_nonneg; lia).
  assert (0 < 2 ^ (64 - bits))%Z by (apply Z.pow_pos_nonneg; lia).
  symmetry. apply Z.mod_unique with (q := (2 ^ (64 - bits) - 1)%Z); [lia|].
  rewrite Hpow. lia.
Qed.

(** For the integer kinds on types of at most 64 bits the returned constant
    is neutral. *)
Lemma getRecurrenceIdentity_integer_neutral K bits x FMF :
  isIntegerRecurrenceKind K = true ->
  (0 < bits <= 64)%Z -> (0 <= x < 2 ^ bits)%Z ->
  exists c,
    getRecurrenceIdentity K (IntegerTy bits) FMF = Some (ConstantInt bits c) /\
    combineInt K bits c x = x.
Proof.
  intros HK Hb Hx.
  assert (2 ^ bits = 2 * 2 ^ (bits - 1))%Z as Hpow.
  { rewrite <- Z.pow_succ_r by lia. f_equal. lia. }
  assert (0 < 2 ^ (bits - 1))%Z by (apply Z.pow_pos_nonneg; lia).
  assert (APInt_of_word bits (-1) true = 2 ^ bits - 1)%Z as Hones1.
  { unfold APInt_of_word. destruct (bits <=? 64)%Z eqn:Hle; [|lia].
    change ((-1) mod two64)%Z with (2 ^ 64 - 1)%Z. by apply all_ones_word. }
  assert (APInt_of_word bits (-1) false = 2 ^ bits - 1)%Z as Hones2.
  { unfold APInt_of_word. destruct (bits <=? 64)%Z eqn:Hle; [|lia].
    change ((-1) mod two64)%Z with (2 ^ 64 - 1)%Z. by apply all_ones_word. }
  assert (APInt_of_word bits 0 false = 0)%Z as Hzero.
  { unfold APInt_of_word. destruct (bits <=? 64)%Z eqn:Hle; [|lia].
    change (0 mod two64)%Z with 0%Z. apply Z.mod_0_l. lia. }
  assert (APInt_of_word bits 1 false = 1)%Z as Hone.
  { unfold APInt_of_word. destruct (bits <=? 64)%Z eqn:Hle; [|lia].
    change (1 mod two64)%Z with 1%Z. apply Z.mod_small. lia. }
  destruct K; try discriminate HK; simpl; eexists; (split; [reflexivity|]);
    rewrite ?Hones1, ?Hones2, ?Hzero, ?Hone; simpl.
  - rewrite Z.mod_small; lia.
  - rewrite Z.mod_small; lia.
  - apply Z.lor_0_l.
  - replace (2 ^ bits - 1)%Z with (Z.ones bits)
      by (rewrite Z.ones_equiv; lia).
    rewrite Z.land_comm, Z.land_ones by lia. apply Z.mod_small. lia.
  - apply Z.lxor_0_l.
  - unfold getSignedMaxValue, toSigned.
    repeat match goal with
           | |- context [(?a <? ?b)%Z] => destruct (Z.ltb_spec a b)
           | H : context [(?a <? ?b)%Z] |- _ => destruct (Z.ltb_spec a b)
           end; lia.
  - unfold getSignedMinValue, toSigned.
    repeat match goal with
           | |- context [(?a <? ?b)%Z] => destruct (Z.ltb_spec a b)
           | H : context [(?a <? ?b)%Z] |- _ => destruct (Z.ltb_spec a b)
           end; lia.
  - lia.
  - lia.
Qed.

Lemma neg_infinity_not_one : PrimFloat.neg_infinity ≠ PrimFloat.one.
Proof.
  intros H.
  assert (PrimFloat.ltb PrimFloat.neg_infinity PrimFloat.zero =
          PrimFloat.ltb PrimFloat.one PrimFloat.zero) as Hc by (by rewrite H).
  vm_compute in Hc. discriminate Hc.
Qed.

(** C10 (code defect): for FMin the function returns negative infinity and
    for FMax positive infinity, which are absorbing and not neutral for the
    minimum and the maximum; for UMin on a type wider than 64 bits it
    returns [2^64 - 1] and not the all-ones value. *)
Theorem getRecurrenceIdentity_not_neutral :
  getRecurrenceIdentity RecurKind.FMin FloatTy FMF_none =
    Some (ConstantFP FloatTy (FPInfinity true)) /\
  fminSelect (FPValue_to_float (FPInfinity true)) PrimFloat.one =
    PrimFloat.neg_infinity /\
  fminSelect (FPValue_to_float (FPInfinity true)) PrimFloat.one ≠
    PrimFloat.one /\
  getRecurrenceIdentity RecurKind.FMax FloatTy FMF_none =
    Some (ConstantFP FloatTy (FPInfinity false)) /\
  fmaxSelect (FPValue_to_float (FPInfinity false)) PrimFloat.one =
    PrimFloat.infinity /\
  getRecurrenceIdentity RecurKind.UMin (IntegerTy 128) FMF_none =
    Some (ConstantInt 128 (2 ^ 64 - 1)) /\
  combineInt RecurKind.UMin 128 (2 ^ 64 - 1) (2 ^ 100) = (2 ^ 64 - 1)%Z /\
  getRecurrenceIdentity RecurKind.And (IntegerTy 128) FMF_none =
    Some (ConstantInt 128 (2 ^ 128 - 1)).
Proof.
  split; [reflexivity|]. split; [vm_compute; reflexivity|].
  split.
  { replace (fminSelect _ _) with PrimFloat.neg_infinity
      by (vm_compute; reflexivity).
    apply neg_infinity_not_one. }
  repeat split; vm_compute; reflexivity.
Qed.

(** ** The first-order-recurrence sinker *)

Lemma set_insert_elem (I J : InstId) (S : list InstId) :
  J ∈ set_insert I S <-> J = I \/ J ∈ S.
Proof.
  induction S as [|K S IH]; simpl.
  - set_solver.
  - unfold comesBefore.
    destruct (I <? K) eqn:H1; [set_solver|].
    destruct (K <? I) eqn:H2.
    + rewrite elem_of_cons, IH. set_solver.
    + apply Nat.ltb_ge in H1, H2. assert (I = K) as -> by lia. set_solver.
Qed.

Lemma set_insert_ordered (I : InstId) (S : list InstId) :
  programOrdered S -> programOrdered (set_insert I S).
Proof.
  unfold programOrdered.
  induction 1 as [|K S HS IH HK]; simpl.
  - repeat constructor.
  - unfold comesBefore in *.
    destruct (I <? K) eqn:H1.
    + constructor; [by constructor|].
      constructor; [done|].
      eapply Forall_impl; [exact HK|]. simpl. intros x Hx.
      apply Nat.ltb_lt in H1, Hx. apply Nat.ltb_lt. lia.
    + destruct (K <? I) eqn:H2; [|by constructor].
      constructor; [done|].
      apply Forall_forall. intros x [->|Hx]%set_insert_elem; [done|].
      rewrite Forall_forall in HK. by apply HK.
Qed.

Lemma set_find_elem (I : InstId) (S : list InstId) :
  programOrdered S -> I ∈ S -> set_find I S = true.
Proof.
  unfold programOrdered.
  induction 1 as [|K S HS IH HK]; simpl.
  - by intros ?%not_elem_of_nil.
  - unfold comesBefore in *. rewrite Forall_forall in HK.
    intros [->|Hin]%elem_of_cons.
    + by rewrite Nat.ltb_irrefl.
    + specialize (HK _ Hin). rewrite HK.
      apply Nat.ltb_lt in HK.
      destruct (I <? K) eqn:H1; [apply Nat.ltb_lt in H1; lia|]. by apply IH.
Qed.

Lemma programOrdered_NoDup (S : list InstId) : programOrdered S -> NoDup S.
Proof.
  unfold programOrdered.
  induction 1 as [|K S HS IH HK]; [constructor|].
  apply NoDup_cons. split; [|done].
  rewrite Forall_forall in HK. intros Hin. specialize (HK _ Hin).
  unfold comesBefore in HK. apply Nat.ltb_lt in HK. lia.
Qed.

Lemma mv_set_fresh (M : MapVector) (K V : InstId) :
  mv_find M K = None -> mv_set M K V = M ++ [(K, V)].
Proof.
  unfold mv_find. induction M as [|[K' V'] M IH]; simpl; [done|].
  destruct (Nat.eqb K' K); [done|]. intros H. by rewrite IH.
Qed.

Lemma mv_find_app_fresh (M : MapVector) (J K V : InstId) :
  mv_find M J = None -> J ≠ K -> mv_find (M ++ [(K, V)]) J = None.
Proof.
  unfold mv_find. intros HM Hne.
  induction M as [|[K' V'] M IH]; simpl in *.
  - destruct (Nat.eqb K J) eqn:He; [|done].
    apply Nat.eqb_eq in He. congruence.
  - destruct (Nat.eqb K' J); [done|]. by apply IH.
Qed.

Lemma commitSinks_fresh (InstrsToSink : list InstId) (M : MapVector)
    (Previous : InstId) :
  NoDup InstrsToSink ->
  (forall Inst, Inst ∈ InstrsToSink -> mv_find M Inst = None) ->
  commitSinks InstrsToSink M Previous = M ++ sinkChain Previous InstrsToSink.
Proof.
  revert M Previous.
  induction InstrsToSink as [|Inst r IH]; intros M Previous Hnd Hfresh; simpl.
  - by rewrite app_nil_r.
  - apply NoDup_cons in Hnd as [Hnot Hnd].
    rewrite mv_set_fresh by (apply Hfresh; set_solver).
    rewrite IH; [by rewrite <- app_assoc|done|].
    intros J HJ. apply mv_find_app_fresh; [apply Hfresh; set_solver|].
    intros ->. done.
Qed.

#[local] Arguments TryToPushSinkCandidate : simpl never.

Section SinkerFacts.
Variable F : Function.
Variable TheLoop : Loop.
Variable dominates : InstId -> InstId -> bool.
Variable SinkAfter : MapVector.
Variable PhiBB : BlockId.
Variable Previous : InstId.

Abbreviation TryToPush :=
  (TryToPushSinkCandidate F dominates SinkAfter PhiBB Previous).
Abbreviation pushUsers := (pushUsers F dominates SinkAfter PhiBB Previous).
Abbreviation sinkLoop := (sinkLoop F dominates SinkAfter PhiBB Previous).
Abbreviation sinkInvariant := (sinkInvariant F SinkAfter PhiBB).

Lemma TryToPush_cases C InstrsToSink WorkList st' :
  TryToPush C (InstrsToSink, WorkList) = Some st' ->
  st' = (InstrsToSink, WorkList) \/
  (st' = (set_insert C InstrsToSink, C :: WorkList) /\
   parent F C = PhiBB /\ set_find C InstrsToSink = false /\
   mv_find SinkAfter C = None).
Proof.
  unfold TryToPushSinkCandidate.
  destruct (decide (parent F C = PhiBB)) as [HP|HP].
  - rewrite (bool_decide_eq_true_2 _ HP).
    rewrite (bool_decide_eq_false_2 (parent F C ≠ PhiBB)) by (by intros ?).
    simpl.
    destruct (set_find C InstrsToSink) eqn:Hfind; [intros [= <-]; by left|].
    destruct (bool_decide (Previous = C)); [done|].
    destruct (dominates Previous C); [intros [= <-]; by left|].
    destruct (mayHaveSideEffects (inst F C) || mayReadFromMemory (inst F C) ||
              isTerminator F C); [done|].
    destruct (mv_find SinkAfter C) eqn:Hsa.
    + by rewrite bool_decide_eq_true_2.
    + rewrite bool_decide_eq_false_2 by (by intros ?).
      destruct (isa_PHINode F C); intros [= <-]; [by left|by right].
  - rewrite (bool_decide_eq_false_2 _ HP).
    rewrite (bool_decide_eq_true_2 (parent F C ≠ PhiBB)) by done.
    simpl.
    destruct (bool_decide (Previous = C)); [done|].
    destruct (dominates Previous C); [intros [= <-]; by left|done].
Qed.

Lemma TryToPush_invariant C InstrsToSink WorkList st' :
  TryToPush C (InstrsToSink, WorkList) = Some st' ->
  C ∈ userUniverse F ->
  sinkInvariant InstrsToSink ->
  sinkInvariant (fst st') /\
  length (snd st') + size (userUniverse F ∖ list_to_set (fst st')) =
  length WorkList + size (userUniverse F ∖ list_to_set InstrsToSink).
Proof.
  intros [->|(-> & HP & Hfind & Hsa)]%TryToPush_cases HU [Hord Hin];
    [done|]. simpl.
  assert (C ∉ InstrsToSink) as Hnot.
  { intros HC. by rewrite (set_find_elem _ _ Hord HC) in Hfind. }
  split.
  - split; [by apply set_insert_ordered|].
    intros Inst [->|HI]%set_insert_elem; [done|by apply Hin].
  - assert (list_to_set (set_insert C InstrsToSink) =@{gset InstId}
            {[C]} ∪ list_to_set InstrsToSink) as ->.
    { apply set_eq. intros x.
      rewrite elem_of_list_to_set, set_insert_elem. set_solver. }
    rewrite <- (size_difference_insert (userUniverse F)
                  (list_to_set InstrsToSink) C HU); [lia|].
    by rewrite elem_of_list_to_set.
Qed.

Lemma pushUsers_invariant Us st st' :
  pushUsers Us st = Some st' ->
  (forall U, U ∈ Us -> U ∈ userUniverse F) ->
  sinkInvariant (fst st) ->
  sinkInvariant (fst st') /\
  length (snd st') + size (userUniverse F ∖ list_to_set (fst st')) =
  length (snd st) + size (userUniverse F ∖ list_to_set (fst st)).
Proof.
  revert st. induction Us as [|U Us IH]; intros [Is W]; simpl.
  - by intros [= <-].
  - destruct (TryToPush U (Is, W)) as [st1|] eqn:H1; [|done].
    intros H2 HU Hinv.
    apply TryToPush_invariant in H1 as [Hinv1 Hm1];
      [|apply HU; set_solver|done].
    destruct (IH _ H2) as [Hinv2 Hm2];
      [intros; apply HU; set_solver|done|].
    split; [done|]. simpl in *. lia.
Qed.

Lemma sinkLoop_fuel fuel st :
  sinkInvariant (fst st) ->
  length (snd st) + size (userUniverse F ∖ list_to_set (fst st)) < fuel ->
  sinkLoop fuel st ≠ OutOfFuel.
Proof.
  revert st. induction fuel as [|fuel IH]; intros [Is W] Hinv Hm; [lia|].
  simpl in *. destruct W as [|Current W']; [done|].
  destruct (pushUsers (users (inst F Current)) (Is, W')) as [st'|] eqn:Hp;
    [|done].
  apply pushUsers_invariant in Hp as [Hinv' Hm'];
    [|by intros; eapply users_in_universe|done].
  apply IH; [done|]. simpl in *. lia.
Qed.

Lemma sinkLoop_Done fuel st InstrsToSink :
  sinkLoop fuel st = Done InstrsToSink ->
  sinkInvariant (fst st) -> sinkInvariant InstrsToSink.
Proof.
  revert st. induction fuel as [|fuel IH]; intros [Is W]; simpl; [done|].
  destruct W as [|Current W']; [by intros [= <-]|].
  destruct (pushUsers (users (inst F Current)) (Is, W')) as [st'|] eqn:Hp;
    [|done].
  intros HD Hinv. apply (IH _ HD).
  by apply pushUsers_invariant in Hp as [Hinv' _];
    [|by intros; eapply users_in_universe|done].
Qed.

End SinkerFacts.

(** C7: a call that returns no match leaves [SinkAfter] as it was; a call
    that succeeds appends the tentatively sunk instructions in program
    order, the first placed after the latch-supplied value and each next
    one after the one before it; a candidate that is neither sunk already
    nor dominated by the latch value and that lies outside the block of the
    merge node, has side effects, reads memory or is a terminator is
    rejected; and the worklist loop always comes to an end. *)
Theorem first_order_recurrence_atomic F TheLoop dominates SinkAfter Phi :
  let R := isFirstOrderRecurrence F TheLoop dominates SinkAfter Phi in
  (fst R = false -> snd R = SinkAfter) /\
  (fst R = true ->
   exists Previous InstrsToSink,
     firstOrderPrevious F TheLoop SinkAfter Phi = Some Previous /\
     getIncomingValueForBlock F Phi (getLoopLatch TheLoop) =
       Some (VInst Previous) /\
     sinkLoop F dominates SinkAfter (parent F Phi) Previous (sinkFuel F)
       ([], [Phi]) = Done InstrsToSink /\
     programOrdered InstrsToSink /\
     (forall Inst, Inst ∈ InstrsToSink ->
        parent F Inst = parent F Phi /\ mv_find SinkAfter Inst = None) /\
     snd R = SinkAfter ++ sinkChain Previous InstrsToSink) /\
  (forall Previous SinkCandidate InstrsToSink WorkList,
     set_find SinkCandidate InstrsToSink = false ->
     dominates Previous SinkCandidate = false ->
     parent F SinkCandidate ≠ parent F Phi \/
     mayHaveSideEffects (inst F SinkCandidate) = true \/
     mayReadFromMemory (inst F SinkCandidate) = true \/
     isTerminator F SinkCandidate = true ->
     TryToPushSinkCandidate F dominates SinkAfter (parent F Phi) Previous
       SinkCandidate (InstrsToSink, WorkList) = None) /\
  (forall Previous,
     sinkLoop F dominates SinkAfter (parent F Phi) Previous (sinkFuel F)
       ([], [Phi]) ≠ OutOfFuel).
Proof.
  intros R. subst R. unfold isFirstOrderRecurrence.
  assert (sinkInvariant F SinkAfter (parent F Phi) []) as Hinit.
  { split; [constructor|]. by intros ? ?%not_elem_of_nil. }
  split; [|split; [|split]].
  - destruct (firstOrderPrevious F TheLoop SinkAfter Phi) as [Previous|];
      [|done].
    by destruct (sinkLoop F dominates SinkAfter (parent F Phi) Previous
                   (sinkFuel F) ([], [Phi])).
  - destruct (firstOrderPrevious F TheLoop SinkAfter Phi) as [Previous|]
      eqn:HPrev; [|done].
    destruct (sinkLoop F dominates SinkAfter (parent F Phi) Previous
                (sinkFuel F) ([], [Phi])) as [InstrsToSink| |] eqn:HL;
      [|done|done].
    intros _. exists Previous, InstrsToSink.
    pose proof (sinkLoop_Done _ _ _ _ _ _ _ _ HL Hinit) as [Hord Hin].
    split; [done|]. split.
    { unfold firstOrderPrevious in HPrev.
      repeat match type of HPrev with
             | (if ?c then None else _) = Some _ =>
                 destruct c; [discriminate|]
             | match ?c with _ => _ end = Some _ =>
                 destruct c; try discriminate
             end.
      by injection HPrev as <-. }
    split; [done|]. split; [done|]. split; [done|].
    simpl. apply commitSinks_fresh; [by apply programOrdered_NoDup|].
    intros Inst HI. by apply Hin.
  - intros Previous C Is W Hfind Hdom Hrej.
    unfold TryToPushSinkCandidate. rewrite Hfind, andb_false_r, Hdom.
    case_bool_decide; [done|].
    destruct Hrej as [Hp|[-> | [-> | ->]]];
      rewrite ?orb_true_r; try done.
    by rewrite bool_decide_eq_true_2.
  - intros Previous. apply sinkLoop_fuel; [done|].
    unfold sinkFuel. simpl.
    assert (size (userUniverse F ∖ (∅ : gset InstId)) ≤ size (userUniverse F))
      by (apply subseteq_size; set_solver).
    lia.
Qed.

Lemma first_order_recurrence_atomic_witness :
  isFirstOrderRecurrence lagLoopWithLoad loop1 blockOrderDominates [(7, 8)] 0
    = (false, [(7, 8)]) /\
  isFirstOrderRecurrence lagLoop loop1 blockOrderDominates [(7, 8)] 0
    = (true, [(7, 8); (1, 3); (2, 1)]).
Proof.
  destruct (first_order_recurrence_atomic lagLoopWithLoad loop1
              blockOrderDominates [(7, 8)] 0) as (Hfail & _).
  destruct (first_order_recurrence_atomic lagLoop loop1
              blockOrderDominates [(7, 8)] 0) as (_ & Hok & _).
  split.
  - apply injective_projections; [reflexivity|].
    apply Hfail. reflexivity.
  - destruct (Hok eq_refl) as (P & Is & _ & _ & _ & _ & _ & _).
    vm_compute. reflexivity.
Defined.

(** ** Pointer inductions *)

Lemma toSigned_range (bits x : Z) :
  (0 < bits)%Z -> (0 <= x < 2 ^ bits)%Z ->
  (- 2 ^ (bits - 1) <= toSigned bits x < 2 ^ (bits - 1))%Z.
Proof.
  intros Hb Hx. unfold toSigned.
  assert (2 ^ bits = 2 * 2 ^ (bits - 1))%Z as Hpow.
  { rewrite <- Z.pow_succ_r by lia. f_equal. lia. }
  destruct (x <? 2 ^ (bits - 1))%Z eqn:Hlt; lia.
Qed.

Lemma toSigned_mod (bits q : Z) :
  (0 < bits)%Z -> (- 2 ^ (bits - 1) <= q < 2 ^ (bits - 1))%Z ->
  toSigned bits (q mod 2 ^ bits) = q.
Proof.
  intros Hb Hq. unfold toSigned.
  assert (2 ^ bits = 2 * 2 ^ (bits - 1))%Z as Hpow.
  { rewrite <- Z.pow_succ_r by lia. f_equal. lia. }
  assert (0 < 2 ^ (bits - 1))%Z by (apply Z.pow_pos_nonneg; lia).
  destruct (Z.neg_nonneg_cases q) as [Hneg|Hpos].
  - replace (q mod 2 ^ bits)%Z with (q + 2 ^ bits)%Z.
    + destruct (q + 2 ^ bits <? 2 ^ (bits - 1))%Z eqn:Hlt; lia.
    + apply Z.mod_unique with (q := (-1)%Z); lia.
  - rewrite Z.mod_small by lia.
    destruct (q <? 2 ^ (bits - 1))%Z eqn:Hlt; lia.
Qed.

(** C8: a pointer-typed merge node is classified only when the step of its
    recurrence is a constant, the pointee type is sized with a non-zero
    storage size, and the byte value of the step is an exact multiple of
    that size; the step of the descriptor is then the quotient, the element
    stride. *)
Theorem pointer_induction_step F SE Phi TheLoop Expr CastsToIgnore D elem :
  getType (inst F Phi) = PointerTy elem ->
  isInductionPHI F SE Phi TheLoop Expr CastsToIgnore = Some D ->
  exists start bits CV,
    (match Expr with Some E => E | None => getSCEV SE Phi end) =
      SCEVAddRecExpr start (SCEVConstant bits CV) TheLoop /\
    isSized elem = true /\
    let Size := toInt64 (getTypeAllocSize SE elem) in
    let CVSize := getSExtValue bits CV in
    Size ≠ 0%Z /\
    Z.rem CVSize Size = 0%Z /\
    CVSize = (Z.quot CVSize Size * Size)%Z /\
    ID_IK D = IK_PtrInduction /\
    ID_Step D = SCEVConstant bits (Z.quot CVSize Size mod 2 ^ bits) /\
    ((0 < Size)%Z -> (0 < bits)%Z -> (0 <= CV < 2 ^ bits)%Z ->
     getSExtValue bits (Z.quot CVSize Size mod 2 ^ bits) =
       Z.quot CVSize Size).
Proof.
  intros Hty. unfold isInductionPHI. rewrite Hty. simpl.
  destruct (match Expr with Some E => E | None => getSCEV SE Phi end)
    as [| |start Step ARLoop|] eqn:HE; try done.
  case_bool_decide as HL; [done|].
  assert (ARLoop = TheLoop) as -> by (by destruct (decide (ARLoop = TheLoop))).
  destruct (getLoopLatch TheLoop) as [Latch|]; [|done].
  destruct Step as [bits CV| | |];
    try (by destruct (_ && _)).
  rewrite bool_decide_eq_false_2 by done. simpl.
  destruct (isSized elem) eqn:Hsized; [|done]. simpl.
  destruct (toInt64 (getTypeAllocSize SE elem) =? 0)%Z eqn:Hsz; [done|].
  apply Z.eqb_neq in Hsz.
  destruct (Z.rem (getSExtValue bits CV) (toInt64 (getTypeAllocSize SE elem))
            =? 0)%Z eqn:Hrem; [|done].
  apply Z.eqb_eq in Hrem. simpl. intros [= <-].
  exists start, bits, CV. split; [done|]. split; [done|].
  cbv zeta.
  set (Size := toInt64 (getTypeAllocSize SE elem)) in *.
  set (CVSize := getSExtValue bits CV) in *.
  assert (CVSize = (Z.quot CVSize Size * Size)%Z) as Hexact.
  { pose proof (Z.quot_rem' CVSize Size) as Hqr.
    rewrite Hrem in Hqr. lia. }
  repeat split; try done.
  intros HS Hb HCV. unfold getSExtValue.
  apply toSigned_mod; [done|].
  pose proof (toSigned_range bits CV Hb HCV) as Hr.
  change (toSigned bits CV) with CVSize in Hr.
  set (q := Z.quot CVSize Size) in *. nia.
Qed.

Lemma pointer_induction_step_witness :
  isInductionPHI ptrLoop (ptrSE 8) 0 loop1 None None =
    Some (mkInductionDescriptor (Some (VOther (PointerTy i32) 0))
            IK_PtrInduction (SCEVConstant 64 2) None []) /\
  Z.rem (getSExtValue 64 8) (toInt64 (getTypeAllocSize (ptrSE 8) i32)) = 0%Z /\
  isInductionPHI ptrLoop (ptrSE 6) 0 loop1 None None = None.
Proof.
  assert (isInductionPHI ptrLoop (ptrSE 8) 0 loop1 None None =
    Some (mkInductionDescriptor (Some (VOther (PointerTy i32) 0))
            IK_PtrInduction (SCEVConstant 64 2) None [])) as H
    by (vm_compute; reflexivity).
  split; [exact H|].
  destruct (pointer_induction_step ptrLoop (ptrSE 8) 0 loop1 None None _ i32
              eq_refl H) as (start & bits & CV & HE & _ & _ & Hrem & _).
  split; [|vm_compute; reflexivity].
  vm_compute. reflexivity.
Defined.

(** * Further properties of the analysis *)

(** ** Counting operands: [hasMultipleUsesOf] *)

Lemma hasMultipleUsesOf_from_count (ops : list Value) (Insts : gset InstId)
    (MaxNumUses NumUses : nat) :
  NumUses <= MaxNumUses ->
  hasMultipleUsesOf_from ops Insts MaxNumUses NumUses = true <->
  MaxNumUses <
    NumUses + length (filter (fun U => countInst Insts (asInst U) = true) ops).
Proof.
  revert NumUses.
  induction ops as [|U r IH]; intros n Hn; cbn [hasMultipleUsesOf_from].
  - split; [done|]. rewrite filter_nil. simpl. lia.
  - rewrite filter_cons. cbv zeta.
    destruct (countInst Insts (asInst U)) eqn:HU.
    + rewrite decide_True by done. simpl.
      destruct (Nat.ltb_spec MaxNumUses (S n)) as [Hlt|Hge].
      * split; [lia|done].
      * rewrite IH by lia. lia.
    + rewrite decide_False by done.
      destruct (Nat.ltb_spec MaxNumUses n) as [Hlt|Hge]; [lia|].
      apply IH; lia.
Qed.

(** X1: [hasMultipleUsesOf], although it stops scanning at the first excess,
    answers exactly whether more than [MaxNumUses] operand slots of [I] hold
    an instruction of [Insts]; an operand that occurs twice counts twice. *)
Theorem hasMultipleUsesOf_counts_operands (F : Function) (I : InstId)
    (Insts : gset InstId) (MaxNumUses : nat) :
  hasMultipleUsesOf F I Insts MaxNumUses = true <->
  MaxNumUses <
    length (filter (fun U => countInst Insts (asInst U) = true)
                   (operands (inst F I))).
Proof.
  unfold hasMultipleUsesOf.
  rewrite hasMultipleUsesOf_from_count by lia. simpl. done.
Qed.

(** ** Powers of two: [isPowerOf2_64] and [NextPowerOf2] *)

Lemma isPowerOf2_64_pow2 (k : Z) :
  (0 <= k)%Z -> isPowerOf2_64 (2 ^ k) = true.
Proof.
  intros Hk. unfold isPowerOf2_64.
  apply andb_true_iff. split.
  - apply Z.ltb_lt. apply Z.pow_pos_nonneg; lia.
  - apply Z.eqb_eq. apply Z.bits_inj'. intros i Hi.
    rewrite Z.land_spec, Z.bits_0.
    destruct (Z.eq_dec i k) as [->|Hne].
    + replace (2 ^ k - 1)%Z with (Z.ones k)
        by (rewrite Z.ones_equiv; lia).
      rewrite Z.ones_spec_high by lia. apply andb_false_r.
    + rewrite Z.pow2_bits_false by lia. done.
Qed.

Lemma isPowerOf2_64_inv (v : Z) :
  isPowerOf2_64 v = true -> v = (2 ^ Z.log2 v)%Z.
Proof.
  unfold isPowerOf2_64. intros H.
  apply andb_true_iff in H as [Hpos Hland].
  apply Z.ltb_lt in Hpos. apply Z.eqb_eq in Hland.
  pose proof (Z.log2_spec v Hpos) as [Hlo Hhi].
  pose proof (Z.log2_nonneg v) as Hk.
  destruct (Z.eq_dec v (2 ^ Z.log2 v)%Z) as [|Hne]; [done|exfalso].
  assert (Hbit : Z.testbit (Z.land v (v - 1)) (Z.log2 v) = true).
  { rewrite Z.land_spec. apply andb_true_iff. split.
    - apply Z.bit_log2. lia.
    - assert (Hlog : Z.log2 (v - 1) = Z.log2 v).
      { apply Z.log2_unique; lia. }
      rewrite <- Hlog. apply Z.bit_log2.
      assert (0 < 2 ^ Z.log2 v)%Z by (apply Z.pow_pos_nonneg; lia). lia. }
  rewrite Hland, Z.bits_0 in Hbit. done.
Qed.

Lemma exactLogBase2_pos (v B : Z) :
  exactLogBase2 v = B -> (0 < B)%Z -> v = (2 ^ B)%Z.
Proof.
  unfold exactLogBase2. destruct (isPowerOf2_64 v) eqn:Hp; [|lia].
  intros <- _. by apply isPowerOf2_64_inv.
Qed.

Lemma smeared_step (h s t X : Z) :
  smeared h s X -> (0 < t <= s + 1)%Z ->
  smeared h (s + t) (Z.lor X (Z.shiftr X t)).
Proof.
  intros [Hhi Hlo] Ht. split.
  - intros i Hi. rewrite Z.lor_spec.
    destruct (Z.le_gt_cases 0 i) as [Hi0|Hi0].
    + rewrite Z.shiftr_spec by lia. rewrite !Hhi by lia. done.
    + rewrite !Z.testbit_neg_r by lia. done.
  - intros i Hi0 Hi. rewrite Z.lor_spec, Z.shiftr_spec by lia.
    destruct (Z.le_gt_cases (h - s) i) as [Hc|Hc].
    + rewrite Hlo by lia. done.
    + rewrite (Hlo (i + t)%Z) by lia. apply orb_true_r.
Qed.

Lemma NextPowerOf2_spec (A : Z) :
  (0 < A < 2 ^ 63)%Z -> NextPowerOf2 A = (2 ^ (Z.log2 A + 1))%Z.
Proof.
  intros HA. set (h := Z.log2 A).
  assert (Hh : (0 <= h < 63)%Z).
  { split; [apply Z.log2_nonneg|]. apply Z.log2_lt_pow2; lia. }
  assert (H0 : smeared h 0 A).
  { split.
    - intros i Hi. apply Z.bits_above_log2; lia.
    - intros i _ Hi. replace i with h by lia. apply Z.bit_log2. lia. }
  unfold NextPowerOf2.
  apply (smeared_step _ _ 1) in H0; [|lia].
  apply (smeared_step _ _ 2) in H0; [|lia].
  apply (smeared_step _ _ 4) in H0; [|lia].
  apply (smeared_step _ _ 8) in H0; [|lia].
  apply (smeared_step _ _ 16) in H0; [|lia].
  apply (smeared_step _ _ 32) in H0; [|lia].
  cbv zeta.
  match goal with
  | H : smeared h _ ?X |- _ => set (Y := X) in *; assert (HY : Y = Z.ones (h + 1))
  end.
  { destruct H0 as [Hhi Hlo]. apply Z.bits_inj'. intros i Hi.
    destruct (Z.le_gt_cases i h) as [Hc|Hc].
    - rewrite Hlo by lia. rewrite Z.ones_spec_low by lia. done.
    - rewrite Hhi by lia. rewrite Z.ones_spec_high by lia. done. }
  rewrite HY, Z.ones_equiv.
  replace (Z.pred (2 ^ (h + 1)) + 1)%Z with (2 ^ (h + 1))%Z by lia.
  apply Z.mod_small. unfold two64. split.
  - apply Z.pow_nonneg; lia.
  - apply Z.pow_lt_mono_r; lia.
Qed.

(** The rounding at the end of [computeRecurrenceType]: the least power of
    two that is not below the width. *)
Lemma round_to_power_of_two (w : Z) :
  (0 < w < 2 ^ 63)%Z ->
  exists k, (0 <= k)%Z /\
    (if negb (isPowerOf2_64 w) then NextPowerOf2 w else w) = (2 ^ k)%Z /\
    (w <= 2 ^ k < 2 * w)%Z.
Proof.
  intros Hw. pose proof (Z.log2_nonneg w) as Hk.
  pose proof (Z.log2_spec w ltac:(lia)) as [Hlo Hhi].
  destruct (isPowerOf2_64 w) eqn:Hp; simpl.
  - exists (Z.log2 w). apply isPowerOf2_64_inv in Hp.
    split; [done|]. split; [done|]. lia.
  - exists (Z.log2 w + 1)%Z. split; [lia|].
    split; [by apply NextPowerOf2_spec|].
    replace (Z.succ (Z.log2 w)) with (Z.log2 w + 1)%Z in Hhi by lia.
    split; [lia|].
    rewrite Z.pow_add_r by lia.
    assert (w ≠ 2 ^ Z.log2 w)%Z.
    { intros Heq. rewrite Heq, isPowerOf2_64_pow2 in Hp by done. done. }
    lia.
Qed.

(** X2: when value tracking does not run (an analysis is missing, or the
    demanded bits already narrowed the width), [computeRecurrenceType]
    returns an unsigned integer type whose width is the least power of two
    that covers the needed bits. *)
Theorem computeRecurrenceType_rounds_up (F : Function) (An : Analyses)
    (Exit : InstId) (needed : Z) :
  needed = match DB An with
           | Some getDemandedBits => activeBits (getDemandedBits Exit)
           | None => getTypeSizeInBits An (getType (inst F Exit))
           end ->
  (needed =? getTypeSizeInBits An (getType (inst F Exit)))%Z &&
    AC An && DT An = false ->
  (0 < needed < 2 ^ 31)%Z ->
  exists k, (0 <= k)%Z /\
    computeRecurrenceType F An Exit = (IntegerTy (2 ^ k), false) /\
    (needed <= 2 ^ k < 2 * needed)%Z.
Proof.
  intros Hneeded Hvt Hrange.
  destruct (round_to_power_of_two needed) as (k & Hk & Hround & Hle); [lia|].
  exists k. split; [done|]. split; [|done].
  unfold computeRecurrenceType. cbv zeta.
  rewrite <- Hneeded, Hvt, Hround.
  unfold getIntNTy. rewrite Z.mod_small; [done|]. lia.
Qed.

Lemma computeRecurrenceType_rounds_up_witness :
  exists k, (0 <= k)%Z /\
    computeRecurrenceType (maskedSumLoop 255) (demandedLow 5) 2 =
      (IntegerTy (2 ^ k), false) /\
    (5 <= 2 ^ k < 2 * 5)%Z.
Proof.
  apply (computeRecurrenceType_rounds_up (maskedSumLoop 255) (demandedLow 5)
           2 5); [reflexivity | reflexivity | lia].
Defined.
(** ** What [lookThroughAnd] looks through *)

(** X3: [lookThroughAnd] moves the start off the merge node only onto its
    single user, an AND of an instruction with a constant [m] for which
    [m + 1] is a power of two [2 ^ n] with [n > 0]; the recurrence type is
    then the integer type of [n] bits, and the merge node and the AND are
    recorded.  For a mask in the range of its width this means
    [m = 2 ^ n - 1] with [n] below the width. *)
Theorem lookThroughAnd_sound (F : Function) (Phi : InstId) (RT : Ty)
    (Visited CI : gset InstId) (Start : InstId) (RT' : Ty)
    (Visited' CI' : gset InstId) :
  lookThroughAnd F Phi RT Visited CI = (Start, RT', Visited', CI') ->
  Start ≠ Phi ->
  exists w m n,
    users (inst F Phi) = [Start] /\
    opcode F Start = Opcode.And /\
    ((exists X, getOperand F Start 0 = Some (VInst X) /\
                getOperand F Start 1 = Some (VConstInt w m)) \/
     (exists X, getOperand F Start 0 = Some (VConstInt w m) /\
                getOperand F Start 1 = Some (VInst X))) /\
    (0 < n)%Z /\ ((m + 1) mod 2 ^ w = 2 ^ n)%Z /\
    RT' = IntegerTy n /\
    Visited' = {[Phi]} ∪ Visited /\ CI' = {[Start]} ∪ CI /\
    ((0 <= m < 2 ^ w)%Z -> m = (2 ^ n - 1)%Z /\ (n < w)%Z).
Proof.
  intros H Hne.
  pose proof (lookThroughAnd_start F _ _ _ _ _ _ _ _ H Hne) as Husers.
  unfold lookThroughAnd in H.
  destruct (hasOneUse F Phi); simpl in H; [|by simplify_eq].
  unfold user_begin in H. rewrite Husers in H. simpl in H.
  case_bool_decide as Hop; [|by simplify_eq].
  assert (exists w m,
    ((exists X, getOperand F Start 0 = Some (VInst X) /\
                getOperand F Start 1 = Some (VConstInt w m)) \/
     (exists X, getOperand F Start 0 = Some (VConstInt w m) /\
                getOperand F Start 1 = Some (VInst X))) /\
    (if (0 <? exactLogBase2 ((m + 1) mod 2 ^ w))%Z
     then (Start, IntegerTy (exactLogBase2 ((m + 1) mod 2 ^ w)),
           {[Phi]} ∪ Visited, {[Start]} ∪ CI)
     else (Phi, RT, Visited, CI)) = (Start, RT', Visited', CI'))
    as (w & m & Hops & Hres).
  { destruct (getOperand F Start 0) as [[X|w m|]|] eqn:H0;
      destruct (getOperand F Start 1) as [[Y|w' m'|]|] eqn:H1;
      try (by simplify_eq).
    - exists w', m'. split; [left; by exists X|done].
    - exists w, m. split; [right; by exists Y|done]. }
  destruct (Z.ltb_spec 0 (exactLogBase2 ((m + 1) mod 2 ^ w))) as [Hpos|Hle];
    [|by simplify_eq].
  set (n := exactLogBase2 ((m + 1) mod 2 ^ w)) in *.
  pose proof (exactLogBase2_pos _ n eq_refl Hpos) as Hpow.
  exists w, m, n. simplify_eq.
  repeat (split; [done|]).
  intros Hm.
  assert (0 < 2 ^ n)%Z by (apply Z.pow_pos_nonneg; lia).
  destruct (Z.eq_dec (m + 1)%Z (2 ^ w)%Z) as [Heq|Hneq].
  - rewrite Heq, Z.mod_same in Hpow by lia. lia.
  - rewrite Z.mod_small in Hpow by lia. split; [lia|].
    assert (0 <= w)%Z.
    { destruct (Z.le_gt_cases 0 w) as [|Hneg]; [done|].
      rewrite Z.pow_neg_r in Hm by lia. lia. }
    apply (Z.pow_lt_mono_r_iff 2); lia.
Qed.

Lemma lookThroughAnd_sound_witness :
  exists w m n,
    users (inst (maskedSumLoop 255) 0) = [1] /\
    opcode (maskedSumLoop 255) 1 = Opcode.And /\
    ((exists X, getOperand (maskedSumLoop 255) 1 0 = Some (VInst X) /\
                getOperand (maskedSumLoop 255) 1 1 = Some (VConstInt w m)) \/
     (exists X, getOperand (maskedSumLoop 255) 1 0 = Some (VConstInt w m) /\
                getOperand (maskedSumLoop 255) 1 1 = Some (VInst X))) /\
    (0 < n)%Z /\ ((m + 1) mod 2 ^ w = 2 ^ n)%Z /\
    IntegerTy 8 = IntegerTy n /\
    ({[0]} ∪ ∅ : gset InstId) = {[0]} ∪ ∅ /\
    ({[1]} ∪ ∅ : gset InstId) = {[1]} ∪ ∅ /\
    ((0 <= m < 2 ^ w)%Z -> m = (2 ^ n - 1)%Z /\ (n < w)%Z).
Proof.
  apply (lookThroughAnd_sound (maskedSumLoop 255) 0 i32 ∅ ∅ 1 (IntegerTy 8)
           ({[0]} ∪ ∅) ({[1]} ∪ ∅)); [reflexivity | lia].
Defined.

(** ** The opcode of a kind *)

(** X4: under a kind that is not a min/max kind, [isRecurrenceInstr] accepts
    an instruction that is neither a PHI nor a select exactly when its
    opcode is the one [getOpcode] gives for the kind, or the inverse
    operation that the matcher folds into the kind: [sub] under [Add],
    [fsub] under [FAdd], [fdiv] under [FMul]. *)
Theorem isRecurrenceInstr_accepts_getOpcode (F : Function) (I : InstId)
    (Kind : RecurKind.t) (Prev : InstDesc) (FMF : FastMathFlags) :
  isMinMaxRecurrenceKind Kind = false ->
  opcode F I ≠ Opcode.PHI -> opcode F I ≠ Opcode.Select ->
  isRecurrence (isRecurrenceInstr F I Kind Prev FMF) = true <->
  RecurrenceDescriptor_getOpcode Kind = Some (opcode F I) \/
  (Kind = RecurKind.Add /\ opcode F I = Opcode.Sub) \/
  (Kind = RecurKind.FAdd /\ opcode F I = Opcode.FSub) \/
  (Kind = RecurKind.FMul /\ opcode F I = Opcode.FDiv).
Proof.
  intros Hmm Hphi Hsel. unfold isRecurrenceInstr.
  replace (isIntMinMaxRecurrenceKind Kind ||
           noNaNs FMF && noSignedZeros FMF && isFPMinMaxRecurrenceKind Kind)
    with false
    by (destruct Kind; try done; simpl; by rewrite andb_false_r).
  destruct (opcode F I) eqn:Hop; try done;
    destruct Kind; try done; simpl;
    (split; [intros; try done; auto | intros [?|[[? ?]|[[? ?]|[? ?]]]]; done]).
Qed.

Lemma isRecurrenceInstr_accepts_getOpcode_witness :
  isRecurrence (isRecurrenceInstr sumLoop 1 RecurKind.Add
                  (InstDesc_flag false None None) FMF_none) = true <->
  RecurrenceDescriptor_getOpcode RecurKind.Add = Some (opcode sumLoop 1) \/
  (RecurKind.Add = RecurKind.Add /\ opcode sumLoop 1 = Opcode.Sub) \/
  (RecurKind.Add = RecurKind.FAdd /\ opcode sumLoop 1 = Opcode.FSub) \/
  (RecurKind.Add = RecurKind.FMul /\ opcode sumLoop 1 = Opcode.FDiv).
Proof.
  apply (isRecurrenceInstr_accepts_getOpcode sumLoop 1 RecurKind.Add);
    [reflexivity | vm_compute; discriminate | vm_compute; discriminate].
Defined.
(** ** The induction classifiers *)

(** The casts that the classifiers record. *)
Lemma isInductionPHI_casts (F : Function) (SE : ScalarEvolution)
    (Phi : InstId) (TheLoop : Loop) (E : SCEV)
    (CastsToIgnore : option (list InstId)) (D : InductionDescriptor) :
  isInductionPHI F SE Phi TheLoop (Some E) CastsToIgnore = Some D ->
  ID_RedundantCasts D = [] \/
  (exists start,
     E = SCEVAddRecExpr start (ID_Step D) TheLoop /\
     ID_IK D = IK_IntInduction /\
     isIntegerTy (getType (inst F Phi)) = true /\
     ID_RedundantCasts D = default [] CastsToIgnore).
Proof.
  unfold isInductionPHI.
  destruct (_ && negb (isPointerTy (getType (inst F Phi)))); [done|].
  destruct E as [| |start Step ARLoop|]; try done.
  destruct (decide (ARLoop = TheLoop)) as [->|Hne];
    [|by rewrite bool_decide_eq_true_2].
  rewrite bool_decide_eq_false_2 by (by intros ?).
  destruct (getLoopLatch TheLoop) as [Latch|]; [|done].
  destruct (_ && negb (isLoopInvariant SE Step TheLoop)); [done|].
  destruct (isIntegerTy (getType (inst F Phi))) eqn:Hint.
  - intros [= <-]. right. by exists start.
  - intros H. left. repeat (case_match; simplify_eq); done.
Qed.

Lemma isFPInductionPHI_casts (F : Function) (Phi : InstId) (TheLoop : Loop)
    (D : InductionDescriptor) :
  isFPInductionPHI F Phi TheLoop = Some D -> ID_RedundantCasts D = [].
Proof.
  unfold isFPInductionPHI. intros H.
  repeat (case_match; simplify_eq); done.
Qed.

(** X5: a descriptor that the integer/pointer classifier builds meets what
    the constructor asserts about kind and step: the kind is the integer or
    the pointer kind according to the type of the merge node, a pointer
    induction has a constant step and no redundant casts, and whenever the
    recurrence steps by a non-zero constant in the range of its width, the
    step of the descriptor is a non-zero constant of that width. *)
Theorem isInductionPHI_descriptor_wellformed (F : Function)
    (SE : ScalarEvolution) (Phi : InstId) (TheLoop : Loop)
    (Expr : option SCEV) (CastsToIgnore : option (list InstId))
    (D : InductionDescriptor) :
  isInductionPHI F SE Phi TheLoop Expr CastsToIgnore = Some D ->
  exists start step,
    (match Expr with Some E => E | None => getSCEV SE Phi end) =
      SCEVAddRecExpr start step TheLoop /\
    ((ID_IK D = IK_IntInduction /\
      isIntegerTy (getType (inst F Phi)) = true /\ ID_Step D = step /\
      ID_RedundantCasts D = default [] CastsToIgnore) \/
     (ID_IK D = IK_PtrInduction /\
      isPointerTy (getType (inst F Phi)) = true /\
      ID_RedundantCasts D = [] /\
      exists bits q, getConstIntStepValue D = Some (bits, q))) /\
    (forall bits CV,
       step = SCEVConstant bits CV ->
       (0 < bits)%Z -> (0 <= CV < 2 ^ bits)%Z -> CV ≠ 0%Z ->
       exists q, getConstIntStepValue D = Some (bits, q) /\ q ≠ 0%Z).
Proof.
  unfold isInductionPHI.
  destruct (negb (isIntegerTy (getType (inst F Phi))) &&
            negb (isPointerTy (getType (inst F Phi)))) eqn:Hty; [done|].
  destruct (match Expr with Some E => E | None => getSCEV SE Phi end)
    as [| |start Step ARLoop|] eqn:HE; try done.
  case_bool_decide as HL; [done|].
  assert (ARLoop = TheLoop) as -> by (by destruct (decide (ARLoop = TheLoop))).
  destruct (getLoopLatch TheLoop) as [Latch|]; [|done].
  destruct (_ && negb (isLoopInvariant SE Step TheLoop)) eqn:Hstep; [done|].
  destruct (isIntegerTy (getType (inst F Phi))) eqn:Hint.
  - intros [= <-]. exists start, Step. split; [done|]. split.
    + left. done.
    + intros bits CV -> _ _ Hnz. exists CV. done.
  - simpl in Hty. apply negb_false_iff in Hty.
    destruct Step as [bits CV| | |]; try done.
    destruct (getType (inst F Phi)) as [| | | | | |elem| | | | |] eqn:HT;
      try done.
    destruct (negb (isSized elem)); [done|].
    destruct (toInt64 (getTypeAllocSize SE elem) =? 0)%Z eqn:Hsz; [done|].
    apply Z.eqb_neq in Hsz.
    destruct (Z.rem _ _ =? 0)%Z eqn:Hrem; [|done].
    apply Z.eqb_eq in Hrem. simpl.
    intros [= <-]. exists start, (SCEVConstant bits CV).
    split; [done|]. split.
    + right. repeat (split; [done|]). by eexists _, _.
    + intros bits' CV' [= <- <-] Hb HCV Hnz.
      eexists. split; [reflexivity|].
      set (Size := toInt64 (getTypeAllocSize SE elem)) in *.
      set (CVSize := getSExtValue bits CV) in *.
      assert (CVSize = (Z.quot CVSize Size * Size)%Z) as Hexact.
      { pose proof (Z.quot_rem' CVSize Size) as Hqr.
        rewrite Hrem in Hqr. lia. }
      pose proof (toSigned_range bits CV Hb HCV) as Hr.
      change (toSigned bits CV) with CVSize in Hr.
      assert (CVSize ≠ 0)%Z as HCVnz.
      { unfold CVSize, getSExtValue, toSigned.
        destruct (CV <? 2 ^ (bits - 1))%Z eqn:Hlt; lia. }
      assert (2 ^ bits = 2 * 2 ^ (bits - 1))%Z as Hpow.
      { rewrite <- Z.pow_succ_r by lia. f_equal. lia. }
      assert (0 < 2 ^ (bits - 1))%Z by (apply Z.pow_pos_nonneg; lia).
      set (q := Z.quot CVSize Size) in *.
      intros Hmod.
      apply Z.mod_divide in Hmod; [|lia].
      destruct Hmod as [c Hc].
      assert (q ≠ 0)%Z by nia.
      assert (Z.abs q <= Z.abs CVSize)%Z by nia.
      assert (c ≠ 0)%Z by nia.
      nia.
Qed.

Lemma isInductionPHI_descriptor_wellformed_witness :
  exists start step,
    getSCEV (ptrSE 8) 0 = SCEVAddRecExpr start step loop1 /\
    ((IK_PtrInduction = IK_IntInduction /\
      isIntegerTy (getType (inst ptrLoop 0)) = true /\
      SCEVConstant 64 2 = step /\ @nil InstId = []) \/
     (IK_PtrInduction = IK_PtrInduction /\
      isPointerTy (getType (inst ptrLoop 0)) = true /\
      @nil InstId = [] /\
      exists bits q, Some (64, 2)%Z = Some (bits, q))) /\
    (forall bits CV,
       step = SCEVConstant bits CV ->
       (0 < bits)%Z -> (0 <= CV < 2 ^ bits)%Z -> CV ≠ 0%Z ->
       exists q, Some (64, 2)%Z = Some (bits, q) /\ q ≠ 0%Z).
Proof.
  apply (isInductionPHI_descriptor_wellformed ptrLoop (ptrSE 8) 0 loop1 None
           None (mkInductionDescriptor (Some (VOther (PointerTy i32) 0))
                   IK_PtrInduction (SCEVConstant 64 2) None [])).
  vm_compute. reflexivity.
Defined.

(** X6: a floating-point induction is reported only for a header PHI with
    two incoming values whose back-edge value is an [fadd] or [fsub] that
    reads the PHI; an [fsub] must have the PHI as its left operand.  The
    other operand is the step; it is not an instruction of the loop, so the
    step is never a constant of the engine.  The start value is the other
    incoming value, and the update operator is recorded, as the constructor
    requires of a floating-point induction. *)
Theorem isFPInductionPHI_sound (F : Function) (Phi : InstId) (TheLoop : Loop)
    (D : InductionDescriptor) :
  isFPInductionPHI F Phi TheLoop = Some D ->
  parent F Phi = getHeader TheLoop /\ getNumIncomingValues F Phi = 2 /\
  ID_IK D = IK_FpInduction /\ ID_RedundantCasts D = [] /\
  getConstIntStepValue D = None /\
  exists BOp Addend k,
    ID_InductionBinOp D = Some BOp /\ ID_Step D = SCEVUnknown Addend /\
    k < 2 /\ getOperand F Phi k = Some (VInst BOp) /\
    ID_StartValue D = getOperand F Phi (1 - k) /\
    ((getOperand F BOp 0 = Some (VInst Phi) /\
      getOperand F BOp 1 = Some Addend /\
      (opcode F BOp = Opcode.FAdd \/ opcode F BOp = Opcode.FSub)) \/
     (getOperand F BOp 1 = Some (VInst Phi) /\
      getOperand F BOp 0 = Some Addend /\ opcode F BOp = Opcode.FAdd)) /\
    Loop_isLoopInvariant F TheLoop Addend = true.
Proof.
  unfold isFPInductionPHI.
  case_bool_decide as Hhdr; [done|].
  case_bool_decide as Hnum; [done|].
  symmetry in Hhdr.
  set (FirstIsBackedge := match getIncomingBlock F Phi 0 with
                          | Some B => containsBlock TheLoop B
                          | None => false
                          end).
  destruct (asBinaryOperator F _) as [BOp|] eqn:HB; [|done].
  assert (getOperand F Phi (if FirstIsBackedge then 0 else 1) =
          Some (VInst BOp)) as HBE.
  { unfold asBinaryOperator in HB.
    destruct (getOperand F Phi _) as [[J| |]|]; try done.
    destruct (isBinaryOp F J); by simplify_eq. }
  match goal with
  | |- match ?A with _ => _ end = _ -> _ =>
      destruct A as [Addend|] eqn:HA; [|done]
  end.
  destruct (match asInst Addend with
            | Some J => contains F TheLoop J
            | None => false
            end) eqn:Hinv; [done|].
  intros [= <-]. simpl.
  repeat (split; [done|]).
  exists BOp, Addend, (if FirstIsBackedge then 0 else 1).
  split; [done|]. split; [done|].
  split; [destruct FirstIsBackedge; lia|].
  split; [done|].
  split; [by destruct FirstIsBackedge|].
  split.
  - repeat case_bool_decide; simplify_eq; auto.
  - unfold Loop_isLoopInvariant. destruct Addend; simpl in *; try done.
    by rewrite Hinv.
Qed.

Lemma isFPInductionPHI_sound_witness :
  isFPInductionPHI fpInductionLoop 0 loop1 =
    Some (mkInductionDescriptor (Some (VOther FloatTy 0)) IK_FpInduction
            (SCEVUnknown (VOther FloatTy 1)) (Some 1) []) /\
  parent fpInductionLoop 0 = getHeader loop1 /\
  isFPInductionPHI reversedFSubLoop 0 loop1 = None.
Proof.
  assert (isFPInductionPHI fpInductionLoop 0 loop1 =
    Some (mkInductionDescriptor (Some (VOther FloatTy 0)) IK_FpInduction
            (SCEVUnknown (VOther FloatTy 1)) (Some 1) [])) as H
    by (vm_compute; reflexivity).
  split; [exact H|].
  split; [|vm_compute; reflexivity].
  exact (proj1 (isFPInductionPHI_sound fpInductionLoop 0 loop1 _ H)).
Defined.
(** X7: without permission to add predicates, the classifier with
    predicates gives, on a merge node that is not of floating-point type,
    exactly what the plain classifier gives on the expression of the
    predicated engine, with no casts to ignore; it adds no predicate to the
    engine and never runs the search for redundant casts. *)
Theorem isInductionPHI_PSE_without_Assume (F : Function)
    (PSE : PredicatedScalarEvolution) (Assumed : list InstId) (Phi : InstId)
    (TheLoop : Loop) :
  isFloatingPointTy (getType (inst F Phi)) = false ->
  isInductionPHI_PSE F PSE Assumed Phi TheLoop false =
    Done (isInductionPHI F (PSE_getSE PSE) Phi TheLoop
            (Some (PSE_getSCEV PSE Assumed Phi)) None, Assumed).
Proof.
  intros Hfp. unfold isInductionPHI_PSE. rewrite Hfp.
  destruct (negb (isIntegerTy (getType (inst F Phi))) &&
            negb (isPointerTy (getType (inst F Phi)))) eqn:Hty.
  - simpl.
    assert (negb (bool_decide (getType (inst F Phi) = FloatTy)) &&
            negb (bool_decide (getType (inst F Phi) = DoubleTy)) &&
            negb (bool_decide (getType (inst F Phi) = HalfTy)) = true) as ->.
    { destruct (getType (inst F Phi)); done. }
    unfold isInductionPHI. rewrite Hty. done.
  - simpl.
    destruct (PSE_getSCEV PSE Assumed Phi) as [| |start step L|] eqn:HS;
      try (unfold isInductionPHI; rewrite Hty; done).
    rewrite bool_decide_eq_false_2 by (intros Hne; by apply Hne). done.
Qed.

Lemma isInductionPHI_PSE_without_Assume_witness :
  isInductionPHI_PSE ptrLoop (ptrPSE 8) [] 0 loop1 false =
    Done (isInductionPHI ptrLoop (PSE_getSE (ptrPSE 8)) 0 loop1
            (Some (PSE_getSCEV (ptrPSE 8) [] 0)) None, []).
Proof.
  apply (isInductionPHI_PSE_without_Assume ptrLoop (ptrPSE 8) [] 0 loop1).
  reflexivity.
Defined.

(** X8: the classifier with predicates reports redundant casts only for an
    integer merge node that the engine sees as opaque and that was turned
    into an add-recurrence of the loop under assumed predicates, which stay
    with the engine; the reported casts are those that
    [getCastsForInductionPHI] found for this recurrence under these
    predicates, and the step is the step of the assumed recurrence. *)
Theorem isInductionPHI_PSE_redundant_casts (F : Function)
    (PSE : PredicatedScalarEvolution) (Assumed Assumed' : list InstId)
    (Phi : InstId) (TheLoop : Loop) (Assume : bool)
    (D : InductionDescriptor) :
  isInductionPHI_PSE F PSE Assumed Phi TheLoop Assume =
    Done (Some D, Assumed') ->
  ID_RedundantCasts D ≠ [] ->
  Assume = true /\ isIntegerTy (getType (inst F Phi)) = true /\
  ID_IK D = IK_IntInduction /\ Assumed' = Phi :: Assumed /\
  exists v start step,
    PSE_getSCEV PSE Assumed Phi = SCEVUnknown v /\
    PSE_getAsAddRec PSE Assumed Phi = Some (start, step, TheLoop) /\
    ID_Step D = step /\
    getCastsForInductionPHI F PSE (Phi :: Assumed) (SCEVUnknown v)
      (SCEVAddRecExpr start step TheLoop) = Done (true, ID_RedundantCasts D).
Proof.
  intros H Hcasts.
  assert (forall AR, isInductionPHI F (PSE_getSE PSE) Phi TheLoop (Some AR)
                       None ≠ Some D) as Hplain.
  { intros AR HD.
    destruct (isInductionPHI_casts _ _ _ _ _ _ _ HD)
      as [Hc|(? & _ & _ & _ & Hc)]; by rewrite Hc in Hcasts. }
  unfold isInductionPHI_PSE in H.
  destruct (_ && negb (bool_decide (getType (inst F Phi) = HalfTy)));
    [done|].
  destruct (isFloatingPointTy (getType (inst F Phi))) eqn:Hfp.
  { injection H as H _. by apply isFPInductionPHI_casts in H. }
  destruct (PSE_getSCEV PSE Assumed Phi) as [| |s0 st0 L0|] eqn:HS.
  4: { destruct Assume, (PSE_getAsAddRec PSE Assumed Phi) as [[[? ?] ?]|];
         simpl in H; try done; try rewrite andb_false_r in H;
         injection H as H _; by apply Hplain in H. }
  3: { rewrite bool_decide_eq_false_2 in H by (intros Hne; by apply Hne).
       simpl in H. injection H as H _. by apply Hplain in H. }
  1: { destruct Assume, (PSE_getAsAddRec PSE Assumed Phi) as [[[? ?] ?]|];
         simpl in H; try done; try rewrite andb_false_r in H;
         injection H as H _; by apply Hplain in H. }
  destruct Assume; [|done].
  destruct (PSE_getAsAddRec PSE Assumed Phi) as [[[start step] L]|] eqn:HAR;
    [|done].
  rewrite bool_decide_eq_true_2 in H by done. cbn [andb] in H.
  destruct (getCastsForInductionPHI F PSE (Phi :: Assumed) (SCEVUnknown v)
              (SCEVAddRecExpr start step L)) as [[[|] Casts]| |] eqn:HC;
    cbn beta iota in H; try done; injection H as H <-;
    [|by apply Hplain in H].
  destruct (isInductionPHI_casts _ _ _ _ _ _ _ H)
    as [Hc|(start' & HE & HIK & Hint & Hc)]; [by rewrite Hc in Hcasts|].
  injection HE as <- Hstep ->.
  simpl in Hc. rewrite Hc.
  split; [done|]. split; [done|]. split; [done|]. split; [done|].
  exists v, start, step. by rewrite <- Hstep.
Qed.

Lemma isInductionPHI_PSE_redundant_casts_witness :
  isInductionPHI_PSE (maskedSumLoop 255) maskedPSE [] 0 loop1 true =
    Done (Some (mkInductionDescriptor (Some (VOther i32 0)) IK_IntInduction
                  (SCEVConstant 32 1) (Some 2) [1]), [0]) /\
  getCastsForInductionPHI (maskedSumLoop 255) maskedPSE [0]
    (SCEVUnknown (VInst 0)) maskedRecurrence = Done (true, [1]).
Proof.
  assert (isInductionPHI_PSE (maskedSumLoop 255) maskedPSE [] 0 loop1 true =
    Done (Some (mkInductionDescriptor (Some (VOther i32 0)) IK_IntInduction
                  (SCEVConstant 32 1) (Some 2) [1]), [0])) as H
    by (vm_compute; reflexivity).
  split; [exact H|].
  destruct (isInductionPHI_PSE_redundant_casts _ _ _ _ _ _ _ _ H)
    as (_ & _ & _ & _ & v & start & step & HS & HAR & _ & HC); [done|].
  injection HS as <-. injection HAR as <- <-. exact HC.
Defined.
(** ** Walks along a partial step function *)

Section StepCount.
Context {A : Type} `{Countable A}.
Variable next : A -> option A.

Lemma stepCount_mono (fuel fuel' : nat) (a : A) (k : nat) :
  stepCount next fuel a = Some k -> fuel <= fuel' ->
  stepCount next fuel' a = Some k.
Proof.
  revert fuel' a k. induction fuel as [|fuel IH]; intros fuel' a k; [done|].
  destruct fuel' as [|fuel']; [lia|]. simpl.
  destruct (next a) as [a'|]; [|done].
  destruct (stepCount next fuel a') as [k'|] eqn:Hk'; [|done].
  intros [= <-] Hle. rewrite (IH fuel' a' k') by (done || lia). done.
Qed.

Lemma stepCount_exact (fuel : nat) (a : A) (k : nat) :
  stepCount next fuel a = Some k -> stepCount next (S k) a = Some k.
Proof.
  revert a k. induction fuel as [|fuel IH]; intros a k; [done|]. simpl.
  destruct (next a) as [a'|]; [|by intros [= <-]].
  destruct (stepCount next fuel a') as [k'|] eqn:Hk'; [|done].
  intros [= <-]. rewrite (IH a' k') by done. done.
Qed.

(** A walk that stops passes through pairwise different states. *)
Lemma stepCount_bound (U : gset A) (fuel : nat) (a : A) (k : nat) :
  (forall a a', next a = Some a' -> a ∈ U) ->
  stepCount next fuel a = Some k -> k <= size U.
Proof.
  intros HU Hk.
  assert (exists P : gset A,
    P ⊆ U /\ size P = k /\
    forall p, p ∈ P -> exists j, j < k /\
      stepCount next (S (S j)) p = Some (S j)) as (P & HP & <- & _).
  { revert a k Hk. induction fuel as [|fuel IH]; intros a k; [done|]. simpl.
    destruct (next a) as [a'|] eqn:Ha.
    - destruct (stepCount next fuel a') as [k'|] eqn:Hk'; [|done].
      intros [= <-].
      destruct (IH a' k' Hk') as (P & HP & Hsize & Hel).
      assert (a ∉ P) as Hfresh.
      { intros Hin. destruct (Hel a Hin) as (j & Hj & Hc).
        assert (stepCount next (S fuel) a = Some (S k')) as Ha'
          by (simpl; by rewrite Ha, Hk').
        pose proof (stepCount_mono _ (S fuel + S (S j)) _ _ Ha'
                      ltac:(lia)) as H1.
        pose proof (stepCount_mono _ (S fuel + S (S j)) _ _ Hc
                      ltac:(lia)) as H2.
        rewrite H1 in H2. injection H2 as H2. lia. }
      exists ({[a]} ∪ P). split; [|split].
      + apply union_subseteq. split; [|done].
        apply singleton_subseteq_l. by eapply HU.
      + rewrite size_union by set_solver. rewrite size_singleton. lia.
      + intros p [Hp|Hp]%elem_of_union.
        * apply elem_of_singleton in Hp as ->. exists k'. split; [lia|].
          refine (stepCount_exact (S fuel) a (S k') _).
          simpl. by rewrite Ha, Hk'.
        * destruct (Hel p Hp) as (j & Hj & Hc). exists j. split; [lia|done].
    - intros [= <-]. exists ∅. split; [set_solver|]. split; [done|].
      intros p Hp. set_solver. }
  by apply subseteq_size.
Qed.

End StepCount.

Lemma size_instructionIds (F : Function) :
  size (instructionIds F) = length (instructions F).
Proof.
  unfold instructionIds. rewrite size_list_to_set by apply NoDup_seq.
  apply length_seq.
Qed.

Lemma users_instructionIds (F : Function) (J : InstId) :
  users (inst F J) ≠ [] -> J ∈ instructionIds F.
Proof.
  intros Hu. unfold instructionIds. apply elem_of_list_to_set.
  apply elem_of_seq. split; [lia|]. simpl.
  destruct (Nat.lt_ge_cases J (length (instructions F))) as [|Hge]; [done|].
  exfalso. apply Hu. unfold inst.
  rewrite lookup_ge_None_2 by done. done.
Qed.

Lemma isBinaryOp_instructionIds (F : Function) (J : InstId) :
  isBinaryOp F J = true -> J ∈ instructionIds F.
Proof.
  intros Hb. unfold instructionIds. apply elem_of_list_to_set.
  apply elem_of_seq. split; [lia|]. simpl.
  destruct (Nat.lt_ge_cases J (length (instructions F))) as [|Hge]; [done|].
  exfalso. unfold isBinaryOp, opcode, inst in Hb.
  rewrite lookup_ge_None_2 in Hb by done. done.
Qed.

(** ** The chain of reduction operations *)

Section ReductionOpChainFacts.
Variable F : Function.
Variable isMinOrMaxSelectPattern : InstId -> bool.
Variable RedOp : Opcode.t.
Variable LoopExitInstr : InstId.

Abbreviation chainLoop :=
  (reductionOpChain_loop F isMinOrMaxSelectPattern RedOp).
Abbreviation nextInChain :=
  (chainNext F isMinOrMaxSelectPattern RedOp LoopExitInstr).

Lemma ExpectedUses_pos : 0 < ExpectedUses RedOp.
Proof. unfold ExpectedUses. destruct (isCompareOpcode RedOp); lia. Qed.

Lemma chainNext_valid (Cur Next : InstId) :
  nextInChain Cur = Some Next -> Cur ∈ instructionIds F.
Proof.
  unfold chainNext. case_bool_decide; [done|].
  destruct (negb _ || negb (hasNUses F Cur (ExpectedUses RedOp))) eqn:Hc;
    [done|].
  intros _. apply orb_false_iff in Hc as [_ Hn].
  apply negb_false_iff, bool_decide_eq_true in Hn.
  apply users_instructionIds. intros Hu. rewrite Hu in Hn.
  pose proof ExpectedUses_pos. simpl in Hn. lia.
Qed.

(** The loop follows [chainNext]. *)
Lemma chainLoop_unfold (fuel : nat) (Cur : InstId) (Ops : list InstId) :
  chainLoop (S fuel) LoopExitInstr Cur Ops =
    match nextInChain Cur with
    | Some Next => chainLoop fuel LoopExitInstr Next (Ops ++ [Cur])
    | None =>
        if bool_decide (Cur = LoopExitInstr) then Done (Ops ++ [Cur])
        else if negb (isCorrectOpcode F isMinOrMaxSelectPattern RedOp Cur) ||
                negb (hasNUses F Cur (ExpectedUses RedOp)) then Done []
        else Failed
    end.
Proof.
  simpl. unfold chainNext. case_bool_decide; [done|].
  destruct (negb _ || negb _); [done|].
  by destruct (getNextInstruction F RedOp Cur).
Qed.

Lemma chainLoop_stepCount (fuel : nat) (Cur : InstId) (Ops : list InstId) :
  chainLoop fuel LoopExitInstr Cur Ops ≠ OutOfFuel ->
  exists k, stepCount nextInChain fuel Cur = Some k /\
    forall fuel', k < fuel' ->
      chainLoop fuel' LoopExitInstr Cur Ops =
      chainLoop fuel LoopExitInstr Cur Ops.
Proof.
  revert Cur Ops. induction fuel as [|fuel IH]; intros Cur Ops; [done|].
  rewrite chainLoop_unfold. cbn [stepCount].
  destruct (nextInChain Cur) as [Next|] eqn:HN.
  - intros Hne. destruct (IH _ _ Hne) as (k & Hk & Hsame).
    exists (S k). rewrite Hk. split; [done|].
    intros [|fuel'] Hlt; [lia|].
    rewrite chainLoop_unfold, HN. apply Hsame. lia.
  - intros _. exists 0. split; [done|].
    intros [|fuel'] Hlt; [lia|]. by rewrite chainLoop_unfold, HN.
Qed.

(** The walk never stops for want of a user to go to. *)
Lemma chainLoop_not_Failed (fuel : nat) (Cur : InstId) (Ops : list InstId) :
  chainLoop fuel LoopExitInstr Cur Ops ≠ Failed.
Proof.
  revert Cur Ops. induction fuel as [|fuel IH]; intros Cur Ops; [done|].
  simpl. case_bool_decide; [done|].
  destruct (negb _ || negb (hasNUses F Cur (ExpectedUses RedOp))) eqn:Hc;
    [done|].
  apply orb_false_iff in Hc as [_ Hn].
  apply negb_false_iff, bool_decide_eq_true in Hn.
  unfold getNextInstruction, ExpectedUses, user_begin in *.
  destruct (isCompareOpcode RedOp);
    destruct (users (inst F Cur)) as [|U [|U' r]]; simpl in *; try done;
    try destruct (isa_SelectInst F U); apply IH.
Qed.

Lemma chainLoop_walk (fuel : nat) (Cur : InstId) (Ops l : list InstId) :
  chainLoop fuel LoopExitInstr Cur Ops = Done l ->
  l = [] \/
  exists path,
    l = Ops ++ path /\
    chainWalk F isMinOrMaxSelectPattern RedOp LoopExitInstr Cur path.
Proof.
  revert Cur Ops. induction fuel as [|fuel IH]; intros Cur Ops; [done|].
  rewrite chainLoop_unfold.
  destruct (nextInChain Cur) as [Next|] eqn:HN.
  - intros Hl. destruct (IH _ _ Hl) as [->|(path & -> & Hw)]; [by left|].
    right. exists (Cur :: path). rewrite <- app_assoc. split; [done|].
    by eapply chainWalk_step.
  - case_bool_decide as He.
    + intros [= <-]. right. exists [Cur]. split; [done|].
      subst Cur. constructor.
    + destruct (negb _ || negb _); [|done]. intros [= <-]. by left.
Qed.

Lemma chainWalk_facts (First : InstId) (path : list InstId) :
  chainWalk F isMinOrMaxSelectPattern RedOp LoopExitInstr First path ->
  head path = Some First /\ last path = Some LoopExitInstr /\
  (forall i Cur, path !! i = Some Cur -> S i < length path ->
     Cur ≠ LoopExitInstr /\
     isCorrectOpcode F isMinOrMaxSelectPattern RedOp Cur = true /\
     hasNUses F Cur (ExpectedUses RedOp) = true /\
     getNextInstruction F RedOp Cur = path !! S i) /\
  NoDup path.
Proof.
  induction 1 as [|Cur Next path HN Hw (Hhd & Hlast & Hmid & Hnd)].
  - split; [done|]. split; [done|]. split.
    + intros i Cur _ Hi. simpl in Hi. lia.
    + apply NoDup_singleton.
  - assert (Cur ≠ LoopExitInstr /\
            isCorrectOpcode F isMinOrMaxSelectPattern RedOp Cur = true /\
            hasNUses F Cur (ExpectedUses RedOp) = true /\
            getNextInstruction F RedOp Cur = Some Next) as HCur.
    { unfold chainNext in HN. case_bool_decide; [done|].
      destruct (isCorrectOpcode _ _ _ Cur), (hasNUses F Cur _); done. }
    split; [done|]. split.
    { destruct path; [done|]. done. }
    split.
    + intros [|i] C HC Hi; simpl in *.
      * injection HC as <-. destruct HCur as (? & ? & ? & ->).
        repeat (split; [done|]). destruct path; by simplify_eq/=.
      * apply Hmid; [done|lia].
    + apply NoDup_cons. split; [|done].
      intros Hin. apply list_elem_of_lookup in Hin as [i Hi].
      assert (forall j C, path !! j = Some C -> C ≠ Cur) as Hall; cycle 1.
      { by eapply Hall. }
      clear i Hi.
      (* every later element takes fewer steps to the exit than [Cur] *)
      assert (forall First path,
        chainWalk F isMinOrMaxSelectPattern RedOp LoopExitInstr First path ->
        stepCount nextInChain (length path) First = Some (length path - 1) /\
        forall j C, path !! j = Some C ->
          stepCount nextInChain (length path - j) C =
            Some (length path - j - 1)) as Hcount.
      { clear. induction 1 as [|Cur Next path HN Hw [IH1 IH2]].
        - split.
          + simpl. unfold chainNext.
            by rewrite bool_decide_eq_true_2.
          + intros [|j] C HC; [|done]. injection HC as <-. simpl.
            unfold chainNext. by rewrite bool_decide_eq_true_2.
        - assert (0 < length path) by (destruct Hw; simpl; lia).
          assert (stepCount nextInChain (length (Cur :: path)) Cur =
                  Some (length (Cur :: path) - 1)) as Hc.
          { cbn [length stepCount]. rewrite HN, IH1. simpl.
            f_equal. lia. }
          split; [done|].
          intros [|j] C HC.
          * injection HC as <-. rewrite Nat.sub_0_r. done.
          * simpl in HC. cbn [length].
            replace (S (length path) - S j) with (length path - j) by lia.
            by apply IH2. }
      destruct (Hcount _ _ Hw) as [Hc1 Hc2].
      intros j C HC ->.
      specialize (Hc2 _ _ HC).
      assert (stepCount nextInChain (S (length path)) Cur =
              Some (S (length path - 1))) as Hc.
      { cbn [stepCount]. rewrite HN, Hc1. done. }
      pose proof (lookup_lt_Some _ _ _ HC) as Hj.
      pose proof (stepCount_mono _ _ (S (length path)) _ _ Hc2
                    ltac:(lia)) as Hc2'.
      rewrite Hc in Hc2'. injection Hc2' as Hc2'. lia.
Qed.

End ReductionOpChainFacts.
#[local] Arguments reductionOpChain_loop : simpl never.

(** X9: a non-empty chain that [getReductionOpChain] returns starts at the
    instruction that follows the merge node, ends at the exit instruction
    of the descriptor and lists no instruction twice.  Every instruction of
    it passes the opcode check (its opcode is the opcode of the kind; for a
    min/max kind it is a min/max select), every instruction before the last
    has exactly the expected number of uses and is followed by its next
    instruction, the exit instruction has two uses and the merge node the
    expected number. *)
Theorem getReductionOpChain_shape (F : Function)
    (isMinOrMaxSelectPattern : InstId -> bool) (RD : RecurrenceDescriptor.t)
    (Phi : InstId) (l : list InstId) :
  getReductionOpChain F isMinOrMaxSelectPattern RD Phi = Done l ->
  l ≠ [] ->
  exists RedOp,
    RecurrenceDescriptor_getOpcode (RecurrenceDescriptor.Kind RD) =
      Some RedOp /\
    hasNUses F (RecurrenceDescriptor.LoopExitInstr RD) 2 = true /\
    hasNUses F Phi (ExpectedUses RedOp) = true /\
    head l = getNextInstruction F RedOp Phi /\
    last l = Some (RecurrenceDescriptor.LoopExitInstr RD) /\
    NoDup l /\
    (forall Cur, Cur ∈ l ->
       isCorrectOpcode F isMinOrMaxSelectPattern RedOp Cur = true) /\
    (forall i Cur, l !! i = Some Cur -> S i < length l ->
       Cur ≠ RecurrenceDescriptor.LoopExitInstr RD /\
       hasNUses F Cur (ExpectedUses RedOp) = true /\
       getNextInstruction F RedOp Cur = l !! S i).
Proof.
  unfold getReductionOpChain. intros H Hne.
  destruct (RecurrenceDescriptor_getOpcode _) as [RedOp|]; [|done].
  exists RedOp. split; [done|].
  set (Exit := RecurrenceDescriptor.LoopExitInstr RD) in *.
  destruct (isCorrectOpcode F isMinOrMaxSelectPattern RedOp Exit) eqn:Hok;
    [|by simplify_eq/=].
  destruct (hasNUses F Exit 2) eqn:HE; [|by simplify_eq/=].
  destruct (hasNUses F Phi (ExpectedUses RedOp)) eqn:HP; [|by simplify_eq/=].
  cbn [negb orb] in H.
  destruct (getNextInstruction F RedOp Phi) as [First|] eqn:HF; [|done].
  apply chainLoop_walk in H as [->|(path & -> & Hw)]; [done|].
  simpl.
  destruct (chainWalk_facts _ _ _ _ _ _ Hw) as (Hhd & Hlast & Hmid & Hnd).
  repeat (split; [done|]). split.
  - intros Cur [i Hi]%list_elem_of_lookup.
    destruct (decide (S i < length path)) as [Hlt|Hge].
    + by destruct (Hmid _ _ Hi Hlt) as (_ & ? & _).
    + assert (last path = Some Cur) as HL.
      { rewrite last_lookup. rewrite <- Hi. f_equal.
        apply lookup_lt_Some in Hi. lia. }
      rewrite Hlast in HL. by injection HL as <-.
  - intros i Cur Hi Hlt. by destruct (Hmid _ _ Hi Hlt) as (? & _ & ? & ?).
Qed.

Lemma getReductionOpChain_shape_witness :
  getReductionOpChain sumLoop (fun _ => false) sumLoopDescriptor 0 =
    Done [1] /\
  exists RedOp,
    RecurrenceDescriptor_getOpcode RecurKind.Add = Some RedOp /\
    hasNUses sumLoop 1 2 = true.
Proof.
  assert (getReductionOpChain sumLoop (fun _ => false) sumLoopDescriptor 0 =
            Done [1]) as H by (vm_compute; reflexivity).
  split; [exact H|].
  destruct (getReductionOpChain_shape _ _ _ _ _ H ltac:(done))
    as (RedOp & HR & HE & _).
  exists RedOp. split; [exact HR|exact HE].
Defined.

(** X10: for a descriptor with a kind, [getReductionOpChain] never reads past
    the end of a use list, and the bound on the iterations of its loop, the
    number of instructions of the function plus one, cuts no walk short: if
    the bound is reached, the loop of the source does not end at all. *)
Theorem getReductionOpChain_terminates (F : Function)
    (isMinOrMaxSelectPattern : InstId -> bool) (RD : RecurrenceDescriptor.t)
    (Phi : InstId) :
  RecurrenceDescriptor.Kind RD ≠ RecurKind.None ->
  getReductionOpChain F isMinOrMaxSelectPattern RD Phi ≠ Failed /\
  (getReductionOpChain F isMinOrMaxSelectPattern RD Phi = OutOfFuel ->
   exists RedOp First,
     RecurrenceDescriptor_getOpcode (RecurrenceDescriptor.Kind RD) =
       Some RedOp /\
     getNextInstruction F RedOp Phi = Some First /\
     forall fuel,
       reductionOpChain_loop F isMinOrMaxSelectPattern RedOp fuel
         (RecurrenceDescriptor.LoopExitInstr RD) First [] = OutOfFuel).
Proof.
  intros HK. unfold getReductionOpChain.
  destruct (RecurrenceDescriptor_getOpcode _) as [RedOp|] eqn:HR;
    [|by destruct (RecurrenceDescriptor.Kind RD)].
  set (Exit := RecurrenceDescriptor.LoopExitInstr RD).
  destruct (negb _ || negb (hasNUses F Exit 2)); [done|].
  destruct (hasNUses F Phi (ExpectedUses RedOp)) eqn:HP; [|done]. simpl.
  destruct (getNextInstruction F RedOp Phi) as [First|] eqn:HF.
  - split; [apply chainLoop_not_Failed|].
    intros Hout. exists RedOp, First. split; [done|]. split; [done|].
    intros fuel.
    destruct (reductionOpChain_loop F isMinOrMaxSelectPattern RedOp fuel
                Exit First []) as [r| |] eqn:Hr; [| |done]; exfalso.
    + destruct (chainLoop_stepCount F isMinOrMaxSelectPattern RedOp Exit
                  fuel First []) as (k & Hk & Hsame); [by rewrite Hr|].
      pose proof (stepCount_bound _ (instructionIds F) _ _ _
                    (chainNext_valid F isMinOrMaxSelectPattern RedOp Exit)
                    Hk) as Hb.
      rewrite size_instructionIds in Hb.
      rewrite (Hsame (chainFuel F)) in Hout by (unfold chainFuel; lia).
      by rewrite Hr in Hout.
    + by apply chainLoop_not_Failed in Hr.
  - exfalso. apply bool_decide_eq_true in HP.
    unfold getNextInstruction, ExpectedUses, user_begin in *.
    destruct (isCompareOpcode RedOp);
      destruct (users (inst F Phi)) as [|U [|U' r]]; simpl in *; try done.
    by destruct (isa_SelectInst F U).
Qed.

Lemma getReductionOpChain_terminates_witness :
  getReductionOpChain sumLoop (fun _ => false) sumLoopDescriptor 0 ≠ Failed.
Proof.
  apply (getReductionOpChain_terminates sumLoop (fun _ => false)
           sumLoopDescriptor 0).
  vm_compute. discriminate.
Defined.
(** ** The search for redundant casts *)

Section CastSequenceFacts.
Variable F : Function.
Variable PSE : PredicatedScalarEvolution.
Variable Assumed : list InstId.
Variable L : Loop.
Variable PN : InstId.
Variable AR : SCEV.

Abbreviation castLoop := (castSequence_loop F PSE Assumed).
Abbreviation nextCast := (castNext F PSE Assumed L PN AR).

Lemma entersCastSequence_flag (Inst : InstId) (b : bool) :
  match PSE_getSCEV PSE Assumed Inst with
  | SCEVAddRecExpr _ _ _ as AddRec =>
      if PSE_areAddRecsEqualWithPreds PSE Assumed AddRec AR then true else b
  | _ => b
  end = entersCastSequence PSE Assumed AR Inst || b.
Proof.
  unfold entersCastSequence.
  by destruct (PSE_getSCEV PSE Assumed Inst).
Qed.

Lemma castLoop_unfold (fuel : nat) (Val : Value) (b : bool)
    (Casts : list InstId) :
  castLoop (S fuel) L PN AR Val b Casts =
    if bool_decide (Val = VInst PN) then Done (b, Casts)
    else
      match asInst Val with
      | None => Done (false, Casts)
      | Some Inst =>
          if negb (contains F L Inst) then Done (false, Casts) else
          let b' := entersCastSequence PSE Assumed AR Inst || b in
          if b' && negb (bool_decide (Casts = [])) && negb (hasOneUse F Inst)
          then Done (false, Casts) else
          let Casts' := if b' then Casts ++ [Inst] else Casts in
          match getDef F L Val with
          | None => Done (false, Casts')
          | Some Val' => castLoop fuel L PN AR Val' b' Casts'
          end
      end.
Proof.
  simpl. case_bool_decide; [done|].
  destruct (asInst Val) as [Inst|]; [|done].
  by rewrite entersCastSequence_flag.
Qed.

Lemma castNext_valid (s s' : InstId * bool * bool) :
  nextCast s = Some s' -> s ∈ castStates F.
Proof.
  destruct s as [[Inst b] e]. unfold castNext.
  case_bool_decide; [done|].
  destruct (negb (contains F L Inst)); [done|]. cbv zeta.
  destruct (_ && negb (hasOneUse F Inst)); [done|].
  destruct (getDef F L (VInst Inst)) as [[J| |]|] eqn:HD; try done.
  intros _. unfold getDef, asBinaryOperator in HD.
  destruct (isBinaryOp F Inst) eqn:HB; [|done].
  apply isBinaryOp_instructionIds in HB.
  unfold instructionIds in HB. apply elem_of_list_to_set in HB.
  unfold castStates. apply elem_of_list_to_set.
  apply list_elem_of_bind. exists Inst. split; [|done].
  destruct b, e; set_solver.
Qed.

Lemma size_castStates : size (castStates F) <= 4 * length (instructions F).
Proof.
  unfold castStates.
  assert (forall l : list (InstId * bool * bool),
    size (list_to_set l : gset (InstId * bool * bool)) <= length l) as Hle.
  { induction l as [|x l IH]; [done|].
    rewrite list_to_set_cons, size_union_alt, size_singleton.
    assert (size ((list_to_set l : gset (InstId * bool * bool)) ∖ {[x]}) <=
            size (list_to_set l : gset (InstId * bool * bool))) as Hd
      by (apply subseteq_size; set_solver).
    simpl. lia. }
  etrans; [apply Hle|].
  assert (forall l : list InstId,
    length (J ← l; [(J, false, false); (J, false, true); (J, true, false);
                    (J, true, true)]) = 4 * length l) as Hlen.
  { induction l as [|J l IH]; [done|].
    cbn [mbind list_bind]. rewrite length_app, IH. simpl. lia. }
  rewrite Hlen, length_seq. done.
Qed.

Lemma castLoop_stepCount (fuel : nat) (Inst : InstId) (b : bool)
    (Casts : list InstId) :
  castLoop fuel L PN AR (VInst Inst) b Casts ≠ OutOfFuel ->
  exists k,
    stepCount nextCast fuel (Inst, b, negb (bool_decide (Casts = []))) =
      Some k /\
    forall fuel', k + 1 < fuel' ->
      castLoop fuel' L PN AR (VInst Inst) b Casts =
      castLoop fuel L PN AR (VInst Inst) b Casts.
Proof.
  revert Inst b Casts. induction fuel as [|fuel IH]; intros Inst b Casts;
    [done|].
  rewrite castLoop_unfold. cbn [stepCount castNext asInst].
  destruct (decide (Inst = PN)) as [->|Hne].
  { rewrite !bool_decide_eq_true_2 by done. intros _. exists 0.
    split; [done|]. intros [|fuel'] Hlt; [lia|].
    rewrite castLoop_unfold. by rewrite bool_decide_eq_true_2. }
  rewrite (bool_decide_eq_false_2 (VInst Inst = VInst PN)) by congruence.
  rewrite (bool_decide_eq_false_2 (Inst = PN)) by done.
  destruct (negb (contains F L Inst)) eqn:HC.
  { intros _. exists 0. split; [done|]. intros [|fuel'] Hlt; [lia|].
    rewrite castLoop_unfold.
    rewrite (bool_decide_eq_false_2 (VInst Inst = VInst PN)) by congruence.
    cbn [asInst]. by rewrite HC. }
  cbv zeta.
  destruct (_ && negb (hasOneUse F Inst)) eqn:HU.
  { intros _. exists 0. split; [done|]. intros [|fuel'] Hlt; [lia|].
    rewrite castLoop_unfold.
    rewrite (bool_decide_eq_false_2 (VInst Inst = VInst PN)) by congruence.
    cbn [asInst]. rewrite HC. cbv zeta. by rewrite HU. }
  assert (forall fuel',
    castLoop (S fuel') L PN AR (VInst Inst) b Casts =
    match getDef F L (VInst Inst) with
    | None =>
        Done (false, if entersCastSequence PSE Assumed AR Inst || b
                     then Casts ++ [Inst] else Casts)
    | Some Val' =>
        castLoop fuel' L PN AR Val' (entersCastSequence PSE Assumed AR Inst || b)
          (if entersCastSequence PSE Assumed AR Inst || b
           then Casts ++ [Inst] else Casts)
    end) as Hstep.
  { intros fuel'. rewrite castLoop_unfold.
    rewrite (bool_decide_eq_false_2 (VInst Inst = VInst PN)) by congruence.
    cbn [asInst]. rewrite HC. cbv zeta. by rewrite HU. }
  destruct (getDef F L (VInst Inst)) as [[J|w m|ty n]|] eqn:HD.
  - intros Hne'.
    destruct (IH _ _ _ Hne') as (k & Hk & Hsame).
    assert (negb (bool_decide
              ((if entersCastSequence PSE Assumed AR Inst || b
                then Casts ++ [Inst] else Casts) = [])) =
            negb (bool_decide (Casts = [])) ||
              (entersCastSequence PSE Assumed AR Inst || b)) as Hrec.
    { destruct (entersCastSequence PSE Assumed AR Inst || b).
      - rewrite bool_decide_eq_false_2 by (by destruct Casts).
        by rewrite orb_true_r.
      - by rewrite orb_false_r. }
    rewrite Hrec in Hk. rewrite Hk.
    exists (S k). split; [done|]. intros [|fuel'] Hlt; [lia|].
    rewrite Hstep. apply Hsame. lia.
  - intros Hne'. exists 0. split; [done|].
    intros [|[|fuel']] Hlt; [lia|lia|].
    rewrite Hstep. destruct fuel; [done|]. by rewrite !castLoop_unfold.
  - intros Hne'. exists 0. split; [done|].
    intros [|[|fuel']] Hlt; [lia|lia|].
    rewrite Hstep. destruct fuel; [done|]. by rewrite !castLoop_unfold.
  - intros _. exists 0. split; [done|].
    intros [|fuel'] Hlt; [lia|]. by rewrite Hstep.
Qed.

(** What a successful search has walked through and recorded. *)
Lemma castLoop_true (fuel : nat) (Val : Value) (b : bool)
    (Casts Casts' : list InstId) :
  castLoop fuel L PN AR Val b Casts = Done (true, Casts') ->
  exists skipped new,
    defChain F L PN Val (skipped ++ new) /\
    Casts' = Casts ++ new /\
    (if b then skipped = []
     else exists First, head new = Some First /\
            entersCastSequence PSE Assumed AR First = true) /\
    (forall i Inst, new !! i = Some Inst -> 0 < i \/ Casts ≠ [] ->
       hasOneUse F Inst = true).
Proof.
  revert Val b Casts. induction fuel as [|fuel IH]; intros Val b Casts;
    [done|].
  rewrite castLoop_unfold.
  case_bool_decide as HV.
  { intros [= -> <-]. exists [], []. simpl. rewrite app_nil_r.
    repeat split; try done. }
  destruct (asInst Val) as [Inst|] eqn:HI; [|done].
  assert (Val = VInst Inst) as -> by (by destruct Val; simplify_eq/=).
  destruct (negb (contains F L Inst)) eqn:HC; [done|].
  apply negb_false_iff in HC. cbv zeta.
  destruct (_ && negb (hasOneUse F Inst)) eqn:HU; [done|].
  destruct (getDef F L (VInst Inst)) as [Val'|] eqn:HD; [|done].
  intros Hloop.
  destruct (IH _ _ _ Hloop) as (skipped & new & Hchain & HCasts & Hb & Hone).
  assert (Inst ≠ PN) as HnePN by congruence.
  destruct (entersCastSequence PSE Assumed AR Inst || b) eqn:Hb'.
  - (* [Inst] is recorded *)
    subst skipped. exists [], (Inst :: new). simpl.
    split; [by eauto 10|].
    split; [by rewrite HCasts, <- app_assoc|].
    split.
    + destruct b; [done|]. exists Inst. split; [done|].
      by rewrite orb_false_r in Hb'.
    + intros [|i] J HJ Hi.
      * injection HJ as <-. destruct Hi as [Hi|Hi]; [lia|].
        rewrite bool_decide_eq_false_2 in HU by done. simpl in HU.
        by apply negb_false_iff in HU.
      * simpl in HJ. apply (Hone i); [done|]. right. by destruct Casts.
  - (* [Inst] is skipped *)
    apply orb_false_iff in Hb' as [_ ->].
    exists (Inst :: skipped), new. simpl.
    split; [by eauto 10|]. split; [done|]. split; [done|done].
Qed.

End CastSequenceFacts.
#[local] Arguments castSequence_loop : simpl never.

(** X11: when [getCastsForInductionPHI] succeeds, the recorded casts are the
    last part of the chain of definitions that leads from the latch value
    of the merge node back to the merge node: every instruction of that
    chain lies in the loop and is a binary operator with a loop-invariant
    operand, defined from the next one.  The first recorded cast is where
    the expression of the engine equals the recurrence under the
    predicates; at least one cast is recorded, and every recorded cast
    after the first has exactly one use. *)
Theorem getCastsForInductionPHI_sound (F : Function)
    (PSE : PredicatedScalarEvolution) (Assumed : list InstId)
    (PhiScev AR : SCEV) (CastInsts : list InstId) :
  getCastsForInductionPHI F PSE Assumed PhiScev AR = Done (true, CastInsts) ->
  exists PN start step L Latch LatchVal skipped First rest,
    PhiScev = SCEVUnknown (VInst PN) /\ AR = SCEVAddRecExpr start step L /\
    getLoopLatch L = Some Latch /\
    getIncomingValueForBlock F PN (Some Latch) = Some LatchVal /\
    defChain F L PN LatchVal (skipped ++ CastInsts) /\
    CastInsts = First :: rest /\
    entersCastSequence PSE Assumed AR First = true /\
    (forall Inst, Inst ∈ rest -> hasOneUse F Inst = true).
Proof.
  unfold getCastsForInductionPHI.
  destruct PhiScev as [|[PN| |]| |]; try done.
  destruct AR as [| |start step L|] eqn:HAR; try done.
  destruct (negb (isa_PHINode F PN)); [done|].
  destruct (getLoopLatch L) as [Latch|] eqn:HL; [|done].
  destruct (getIncomingValueForBlock F PN (Some Latch)) as [Val|] eqn:HV;
    [|done].
  intros H.
  apply castLoop_true in H
    as (skipped & new & Hchain & HC & (First & Hhd & Hent) & Hone).
  simpl in HC. subst new.
  destruct CastInsts as [|First' rest]; [done|]. injection Hhd as ->.
  exists PN, start, step, L, Latch, Val, skipped, First, rest.
  repeat (split; [done|]).
  intros Inst [i Hi]%list_elem_of_lookup.
  apply (Hone (S i)); [done|]. left. lia.
Qed.

Lemma getCastsForInductionPHI_sound_witness :
  getCastsForInductionPHI (maskedSumLoop 255) maskedPSE [0]
    (SCEVUnknown (VInst 0)) maskedRecurrence = Done (true, [1]) /\
  exists skipped,
    defChain (maskedSumLoop 255) loop1 0 (VInst 2) (skipped ++ [1]).
Proof.
  assert (getCastsForInductionPHI (maskedSumLoop 255) maskedPSE [0]
            (SCEVUnknown (VInst 0)) maskedRecurrence = Done (true, [1])) as H
    by (vm_compute; reflexivity).
  split; [exact H|].
  destruct (getCastsForInductionPHI_sound _ _ _ _ _ _ H)
    as (PN & start & step & L & Latch & Val & skipped & First & rest &
        HP & HA & HL & HV & Hchain & _).
  injection HP as <-. injection HA as <- <- <-.
  injection HL as <-. injection HV as <-.
  exists skipped. exact Hchain.
Defined.

(** X12: the bound on the iterations of the loop of
    [getCastsForInductionPHI], four times the number of instructions plus
    two, cuts no search short: whenever the loop ends within some number of
    iterations, it ends within the bound with the same result, so that
    running out of the bound means that the loop of the source does not
    end. *)
Theorem castSequence_loop_enough_fuel (F : Function)
    (PSE : PredicatedScalarEvolution) (Assumed : list InstId) (L : Loop)
    (PN : InstId) (AR : SCEV) (Val : Value) (InCastSequence : bool)
    (CastInsts : list InstId) (fuel : nat) :
  castSequence_loop F PSE Assumed fuel L PN AR Val InCastSequence CastInsts ≠
    OutOfFuel ->
  castSequence_loop F PSE Assumed (castSequenceFuel F) L PN AR Val
    InCastSequence CastInsts =
  castSequence_loop F PSE Assumed fuel L PN AR Val InCastSequence CastInsts.
Proof.
  intros Hne. destruct Val as [Inst|w m|ty n].
  - destruct (castLoop_stepCount _ _ _ _ _ _ _ _ _ _ Hne)
      as (k & Hk & Hsame).
    apply Hsame.
    pose proof (stepCount_bound _ (castStates F) _ _ _
                  (castNext_valid F PSE Assumed L PN AR) Hk).
    pose proof (size_castStates F). unfold castSequenceFuel. lia.
  - destruct fuel; [done|]. unfold castSequenceFuel.
    by rewrite !castLoop_unfold.
  - destruct fuel; [done|]. unfold castSequenceFuel.
    by rewrite !castLoop_unfold.
Qed.

Lemma castSequence_loop_enough_fuel_witness :
  castSequence_loop (maskedSumLoop 255) maskedPSE [0]
    (castSequenceFuel (maskedSumLoop 255)) loop1 0 maskedRecurrence (VInst 2)
    false [] =
  castSequence_loop (maskedSumLoop 255) maskedPSE [0] 3 loop1 0
    maskedRecurrence (VInst 2) false [].
Proof.
  apply (castSequence_loop_enough_fuel (maskedSumLoop 255) maskedPSE [0]
           loop1 0 maskedRecurrence (VInst 2) false [] 3).
  vm_compute. discriminate.
Defined.
(** ** What the worklist loop of the reduction matcher visits *)

Section ReductionVisitFacts.
Variable F : Function.
Variable TheLoop : Loop.
Variable Phi Start : InstId.
Variable FuncFMF : FastMathFlags.

Abbreviation visit := (visitInstruction F TheLoop Phi Start FuncFMF).
Abbreviation reductionLoop := (reductionLoop F TheLoop Phi Start FuncFMF).
Abbreviation reductionTrace := (reductionTrace F TheLoop Phi Start FuncFMF).

(** Induction along the history of a run that ends. *)
Lemma reductionLoop_trace_ind (P : list InstId -> ReductionState -> Prop)
    (fuel : nat) (st stf : ReductionState) (seen : list InstId) :
  (forall seen s Cur W' s',
     P seen s -> st_Worklist s = Cur :: W' ->
     visit Cur (withWorklist s W') = Some s' -> P (seen ++ [Cur]) s') ->
  P seen st ->
  reductionLoop fuel st = Done stf ->
  P (seen ++ (fst <$> reductionTrace fuel st)) stf.
Proof.
  intros Hstep. revert st seen.
  induction fuel as [|fuel IH]; intros st seen HP; simpl; [done|].
  destruct (st_Worklist st) as [|Cur W'] eqn:HW.
  - intros [= <-]. by rewrite app_nil_r.
  - destruct (visit Cur (withWorklist st W')) as [st1|] eqn:Hv; [|done].
    intros HD. rewrite fmap_cons. simpl.
    rewrite (cons_middle Cur), app_assoc.
    apply IH; [|done]. by eapply Hstep.
Qed.

(** What the scan over the users of [Cur] pushes. *)
Lemma scanUsers_pushed Kind Cur Us us us' :
  scanUsers F TheLoop Phi Kind Cur Us us = Some us' ->
  exists new,
    us_PHIs us' ++ us_NonPHIs us' ≡ₚ (us_PHIs us ++ us_NonPHIs us) ++ new /\
    NoDup new /\
    (forall x, x ∈ new ->
       x ∈ Us /\ x ∉ us_VisitedInsts us /\ contains F TheLoop x = true) /\
    us_VisitedInsts us' = us_VisitedInsts us ∪ list_to_set new /\
    (forall UI, UI ∈ Us -> contains F TheLoop UI = true ->
       UI ∈ us_VisitedInsts us').
Proof.
  revert us. induction Us as [|UI Us IH]; intros us; simpl.
  - intros [= <-]. exists []. rewrite app_nil_r.
    split; [done|]. split; [constructor|].
    split; [by intros x ?%not_elem_of_nil|].
    split; [set_solver|]. by intros UI ?%not_elem_of_nil.
  - destruct (scanUser F TheLoop Phi Kind Cur UI us) as [us1|] eqn:H1; [|done].
    intros (new & Hperm & Hnd & Hnew & HV & Hall)%IH.
    apply scanUser_cases in H1
      as [(Hout & HV1 & HP1 & HN1 & _)|
          (Hin & _ & _ & [(Hvis & HV1 & HP1 & HN1)|(Hfresh & HV1 & Hl)])].
    + exists new. rewrite HP1, HN1 in Hperm. rewrite HV1 in *.
      split; [done|]. split; [done|]. split.
      * intros x Hx. destruct (Hnew x Hx) as (? & ? & ?).
        split; [set_solver|done].
      * split; [done|].
        intros UI' [->|Hin']%elem_of_cons Hc; [|by apply Hall].
        unfold contains in Hc. congruence.
    + exists new. rewrite HP1, HN1 in Hperm. rewrite HV1 in *.
      split; [done|]. split; [done|]. split.
      * intros x Hx. destruct (Hnew x Hx) as (? & ? & ?).
        split; [set_solver|done].
      * split; [done|].
        intros UI' [->|Hin']%elem_of_cons Hc; [|by apply Hall].
        set_solver.
    + exists (UI :: new). split.
      { rewrite Hperm.
        destruct Hl as [[-> ->]|[-> ->]].
        - rewrite <- !app_assoc. apply Permutation_app_head. simpl.
          apply Permutation_middle.
        - rewrite <- !app_assoc. simpl. done. }
      split.
      { apply NoDup_cons. split; [|done].
        intros Hx. destruct (Hnew UI Hx) as (_ & Hn & _).
        rewrite HV1 in Hn. set_solver. }
      split.
      { intros x [->|Hx]%elem_of_cons.
        - split; [set_solver|]. split; [done|]. exact Hin.
        - destruct (Hnew x Hx) as (? & Hn & ?).
          split; [set_solver|]. split; [|done].
          rewrite HV1 in Hn. set_solver. }
      split.
      { rewrite HV, HV1. set_solver. }
      intros UI' [->|Hin']%elem_of_cons Hc; [|by apply Hall].
      rewrite HV, HV1. set_solver.
Qed.

Lemma visitInstruction_users Cur st st' :
  visit Cur st = Some st' -> users (inst F Cur) ≠ [].
Proof.
  unfold visitInstruction, use_empty.
  case_bool_decide as Hu; [done|]. done.
Qed.

Lemma visitInvariant_step V0 seen s Cur W' s' :
  visitInvariant F TheLoop Start V0 seen s ->
  st_Worklist s = Cur :: W' ->
  visit Cur (withWorklist s W') = Some s' ->
  visitInvariant F TheLoop Start V0 (seen ++ [Cur]) s'.
Proof.
  intros (Hnd & HV & Hreach & Hclosed) HW Hv.
  pose proof (visitInstruction_users _ _ _ Hv) as Hu.
  apply visitInstruction_scan in Hv
    as (us & Hscan & _ & _ & HV' & HW').
  apply scanUsers_pushed in Hscan
    as (new & Hperm & Hndnew & Hnew & HVus & Hall).
  simpl in *. rewrite HW in *.
  assert (st_Worklist s' ≡ₚ new ++ W') as HWp.
  { rewrite HW'. rewrite app_assoc, <- rev_app_distr.
    transitivity ((us_PHIs us ++ us_NonPHIs us) ++ W').
    - apply Permutation_app_tail. symmetry. apply Permutation_rev.
    - by rewrite Hperm. }
  assert ((seen ++ [Cur]) ++ st_Worklist s' ≡ₚ (seen ++ Cur :: W') ++ new)
    as Hall'.
  { rewrite HWp. rewrite <- !app_assoc. simpl.
    apply Permutation_app_head. constructor.
    apply Permutation_app_comm. }
  split; [|split; [|split]].
  - rewrite Hall'. apply NoDup_app. split; [done|]. split; [|done].
    intros x Hx Hx'. destruct (Hnew x Hx') as (_ & Hn & _).
    rewrite HV in Hn. set_solver.
  - rewrite HV', HVus, HV.
    apply set_eq. intros x.
    rewrite !elem_of_union, !elem_of_list_to_set, Hall', !elem_of_app.
    tauto.
  - intros x Hx. rewrite Hall' in Hx.
    apply elem_of_app in Hx as [Hx|Hx].
    + destruct (Hreach x Hx) as [->|(Hc & p & Hp & Hxp)]; [by left|].
      right. split; [done|]. exists p. split; [set_solver|done].
    + destruct (Hnew x Hx) as (Hxu & _ & Hc).
      right. split; [done|]. exists Cur. split; [set_solver|done].
  - intros p [Hp|Hp]%elem_of_app.
    + destruct (Hclosed p Hp) as [Hup Hcl]. split; [done|].
      intros UI HUI Hc. rewrite HV', HVus.
      apply elem_of_union_l. by apply Hcl.
    + apply list_elem_of_singleton in Hp as ->. split; [done|].
      intros UI HUI Hc. rewrite HV'. by apply Hall.
Qed.

Lemma visitInvariant_initial Kind V0 :
  visitInvariant F TheLoop Start V0 [] (initialState Kind Start V0).
Proof.
  split; [|split; [|split]]; simpl.
  - apply NoDup_singleton.
  - set_solver.
  - intros x ->%list_elem_of_singleton. by left.
  - by intros p ?%not_elem_of_nil.
Qed.

Lemma visitInvariant_final Kind V0 fuel stf :
  reductionLoop fuel (initialState Kind Start V0) = Done stf ->
  visitInvariant F TheLoop Start V0
    (fst <$> reductionTrace fuel (initialState Kind Start V0)) stf /\
  st_Worklist stf = [].
Proof.
  intros HD. split.
  - apply (reductionLoop_trace_ind
             (visitInvariant F TheLoop Start V0) fuel _ stf []); [|..|done].
    + intros seen s Cur W' s'. apply visitInvariant_step.
    + apply visitInvariant_initial.
  - by apply (reductionLoop_Done F TheLoop Phi Start FuncFMF) in HD as [_ ?].
Qed.

End ReductionVisitFacts.
(** ** The visited instructions of a successful match *)

Section VisitedFacts.
Variable F : Function.
Variable TheLoop : Loop.
Variable An : Analyses.

Lemma AddReductionVar_history Phi Kind FuncFMF RedDes :
  AddReductionVar F TheLoop An Phi Kind FuncFMF = Some RedDes ->
  exists Start RecurrenceType V0 CastInsts stf,
    reductionStart F Phi Kind = Some (Start, RecurrenceType, V0, CastInsts) /\
    reductionStartInst F Phi Kind = Start /\
    reductionLoop F TheLoop Phi Start FuncFMF (reductionFuel F)
      (initialState Kind Start V0) = Done stf /\
    reductionHistory F TheLoop Phi Kind FuncFMF =
      reductionTrace F TheLoop Phi Start FuncFMF (reductionFuel F)
        (initialState Kind Start V0) /\
    finishReduction F TheLoop An Phi Start
      (getIncomingValueForBlock F Phi (getLoopPreheader TheLoop))
      RecurrenceType CastInsts stf = Some RedDes.
Proof.
  intros (Start & RT & V0 & CI & stf & _ & _ & HS & HL & HF)%AddReductionVar_inv.
  exists Start, RT, V0, CI, stf.
  unfold reductionStartInst, reductionHistory. rewrite HS.
  by repeat split.
Qed.

Lemma reductionStart_visited Phi Kind Start RecurrenceType V0 CastInsts :
  reductionStart F Phi Kind = Some (Start, RecurrenceType, V0, CastInsts) ->
  forall x, x ∈ V0 -> x = Phi.
Proof.
  unfold reductionStart, lookThroughAnd.
  intros H x Hx.
  repeat (case_match; simplify_eq); set_solver.
Qed.

(** X13: a successful match pops every instruction at most once, starting
    with the start instruction.  Every popped instruction has a user, and
    every one after the start lies in the loop and is a user of a popped
    instruction. *)
Theorem AddReductionVar_visits_once Phi Kind FuncFMF RedDes :
  AddReductionVar F TheLoop An Phi Kind FuncFMF = Some RedDes ->
  let visited := visitedInstructions F TheLoop Phi Kind FuncFMF in
  let Start := reductionStartInst F Phi Kind in
  NoDup visited /\ head visited = Some Start /\
  forall Cur, Cur ∈ visited ->
    users (inst F Cur) ≠ [] /\
    (Cur = Start \/
     (contains F TheLoop Cur = true /\
      exists P, P ∈ visited /\ Cur ∈ users (inst F P))).
Proof.
  intros (Start & RT & V0 & CI & stf & HS & -> & HL & HH & _)%AddReductionVar_history.
  cbv zeta. unfold visitedInstructions. rewrite HH.
  destruct (visitInvariant_final F TheLoop Phi Start FuncFMF Kind V0 _ _ HL)
    as [(Hnd & _ & Hreach & Hclosed) HW].
  rewrite HW, app_nil_r in *.
  split; [done|]. split.
  - unfold reductionFuel in *. simpl in *.
    destruct (visitInstruction F TheLoop Phi Start FuncFMF Start _); done.
  - intros Cur HCur. split; [by apply Hclosed|by apply Hreach].
Qed.

(** X14: the instructions that a successful match has popped are closed
    under users inside the loop: every user of a popped instruction that
    lies in the loop has been popped as well, or is the merge node. *)
Theorem AddReductionVar_visits_all_users Phi Kind FuncFMF RedDes :
  AddReductionVar F TheLoop An Phi Kind FuncFMF = Some RedDes ->
  forall Cur UI,
    Cur ∈ visitedInstructions F TheLoop Phi Kind FuncFMF ->
    UI ∈ users (inst F Cur) ->
    contains F TheLoop UI = true ->
    UI ∈ visitedInstructions F TheLoop Phi Kind FuncFMF \/ UI = Phi.
Proof.
  intros (Start & RT & V0 & CI & stf & HS & _ & HL & HH & _)%AddReductionVar_history.
  unfold visitedInstructions. rewrite HH.
  destruct (visitInvariant_final F TheLoop Phi Start FuncFMF Kind V0 _ _ HL)
    as [(_ & HV & _ & Hclosed) HW].
  rewrite HW, app_nil_r in *.
  intros Cur UI HCur HUI Hc.
  destruct (Hclosed Cur HCur) as [_ Hcl].
  specialize (Hcl UI HUI Hc). rewrite HV in Hcl.
  apply elem_of_union in Hcl as [Hin|Hin].
  - right. by eapply reductionStart_visited.
  - left. by apply elem_of_list_to_set in Hin.
Qed.

End VisitedFacts.

Lemma AddReductionVar_visits_once_witness :
  AddReductionVar sumLoop loop1 noAnalyses 0 RecurKind.Add FMF_none =
    Some sumLoopDescriptor /\
  NoDup (visitedInstructions sumLoop loop1 0 RecurKind.Add FMF_none) /\
  head (visitedInstructions sumLoop loop1 0 RecurKind.Add FMF_none) =
    Some (reductionStartInst sumLoop 0 RecurKind.Add).
Proof.
  assert (AddReductionVar sumLoop loop1 noAnalyses 0 RecurKind.Add FMF_none =
            Some sumLoopDescriptor) as H by (vm_compute; reflexivity).
  split; [exact H|].
  destruct (AddReductionVar_visits_once sumLoop loop1 noAnalyses 0
              RecurKind.Add FMF_none sumLoopDescriptor H) as (Hnd & Hhd & _).
  split; [exact Hnd|exact Hhd].
Defined.

Lemma AddReductionVar_visits_all_users_witness :
  AddReductionVar (maskedSumLoop 255) loop1 (demandedLow 8) 0 RecurKind.Add
    FMF_none = Some maskedSumDescriptor /\
  (2 ∈ visitedInstructions (maskedSumLoop 255) loop1 0 RecurKind.Add FMF_none
   \/ 2 = 0).
Proof.
  assert (AddReductionVar (maskedSumLoop 255) loop1 (demandedLow 8) 0
            RecurKind.Add FMF_none = Some maskedSumDescriptor) as H
    by (vm_compute; reflexivity).
  split; [exact H|].
  apply (AddReductionVar_visits_all_users (maskedSumLoop 255) loop1
           (demandedLow 8) 0 RecurKind.Add FMF_none maskedSumDescriptor H 1 2).
  - clear. vm_compute. set_solver.
  - clear. vm_compute. set_solver.
  - reflexivity.
Defined.
(** ** What a successful match has found on its way *)

Section ReductionFoundFacts.
Variable F : Function.
Variable TheLoop : Loop.
Variable Phi Start : InstId.
Variable FuncFMF : FastMathFlags.

Abbreviation visit := (visitInstruction F TheLoop Phi Start FuncFMF).
Abbreviation reductionLoop := (reductionLoop F TheLoop Phi Start FuncFMF).
Abbreviation reductionTrace := (reductionTrace F TheLoop Phi Start FuncFMF).
Abbreviation reductionStep := (reductionStep F TheLoop Phi Start FuncFMF).

Lemma scanUsers_FoundStartPHI Kind Cur Us us us' :
  scanUsers F TheLoop Phi Kind Cur Us us = Some us' ->
  us_FoundStartPHI us' = true ->
  us_FoundStartPHI us = true \/ (Phi ∈ Us /\ contains F TheLoop Phi = true).
Proof.
  revert us. induction Us as [|UI Us IH]; intros us; simpl.
  - intros [= <-]. by left.
  - destruct (scanUser F TheLoop Phi Kind Cur UI us) as [us1|] eqn:H1; [|done].
    intros H Hf. destruct (IH _ H Hf) as [Hf1|[Hin Hc]];
      [|right; split; [set_solver|done]].
    apply scanUser_cases in H1
      as [(_ & _ & _ & _ & HF1 & _)|(Hin & _ & HF1 & _)].
    + left. congruence.
    + rewrite HF1 in Hf1. case_bool_decide as HUI; [|by left].
      subst UI. right. split; [set_solver|done].
Qed.

(** The two flags that the final check reads are raised by popped
    instructions. *)
Lemma found_flags_step (seen : list InstId) s Cur W' s' :
  ((st_FoundStartPHI s = true ->
    exists C, C ∈ seen /\ Phi ∈ users (inst F C) /\
              contains F TheLoop Phi = true) /\
   (st_FoundReduxOp s = true ->
    exists Op, Op ∈ seen /\ Op ≠ Start /\ isa_PHINode F Op = false)) ->
  st_Worklist s = Cur :: W' ->
  visit Cur (withWorklist s W') = Some s' ->
  (st_FoundStartPHI s' = true ->
   exists C, C ∈ seen ++ [Cur] /\ Phi ∈ users (inst F C) /\
             contains F TheLoop Phi = true) /\
  (st_FoundReduxOp s' = true ->
   exists Op, Op ∈ seen ++ [Cur] /\ Op ≠ Start /\ isa_PHINode F Op = false).
Proof.
  intros [HP HR] HW Hv. split.
  - apply visitInstruction_scan in Hv as (us & Hscan & _ & -> & _).
    intros Hf. apply (scanUsers_FoundStartPHI _ _ _ _ _ Hscan) in Hf
      as [Hf|[Hin Hc]]; simpl in *.
    + destruct (HP Hf) as (C & ? & ? & ?). exists C. set_solver.
    + exists Cur. set_solver.
  - apply visitInstruction_classified in Hv as (_ & _ & ->). simpl.
    intros [Hf|Hf]%orb_true_iff.
    + destruct (HR Hf) as (Op & ? & ? & ?). exists Op. set_solver.
    + apply andb_true_iff in Hf as [Hphi Hne].
      apply negb_true_iff in Hphi. apply bool_decide_eq_true in Hne.
      exists Cur. set_solver.
Qed.

(** What [isRecurrenceInstr] accepts, by opcode, and what it records. *)
Lemma isRecurrenceInstr_opcode I Kind Prev FMF :
  isRecurrence (isRecurrenceInstr F I Kind Prev FMF) = true ->
  opcode F I ∈ kindOpcodes Kind.
Proof.
  unfold isRecurrenceInstr. intros Hrec.
  assert (forall K' : RecurKind.t,
            isRecurrence (InstDesc_flag (bool_decide (Kind = K')) (Some I)
                            None) = true -> Kind = K') as Hflag.
  { intros K' H. simpl in H. by apply bool_decide_eq_true in H. }
  assert (forall R : InstDesc,
    isRecurrence
      (if isIntMinMaxRecurrenceKind Kind ||
          noNaNs FMF && noSignedZeros FMF && isFPMinMaxRecurrenceKind Kind
       then R else InstDesc_flag false (Some I) None) = true ->
    isMinMaxRecurrenceKind Kind = true) as Hmm.
  { intros R H. unfold isMinMaxRecurrenceKind.
    destruct (isIntMinMaxRecurrenceKind Kind); [done|]. simpl in *.
    destruct (isFPMinMaxRecurrenceKind Kind); [done|].
    by rewrite andb_false_r in H. }
  destruct (opcode F I) eqn:Hop; try done;
    try (apply Hflag in Hrec; subst Kind; set_solver);
    try (apply Hmm in Hrec; destruct Kind; try done; set_solver).
  - destruct Kind; set_solver.
  - destruct (bool_decide (Kind = RecurKind.FAdd) ||
              bool_decide (Kind = RecurKind.FMul)) eqn:HK.
    + apply orb_true_iff in HK as [HK|HK];
        apply bool_decide_eq_true in HK; subst Kind; set_solver.
    + apply Hmm in Hrec; destruct Kind; try done; set_solver.
Qed.

Lemma kindOpcodes_invariant Kind0 s :
  kindInvariant Kind0 s -> kindOpcodes (st_Kind s) = kindOpcodes Kind0.
Proof.
  intros [_ HK]. destruct (isMinMaxRecurrenceKind Kind0) eqn:Hmm.
  - destruct Kind0; try done; destruct (st_Kind s); done.
  - by destruct HK as [-> _].
Qed.

Lemma isMinMaxSelectCmpPattern_exact I Prev :
  getExactFPMathInst (isMinMaxSelectCmpPattern F I Prev) = None.
Proof.
  unfold isMinMaxSelectCmpPattern. repeat case_match; done.
Qed.

Lemma isConditionalRdxPattern_exact Kind I :
  getExactFPMathInst (isConditionalRdxPattern F Kind I) = None.
Proof.
  unfold isConditionalRdxPattern. repeat case_match; done.
Qed.

Lemma isRecurrenceInstr_exact I Kind Prev FMF e :
  getExactFPMathInst (isRecurrenceInstr F I Kind Prev FMF) = Some e ->
  (e = I /\ hasAllowReassoc F I = false /\
   opcode F I ∈ fpArithmeticOpcodes) \/
  (opcode F I = Opcode.PHI /\ getExactFPMathInst Prev = Some e).
Proof.
  unfold isRecurrenceInstr, fpArithmeticOpcodes.
  destruct (opcode F I) eqn:Hop; simpl; try done;
    try (destruct (hasAllowReassoc F I) eqn:Hre; [done|];
         intros [= <-]; left; set_solver);
    try (by right);
    try (destruct (_ || _ && _); [by rewrite isMinMaxSelectCmpPattern_exact|];
         done).
  destruct (bool_decide (Kind = RecurKind.FAdd) ||
            bool_decide (Kind = RecurKind.FMul)).
  - by rewrite isConditionalRdxPattern_exact.
  - destruct (_ || _ && _); [by rewrite isMinMaxSelectCmpPattern_exact|done].
Qed.

Lemma exact_step (seen : list InstId) s Cur W' s' :
  (forall e, getExactFPMathInst (st_ReduxDesc s) = Some e ->
     e ∈ seen /\ e ≠ Start /\ hasAllowReassoc F e = false /\
     opcode F e ∈ fpArithmeticOpcodes) ->
  st_Worklist s = Cur :: W' ->
  visit Cur (withWorklist s W') = Some s' ->
  forall e, getExactFPMathInst (st_ReduxDesc s') = Some e ->
    e ∈ seen ++ [Cur] /\ e ≠ Start /\ hasAllowReassoc F e = false /\
    opcode F e ∈ fpArithmeticOpcodes.
Proof.
  intros HP HW Hv e He.
  apply visitInstruction_classified in Hv as (Hc & _). simpl in Hc.
  case_bool_decide as HS.
  - apply classify_kind in Hc as (HRD & _ & _). rewrite HRD in He.
    apply isRecurrenceInstr_exact in He as [(-> & ? & ?)|(_ & He)].
    + split; [set_solver|done].
    + destruct (HP e He) as (? & ? & ? & ?). split; [set_solver|done].
  - injection Hc as Hc _ _. rewrite <- Hc in He.
    destruct (HP e He) as (? & ? & ? & ?). split; [set_solver|done].
Qed.

(** The flags shrink along the loop, and a floating-point arithmetic
    instruction leaves its own flags as an upper bound. *)
Lemma FMF_and_absorb (a X Y : FastMathFlags) :
  FMF_and a X = a -> FMF_and (FMF_and a Y) X = FMF_and a Y.
Proof.
  destruct a as [a1 a2 a3 a4 a5 a6 a7], X as [x1 x2 x3 x4 x5 x6 x7],
           Y as [y1 y2 y3 y4 y5 y6 y7].
  unfold FMF_and. simpl. intros [= H1 H2 H3 H4 H5 H6 H7].
  f_equal;
    [ rewrite <- H1 at 2 | rewrite <- H2 at 2 | rewrite <- H3 at 2
    | rewrite <- H4 at 2 | rewrite <- H5 at 2 | rewrite <- H6 at 2
    | rewrite <- H7 at 2 ];
    rewrite <- !andb_assoc; f_equal; apply andb_comm.
Qed.

Lemma FMF_and_idem (a X : FastMathFlags) :
  FMF_and (FMF_and a X) X = FMF_and a X.
Proof.
  destruct a, X. unfold FMF_and. simpl.
  f_equal; rewrite <- andb_assoc; f_equal; apply andb_diag.
Qed.

Lemma classify_FMF Cur Kind RD FMF RD' FMF' Kind' :
  classify F FuncFMF Cur Kind RD FMF = Some (RD', FMF', Kind') ->
  (FMF' = FMF \/ exists Y, FMF' = FMF_and FMF Y) /\
  (opcode F Cur ∈ fpArithmeticOpcodes ->
   FMF' = FMF_and FMF (getFastMathFlags (inst F Cur))).
Proof.
  unfold classify.
  destruct (isRecurrence (isRecurrenceInstr F Cur Kind RD FuncFMF)) eqn:Hr;
    [|done].
  simpl. intros [= <- <- _]. split.
  - destruct (getPatternInst _) as [P|]; [|by left].
    destruct (_ && _); [|by left]. right. by eexists.
  - intros Hop. unfold fpArithmeticOpcodes in Hop.
    unfold isRecurrenceInstr, isa_FPMathOperator, isa_PHINode,
      isa_SelectInst.
    destruct (opcode F Cur) eqn:HO; try (by set_solver); simpl;
      rewrite !HO; simpl; done.
Qed.

Lemma FMF_bound_step (X : FastMathFlags) (s : ReductionState) Cur W' s' :
  FMF_and (st_FMF s) X = st_FMF s ->
  st_Worklist s = Cur :: W' ->
  visit Cur (withWorklist s W') = Some s' ->
  FMF_and (st_FMF s') X = st_FMF s'.
Proof.
  intros HX HW Hv.
  apply visitInstruction_classified in Hv as (Hc & _). simpl in Hc.
  case_bool_decide as HS.
  - apply classify_FMF in Hc as [[->|[Y ->]] _]; [done|].
    by apply FMF_and_absorb.
  - by injection Hc as _ <- _.
Qed.

End ReductionFoundFacts.

Section FoundFacts.
Variable F : Function.
Variable TheLoop : Loop.
Variable An : Analyses.

(** X15: a successful match has closed the cycle and found an operation:
    the merge node lies in the loop and is a user of a popped instruction,
    and some popped instruction other than the start is not a PHI. *)
Theorem AddReductionVar_closes_cycle Phi Kind FuncFMF RedDes :
  AddReductionVar F TheLoop An Phi Kind FuncFMF = Some RedDes ->
  (exists Cur,
     Cur ∈ visitedInstructions F TheLoop Phi Kind FuncFMF /\
     Phi ∈ users (inst F Cur) /\ contains F TheLoop Phi = true) /\
  (exists Op,
     Op ∈ visitedInstructions F TheLoop Phi Kind FuncFMF /\
     Op ≠ reductionStartInst F Phi Kind /\ isa_PHINode F Op = false).
Proof.
  intros (Start & RT & V0 & CI & stf & HS & -> & HL & HH & HF)%AddReductionVar_history.
  unfold visitedInstructions. rewrite HH.
  apply finishReduction_inv in HF as (_ & HFP & HFR & _).
  pose proof (reductionLoop_trace_ind F TheLoop Phi Start FuncFMF
    (fun seen s =>
       (st_FoundStartPHI s = true ->
        exists C, C ∈ seen /\ Phi ∈ users (inst F C) /\
                  contains F TheLoop Phi = true) /\
       (st_FoundReduxOp s = true ->
        exists Op, Op ∈ seen /\ Op ≠ Start /\ isa_PHINode F Op = false))
    (reductionFuel F) (initialState Kind Start V0) stf []
    (found_flags_step F TheLoop Phi Start FuncFMF)) as Hind.
  destruct Hind as [HP HR]; [done|exact HL|].
  split; [by apply HP|by apply HR].
Qed.

(** X16: every instruction that a successful match has popped after the
    start instruction has an opcode that the candidate kind allows: PHI
    and, for [Add], add and sub; for [Mul], mul; for [Or], [And], [Xor],
    the same operation; for [FAdd], fadd, fsub and select; for [FMul], fmul,
    fdiv and select; for a min/max kind, icmp, fcmp and select. *)
Theorem AddReductionVar_visited_opcodes Phi Kind FuncFMF RedDes :
  AddReductionVar F TheLoop An Phi Kind FuncFMF = Some RedDes ->
  forall Cur,
    Cur ∈ visitedInstructions F TheLoop Phi Kind FuncFMF ->
    Cur ≠ reductionStartInst F Phi Kind ->
    opcode F Cur ∈ kindOpcodes Kind.
Proof.
  intros (Start & RT & V0 & CI & stf & HS & -> & HL & HH & HF)%AddReductionVar_history.
  unfold visitedInstructions. rewrite HH.
  intros Cur [[C st'] [-> Hin]]%list_elem_of_fmap HCur. cbn [fst] in *.
  destruct (reductionTrace_steps _ _ _ _ _ _ _ _ _ _ HL Hin)
    as (s & W' & Hrtc & HW & Hv & _).
  pose proof (kindInvariant_rtc F TheLoop Phi Start FuncFMF Kind _ _ Hrtc
                (initialState_kindInvariant Kind Start V0)) as HK.
  apply visitInstruction_classified in Hv as (Hc & _). simpl in Hc.
  rewrite bool_decide_eq_true_2 in Hc by done.
  apply classify_kind in Hc as (HRD & Hrec & _). rewrite HRD in Hrec.
  apply isRecurrenceInstr_opcode in Hrec.
  by rewrite (kindOpcodes_invariant _ _ HK) in Hrec.
Qed.

(** X17: the fast-math flags of the descriptor are contained in the flags of
    every floating-point arithmetic instruction (fadd, fsub, fmul, fdiv)
    that the match has popped after the start instruction: a flag that the
    descriptor carries is set on each of them. *)
Theorem AddReductionVar_FMF_lower_bound Phi Kind FuncFMF RedDes :
  AddReductionVar F TheLoop An Phi Kind FuncFMF = Some RedDes ->
  forall Cur,
    Cur ∈ visitedInstructions F TheLoop Phi Kind FuncFMF ->
    Cur ≠ reductionStartInst F Phi Kind ->
    opcode F Cur ∈ fpArithmeticOpcodes ->
    FMF_and (RecurrenceDescriptor.FMF RedDes)
            (getFastMathFlags (inst F Cur)) =
    RecurrenceDescriptor.FMF RedDes.
Proof.
  intros (Start & RT & V0 & CI & stf & HS & -> & HL & HH & HF)%AddReductionVar_history.
  unfold visitedInstructions. rewrite HH.
  intros Cur [[C st'] [-> Hin]]%list_elem_of_fmap HCur Hop. cbn [fst] in *.
  assert (RecurrenceDescriptor.FMF RedDes = st_FMF stf) as ->.
  { unfold finishReduction in HF.
    destruct (_ && _); [done|]. destruct (_ || _); [done|].
    destruct (st_ExitInstruction stf) as [Exit|]; [|done].
    case_bool_decide.
    - destruct (computeRecurrenceType F An Exit) as [CT IsS].
      case_bool_decide; [done|]. by injection HF as <-.
    - by injection HF as <-. }
  destruct (reductionTrace_steps _ _ _ _ _ _ _ _ _ _ HL Hin)
    as (s & W' & _ & HW & Hv & Hrtc).
  apply (reductionStep_inv F TheLoop Phi Start FuncFMF
           (fun s => FMF_and (st_FMF s) (getFastMathFlags (inst F C)) =
                     st_FMF s) st' stf); [|done|].
  - intros s0 Cur0 W0 s1. apply FMF_bound_step.
  - apply visitInstruction_classified in Hv as (Hc & _). simpl in Hc.
    rewrite bool_decide_eq_true_2 in Hc by done.
    apply classify_FMF in Hc as [_ Hc]. rewrite (Hc Hop).
    apply FMF_and_idem.
Qed.

(** X18: the instruction that the descriptor records as requiring exact
    floating-point math is always one that the match has popped after the
    start instruction, a floating-point arithmetic instruction (fadd, fsub,
    fmul, fdiv) that does not allow reassociation. *)
Theorem AddReductionVar_exact_fp_inst Phi Kind FuncFMF RedDes e :
  AddReductionVar F TheLoop An Phi Kind FuncFMF = Some RedDes ->
  RecurrenceDescriptor.ExactFPMathInst RedDes = Some e ->
  e ∈ visitedInstructions F TheLoop Phi Kind FuncFMF /\
  e ≠ reductionStartInst F Phi Kind /\
  hasAllowReassoc F e = false /\
  opcode F e ∈ fpArithmeticOpcodes.
Proof.
  intros (Start & RT & V0 & CI & stf & HS & -> & HL & HH & HF)%AddReductionVar_history.
  unfold visitedInstructions. rewrite HH.
  apply finishReduction_inv in HF as (_ & _ & _ & _ & _ & -> & _).
  pose proof (reductionLoop_trace_ind F TheLoop Phi Start FuncFMF
    (fun seen s =>
       forall e, getExactFPMathInst (st_ReduxDesc s) = Some e ->
         e ∈ seen /\ e ≠ Start /\ hasAllowReassoc F e = false /\
         opcode F e ∈ fpArithmeticOpcodes)
    (reductionFuel F) (initialState Kind Start V0) stf []
    (exact_step F TheLoop Phi Start FuncFMF)) as Hind.
  intros He. apply Hind; [done|exact HL|exact He].
Qed.

(** X19: the kind of the descriptor is the candidate kind, unless the
    candidate is a min/max kind: then it is a min/max kind, the one of the
    select that the match met last. *)
Theorem AddReductionVar_descriptor_kind Phi Kind FuncFMF RedDes :
  AddReductionVar F TheLoop An Phi Kind FuncFMF = Some RedDes ->
  if isMinMaxRecurrenceKind Kind
  then isMinMaxRecurrenceKind (RecurrenceDescriptor.Kind RedDes) = true
  else RecurrenceDescriptor.Kind RedDes = Kind.
Proof.
  intros H.
  destruct (isMinMaxRecurrenceKind Kind) eqn:Hmm;
    [|by eapply AddReductionVar_kind_not_minmax].
  apply AddReductionVar_inv in H
    as (Start & RT & V0 & CI & stf & _ & _ & _ & HL & HF).
  apply runReductionLoop_kindInvariant in HL as [_ HK].
  rewrite Hmm in HK.
  apply finishReduction_inv in HF as (_ & _ & _ & _ & -> & _). done.
Qed.

End FoundFacts.
Section EntryFacts.
Variable F : Function.
Variable TheLoop : Loop.
Variable An : Analyses.

Lemma finishReduction_fields Phi Start RdxStart RecurrenceType CastInsts stf
    RedDes :
  finishReduction F TheLoop An Phi Start RdxStart RecurrenceType CastInsts stf
    = Some RedDes ->
  RecurrenceDescriptor.StartValue RedDes = RdxStart /\
  (Start = Phi -> RecurrenceDescriptor.IsSigned RedDes = false).
Proof.
  unfold finishReduction.
  destruct (_ && _); [done|]. destruct (_ || _); [done|].
  destruct (st_ExitInstruction stf) as [Exit|]; [|done].
  case_bool_decide as Hne.
  - destruct (computeRecurrenceType F An Exit) as [CT IsS].
    case_bool_decide; [done|]. intros [= <-]. simpl. by split.
  - intros [= <-]. simpl. by split.
Qed.

(** X20: a merge node is matched only if it has two incoming values and
    lies in the loop header, and only against a kind that fits its type: a
    floating-point kind for a floating-point type, an integer kind for an
    integer type; a merge node of any other type, a pointer say, is never
    matched.  The start value of the descriptor is the value coming from
    the preheader.  The recurrence type is the type of the merge node, or,
    for an arithmetic integer kind whose start was moved onto a masking
    AND, an integer type of positive width; when the start was moved, the
    recurrence type and the signedness are what [computeRecurrenceType]
    gives for the exit instruction, otherwise the descriptor is unsigned. *)
Theorem AddReductionVar_entry_conditions Phi Kind FuncFMF RedDes :
  AddReductionVar F TheLoop An Phi Kind FuncFMF = Some RedDes ->
  getNumIncomingValues F Phi = 2 /\
  parent F Phi = getHeader TheLoop /\
  RecurrenceDescriptor.StartValue RedDes =
    getIncomingValueForBlock F Phi (getLoopPreheader TheLoop) /\
  ((isFloatingPointTy (getType (inst F Phi)) = true /\
    isFloatingPointRecurrenceKind Kind = true /\
    RecurrenceDescriptor.RecurrenceType RedDes = getType (inst F Phi)) \/
   (isIntegerTy (getType (inst F Phi)) = true /\
    isIntegerRecurrenceKind Kind = true /\
    (RecurrenceDescriptor.RecurrenceType RedDes = getType (inst F Phi) \/
     (isArithmeticRecurrenceKind Kind = true /\
      exists n, (0 < n)%Z /\
        RecurrenceDescriptor.RecurrenceType RedDes = IntegerTy n)))) /\
  (reductionStartInst F Phi Kind ≠ Phi ->
   computeRecurrenceType F An (RecurrenceDescriptor.LoopExitInstr RedDes) =
     (RecurrenceDescriptor.RecurrenceType RedDes,
      RecurrenceDescriptor.IsSigned RedDes)) /\
  (reductionStartInst F Phi Kind = Phi ->
   RecurrenceDescriptor.IsSigned RedDes = false).
Proof.
  intros H.
  pose proof H as (Start & RT & V0 & CI & stf & Hnum & Hpar & HS & HL & HF)%AddReductionVar_inv.
  split; [done|]. split; [done|].
  assert (reductionStartInst F Phi Kind = Start) as ->
    by (unfold reductionStartInst; by rewrite HS).
  pose proof HF as (_ & _ & _ & _ & _ & _ & _ & HRT & Hcomp)%finishReduction_inv.
  pose proof HF as [HSV HSigned]%finishReduction_fields.
  split; [done|].
  split.
  { rewrite HRT. unfold reductionStart in HS.
    destruct (isFloatingPointTy (getType (inst F Phi))) eqn:Hfp.
    - left. destruct (negb (isFloatingPointRecurrenceKind Kind)) eqn:HK;
        [done|]. apply negb_false_iff in HK. by simplify_eq.
    - destruct (isIntegerTy (getType (inst F Phi))) eqn:Hint; [|done].
      right. destruct (negb (isIntegerRecurrenceKind Kind)) eqn:HK; [done|].
      apply negb_false_iff in HK. split; [done|]. split; [done|].
      destruct (isArithmeticRecurrenceKind Kind) eqn:HA;
        [|left; by simplify_eq].
      injection HS as HS. unfold lookThroughAnd in HS.
      repeat (case_match; simplify_eq); try (by left).
      all: right; split; [done|]; eexists;
        split; [|symmetry; eassumption]; by apply Z.ltb_lt. }
  split; [by rewrite HRT|done].
Qed.

End EntryFacts.

Lemma AddReductionVar_entry_conditions_witness :
  AddReductionVar (maskedSumLoop 255) loop1 (demandedLow 8) 0 RecurKind.Add
    FMF_none = Some maskedSumDescriptor /\
  getNumIncomingValues (maskedSumLoop 255) 0 = 2 /\
  parent (maskedSumLoop 255) 0 = getHeader loop1.
Proof.
  assert (AddReductionVar (maskedSumLoop 255) loop1 (demandedLow 8) 0
            RecurKind.Add FMF_none = Some maskedSumDescriptor) as H
    by (vm_compute; reflexivity).
  split; [exact H|].
  destruct (AddReductionVar_entry_conditions _ _ _ _ _ _ _ H)
    as (Hnum & Hpar & _).
  split; [exact Hnum|exact Hpar].
Defined.

Lemma AddReductionVar_closes_cycle_witness :
  AddReductionVar sumLoop loop1 noAnalyses 0 RecurKind.Add FMF_none =
    Some sumLoopDescriptor /\
  exists Cur,
    Cur ∈ visitedInstructions sumLoop loop1 0 RecurKind.Add FMF_none /\
    0 ∈ users (inst sumLoop Cur) /\ contains sumLoop loop1 0 = true.
Proof.
  assert (AddReductionVar sumLoop loop1 noAnalyses 0 RecurKind.Add FMF_none =
            Some sumLoopDescriptor) as H by (vm_compute; reflexivity).
  split; [exact H|].
  exact (proj1 (AddReductionVar_closes_cycle _ _ _ _ _ _ _ H)).
Defined.

Lemma AddReductionVar_visited_opcodes_witness :
  AddReductionVar sumLoop loop1 noAnalyses 0 RecurKind.Add FMF_none =
    Some sumLoopDescriptor /\
  opcode sumLoop 1 ∈ kindOpcodes RecurKind.Add.
Proof.
  assert (AddReductionVar sumLoop loop1 noAnalyses 0 RecurKind.Add FMF_none =
            Some sumLoopDescriptor) as H by (vm_compute; reflexivity).
  split; [exact H|].
  apply (AddReductionVar_visited_opcodes _ _ _ _ _ _ _ H 1).
  - clear. vm_compute. set_solver.
  - vm_compute. discriminate.
Defined.

Lemma AddReductionVar_FMF_lower_bound_witness :
  AddReductionVar strictFAddLoop loop1 noAnalyses 0 RecurKind.FAdd FMF_none =
    Some strictFAddDescriptor /\
  FMF_and (RecurrenceDescriptor.FMF strictFAddDescriptor)
          (getFastMathFlags (inst strictFAddLoop 1)) =
  RecurrenceDescriptor.FMF strictFAddDescriptor.
Proof.
  assert (AddReductionVar strictFAddLoop loop1 noAnalyses 0 RecurKind.FAdd
            FMF_none = Some strictFAddDescriptor) as H
    by (vm_compute; reflexivity).
  split; [exact H|].
  apply (AddReductionVar_FMF_lower_bound _ _ _ _ _ _ _ H 1).
  - clear. vm_compute. set_solver.
  - vm_compute. discriminate.
  - clear. vm_compute. set_solver.
Defined.

Lemma AddReductionVar_exact_fp_inst_witness :
  AddReductionVar strictFAddLoop loop1 noAnalyses 0 RecurKind.FAdd FMF_none =
    Some strictFAddDescriptor /\
  1 ∈ visitedInstructions strictFAddLoop loop1 0 RecurKind.FAdd FMF_none /\
  hasAllowReassoc strictFAddLoop 1 = false.
Proof.
  assert (AddReductionVar strictFAddLoop loop1 noAnalyses 0 RecurKind.FAdd
            FMF_none = Some strictFAddDescriptor) as H
    by (vm_compute; reflexivity).
  split; [exact H|].
  destruct (AddReductionVar_exact_fp_inst _ _ _ _ _ _ _ 1 H eq_refl)
    as (Hin & _ & Hre & _).
  split; [exact Hin|exact Hre].
Defined.

Lemma AddReductionVar_descriptor_kind_witness :
  AddReductionVar sminLoop loop1 noAnalyses 0 RecurKind.UMax FMF_none =
    Some sminLoopDescriptor /\
  isMinMaxRecurrenceKind (RecurrenceDescriptor.Kind sminLoopDescriptor) = true.
Proof.
  assert (AddReductionVar sminLoop loop1 noAnalyses 0 RecurKind.UMax FMF_none
            = Some sminLoopDescriptor) as H by (vm_compute; reflexivity).
  split; [exact H|].
  exact (AddReductionVar_descriptor_kind _ _ _ _ _ _ _ H).
Defined.
(** ** What the matcher requires of the operands of a popped instruction *)

Section OperandFacts.
Variable F : Function.
Variable TheLoop : Loop.
Variable Phi Start : InstId.
Variable FuncFMF : FastMathFlags.

Abbreviation visit := (visitInstruction F TheLoop Phi Start FuncFMF).
Abbreviation reductionLoop := (reductionLoop F TheLoop Phi Start FuncFMF).
Abbreviation reductionTrace := (reductionTrace F TheLoop Phi Start FuncFMF).
Abbreviation reductionStep := (reductionStep F TheLoop Phi Start FuncFMF).

Lemma visitInstruction_visited_mono Cur st st' :
  visit Cur st = Some st' -> st_VisitedInsts st ⊆ st_VisitedInsts st'.
Proof.
  intros (us & Hscan & _ & _ & -> & _)%visitInstruction_scan.
  apply scanUsers_pushed in Hscan as (new & _ & _ & _ & -> & _).
  simpl. set_solver.
Qed.

Lemma visited_mono_rtc (V : gset InstId) st stf :
  rtc reductionStep st stf ->
  V ⊆ st_VisitedInsts st -> V ⊆ st_VisitedInsts stf.
Proof.
  apply (reductionStep_inv F TheLoop Phi Start FuncFMF
           (fun s => V ⊆ st_VisitedInsts s)).
  intros s Cur W' s' HV _ Hv.
  apply visitInstruction_visited_mono in Hv. simpl in Hv. set_solver.
Qed.

(** The checks on the operands of the popped instruction. *)
Lemma visitInstruction_operands Cur st st' :
  visit Cur st = Some st' ->
  (isa_PHINode F Cur = true -> Cur ≠ Phi ->
   parent F Cur ≠ parent F Phi /\
   areAllUsesIn F Cur (st_VisitedInsts st) = true) /\
  (isCommutative F Cur = false -> isa_PHINode F Cur = false ->
   isa_SelectInst F Cur = false -> isa_ICmpInst F Cur = false ->
   isa_FCmpInst F Cur = false ->
   countInst (st_VisitedInsts st) (getOperandInst F Cur 0) = true).
Proof.
  unfold visitInstruction.
  destruct (use_empty F Cur); [done|].
  destruct (bool_decide (Cur ≠ Phi) && isa_PHINode F Cur &&
            bool_decide (parent F Cur = parent F Phi)) eqn:Hblock; [done|].
  destruct (negb (isCommutative F Cur) && negb (isa_PHINode F Cur) &&
            negb (isa_SelectInst F Cur) && negb (isa_ICmpInst F Cur) &&
            negb (isa_FCmpInst F Cur) &&
            negb (countInst (st_VisitedInsts st) (getOperandInst F Cur 0)))
    eqn:Hcomm; [done|].
  destruct (if bool_decide (Cur ≠ Start)
            then classify F FuncFMF Cur (st_Kind st) (st_ReduxDesc st)
                   (st_FMF st)
            else Some (st_ReduxDesc st, st_FMF st, st_Kind st))
    as [[[RD FMF'] K']|]; [|done].
  destruct (_ && hasMultipleUsesOf F Cur (st_VisitedInsts st) 2); [done|].
  destruct (_ && hasMultipleUsesOf F Cur (st_VisitedInsts st) 1); [done|].
  destruct (isa_PHINode F Cur && bool_decide (Cur ≠ Phi) &&
            negb (areAllUsesIn F Cur (st_VisitedInsts st))) eqn:Hall; [done|].
  intros _. split.
  - intros HPHI Hne. rewrite HPHI in *.
    rewrite (bool_decide_eq_true_2 (Cur ≠ Phi)) in * by done.
    simpl in *. split.
    + by apply bool_decide_eq_false in Hblock.
    + by apply negb_false_iff in Hall.
  - intros H1 H2 H3 H4 H5. rewrite H1, H2, H3, H4, H5 in Hcomm.
    simpl in Hcomm. by apply negb_false_iff in Hcomm.
Qed.

End OperandFacts.

Section OperandTheorems.
Variable F : Function.
Variable TheLoop : Loop.
Variable An : Analyses.

(** The instructions that were visited when [Cur] was popped have been
    popped by the end, or are the merge node. *)
Lemma visited_when_popped Phi Kind FuncFMF RedDes Cur st' :
  AddReductionVar F TheLoop An Phi Kind FuncFMF = Some RedDes ->
  (Cur, st') ∈ reductionHistory F TheLoop Phi Kind FuncFMF ->
  exists s W',
    visitInstruction F TheLoop Phi (reductionStartInst F Phi Kind) FuncFMF
      Cur (withWorklist s W') = Some st' /\
    forall x, x ∈ st_VisitedInsts s ->
      x ∈ visitedInstructions F TheLoop Phi Kind FuncFMF \/ x = Phi.
Proof.
  intros (Start & RT & V0 & CI & stf & HS & -> & HL & HH & _)%AddReductionVar_history.
  unfold visitedInstructions. rewrite HH. intros Hin.
  destruct (reductionTrace_steps _ _ _ _ _ _ _ _ _ _ HL Hin)
    as (s & W' & _ & HW & Hv & Hrtc).
  exists s, W'. split; [done|].
  destruct (visitInvariant_final F TheLoop Phi Start FuncFMF Kind V0 _ _ HL)
    as [(_ & HV & _) HWf].
  rewrite HWf, app_nil_r in HV.
  pose proof (visitInstruction_visited_mono _ _ _ _ _ _ _ _ Hv) as Hm.
  simpl in Hm.
  pose proof (visited_mono_rtc F TheLoop Phi Start FuncFMF _ _ _ Hrtc Hm)
    as Hm'.
  intros x Hx. apply Hm' in Hx. rewrite HV in Hx.
  apply elem_of_union in Hx as [Hx|Hx].
  - right. by eapply reductionStart_visited.
  - left. by apply elem_of_list_to_set in Hx.
Qed.

(** X21: every PHI that a successful match has popped, other than the merge
    node, lies in another block than the merge node, and each of its
    incoming values is an instruction that the match has popped, or the
    merge node. *)
Theorem AddReductionVar_inner_phis Phi Kind FuncFMF RedDes :
  AddReductionVar F TheLoop An Phi Kind FuncFMF = Some RedDes ->
  forall Cur,
    Cur ∈ visitedInstructions F TheLoop Phi Kind FuncFMF ->
    isa_PHINode F Cur = true -> Cur ≠ Phi ->
    parent F Cur ≠ parent F Phi /\
    forall V, V ∈ operands (inst F Cur) ->
      exists J, V = VInst J /\
        (J ∈ visitedInstructions F TheLoop Phi Kind FuncFMF \/ J = Phi).
Proof.
  intros H Cur [[C st'] [-> Hin]]%list_elem_of_fmap HPHI Hne.
  destruct (visited_when_popped _ _ _ _ _ _ H Hin) as (s & W' & Hv & Hvis).
  apply visitInstruction_operands in Hv as [Hphi _].
  destruct (Hphi HPHI Hne) as [Hblock Hall]. split; [done|].
  intros V HV. unfold areAllUsesIn in Hall.
  rewrite forallb_forall in Hall.
  apply list_elem_of_In, Hall in HV.
  destruct V as [J| |]; try done. exists J. split; [done|].
  apply Hvis. by apply bool_decide_eq_true in HV.
Qed.

(** X22: an instruction that a successful match has popped and that is
    neither commutative nor a PHI, a select or a compare (a [sub], [fsub]
    or [fdiv]) has as its first operand an instruction that the match has
    popped, or the merge node: the running value is never subtracted from
    or divided into another value. *)
Theorem AddReductionVar_noncommutative_operand Phi Kind FuncFMF RedDes :
  AddReductionVar F TheLoop An Phi Kind FuncFMF = Some RedDes ->
  forall Cur,
    Cur ∈ visitedInstructions F TheLoop Phi Kind FuncFMF ->
    isCommutative F Cur = false -> isa_PHINode F Cur = false ->
    isa_SelectInst F Cur = false -> isa_CmpInst F Cur = false ->
    exists J, getOperand F Cur 0 = Some (VInst J) /\
      (J ∈ visitedInstructions F TheLoop Phi Kind FuncFMF \/ J = Phi).
Proof.
  intros H Cur [[C st'] [-> Hin]]%list_elem_of_fmap Hc HPHI Hsel Hcmp.
  apply orb_false_iff in Hcmp as [HI HF].
  destruct (visited_when_popped _ _ _ _ _ _ H Hin) as (s & W' & Hv & Hvis).
  apply visitInstruction_operands in Hv as [_ Hop].
  specialize (Hop Hc HPHI Hsel HI HF). simpl in *.
  unfold getOperandInst in Hop.
  destruct (getOperand F C 0) as [[J| |]|]; try done.
  exists J. split; [done|]. apply Hvis. by apply bool_decide_eq_true in Hop.
Qed.

End OperandTheorems.

Lemma AddReductionVar_inner_phis_witness :
  AddReductionVar conditionalSumLoop loop134 noAnalyses 0 RecurKind.Add
    FMF_none = Some conditionalSumDescriptor /\
  parent conditionalSumLoop 2 ≠ parent conditionalSumLoop 0.
Proof.
  assert (AddReductionVar conditionalSumLoop loop134 noAnalyses 0
            RecurKind.Add FMF_none = Some conditionalSumDescriptor) as H
    by (vm_compute; reflexivity).
  split; [exact H|].
  assert (2 ∈ visitedInstructions conditionalSumLoop loop134 0 RecurKind.Add
                FMF_none) as Hin by (clear; vm_compute; set_solver).
  assert (2 ≠ 0) as Hne by discriminate.
  exact (proj1 (AddReductionVar_inner_phis conditionalSumLoop loop134
                  noAnalyses 0 RecurKind.Add FMF_none
                  conditionalSumDescriptor H 2 Hin eq_refl Hne)).
Defined.

Lemma AddReductionVar_noncommutative_operand_witness :
  AddReductionVar differenceLoop loop1 noAnalyses 0 RecurKind.Add FMF_none =
    Some sumLoopDescriptor /\
  exists J, getOperand differenceLoop 1 0 = Some (VInst J) /\
    (J ∈ visitedInstructions differenceLoop loop1 0 RecurKind.Add FMF_none \/
     J = 0).
Proof.
  assert (AddReductionVar differenceLoop loop1 noAnalyses 0 RecurKind.Add
            FMF_none = Some sumLoopDescriptor) as H
    by (vm_compute; reflexivity).
  split; [exact H|].
  assert (1 ∈ visitedInstructions differenceLoop loop1 0 RecurKind.Add
                FMF_none) as Hin by (clear; vm_compute; set_solver).
  exact (AddReductionVar_noncommutative_operand differenceLoop loop1
           noAnalyses 0 RecurKind.Add FMF_none sumLoopDescriptor H 1 Hin
           eq_refl eq_refl eq_refl eq_refl).
Defined.
(** ** What the sinker moves and what it leaves in place *)

Lemma set_find_true (I : InstId) (S : list InstId) :
  set_find I S = true -> I ∈ S.
Proof.
  induction S as [|J S IH]; [done|]. simpl. unfold comesBefore.
  destruct (Nat.ltb_spec I J); [done|].
  destruct (Nat.ltb_spec J I).
  - intros ?%IH. set_solver.
  - intros _. assert (I = J) as -> by lia. set_solver.
Qed.

Section SinkerSafety.
Variable F : Function.
Variable dominates : InstId -> InstId -> bool.
Variable SinkAfter : MapVector.
Variable PhiBB : BlockId.
Variable Previous Phi : InstId.

Abbreviation TryToPush :=
  (TryToPushSinkCandidate F dominates SinkAfter PhiBB Previous).
Abbreviation pushUsers := (pushUsers F dominates SinkAfter PhiBB Previous).
Abbreviation sinkLoop := (sinkLoop F dominates SinkAfter PhiBB Previous).
Abbreviation stays := (staysInPlace F dominates SinkAfter PhiBB Previous).
Abbreviation canSink := (sinkable F dominates SinkAfter PhiBB Previous).
Abbreviation sinkerInv :=
  (sinkerInvariant F dominates SinkAfter PhiBB Previous Phi).

(** The outcomes of one call of the lambda. *)
Lemma TryToPush_outcome C InstrsToSink WorkList st' :
  TryToPush C (InstrsToSink, WorkList) = Some st' ->
  (st' = (InstrsToSink, WorkList) /\ (C ∈ InstrsToSink \/ stays C)) \/
  (st' = (set_insert C InstrsToSink, C :: WorkList) /\ canSink C).
Proof.
  unfold TryToPushSinkCandidate, staysInPlace, sinkable.
  destruct (bool_decide (parent F C = PhiBB) && set_find C InstrsToSink)
    eqn:Hfound.
  { intros [= <-]. left. split; [done|]. left.
    apply andb_true_iff in Hfound as [_ Hf]. by apply set_find_true. }
  clear Hfound.
  destruct (decide (Previous = C)) as [HPrev|HPrev];
    [by rewrite bool_decide_eq_true_2|].
  rewrite (bool_decide_eq_false_2 (Previous = C)) by done.
  destruct (dominates Previous C) eqn:Hdom.
  { intros [= <-]. left. split; [done|]. right. split; [done|]. by left. }
  destruct (decide (parent F C = PhiBB)) as [HBB|HBB];
    [|by rewrite bool_decide_eq_true_2].
  rewrite (bool_decide_eq_false_2 (parent F C ≠ PhiBB)) by (by intros ?).
  destruct (mayHaveSideEffects (inst F C)) eqn:Hside; [done|].
  destruct (mayReadFromMemory (inst F C)) eqn:Hmem; [done|].
  destruct (isTerminator F C) eqn:Hterm; [done|]. simpl.
  destruct (mv_find SinkAfter C) as [A|] eqn:HSA;
    [by rewrite bool_decide_eq_true_2|].
  rewrite bool_decide_eq_false_2 by (by intros ?).
  destruct (isa_PHINode F C) eqn:HPHI.
  - intros [= <-]. left. split; [done|]. right. split; [done|]. right. done.
  - intros [= <-]. right. split; [done|]. repeat split; try done.
Qed.

Lemma TryToPush_sinkerInvariant (Current C : InstId)
    (handled : list InstId) st st' :
  TryToPush C st = Some st' ->
  C ∈ users (inst F Current) ->
  sinkerInv (Some Current) handled st ->
  sinkerInv (Some Current) (handled ++ [C]) st'.
Proof.
  destruct st as [Is W].
  intros Hpush HC (Hord & Hsink & Hwl & Hclosed & Hhandled).
  apply TryToPush_outcome in Hpush as [[-> Hdone]|[-> HcanSink]].
  - split; [done|]. split; [done|]. split; [done|]. split; [done|].
    intros U [HU|HU]%elem_of_app; [by apply Hhandled|].
    by apply list_elem_of_singleton in HU as ->.
  - assert (forall P, P = Phi \/ P ∈ Is ->
              P = Phi \/ P ∈ set_insert C Is) as Hmono.
    { intros P [?|?]; [by left|right; apply set_insert_elem; by right]. }
    assert (forall U, U ∈ Is \/ stays U ->
              U ∈ set_insert C Is \/ stays U) as Hmono'.
    { intros U [?|?]; [left; apply set_insert_elem; by right|by right]. }
    split; [by apply set_insert_ordered|].
    split.
    { intros Inst [->|Hin]%set_insert_elem.
      - split; [done|]. exists Current. split; [|done].
        apply Hmono, Hwl. by right.
      - destruct (Hsink Inst Hin) as (? & P & HP & ?). split; [done|].
        exists P. split; [by apply Hmono|done]. }
    split.
    { intros P [[->|HP]%elem_of_cons|HP].
      - right. apply set_insert_elem. by left.
      - apply Hmono, Hwl. by left.
      - apply Hmono, Hwl. by right. }
    split.
    { intros P [->|[->|Hin]%set_insert_elem].
      - destruct (Hclosed Phi (or_introl eq_refl)) as [?|[?|Hall]];
          [by left|right; left; set_solver|].
        right. right. intros U HU. by apply Hmono', Hall.
      - right. left. set_solver.
      - destruct (Hclosed P (or_intror Hin)) as [?|[?|Hall]];
          [by left|right; left; set_solver|].
        right. right. intros U HU. by apply Hmono', Hall. }
    intros U [HU|HU]%elem_of_app.
    + by apply Hmono', Hhandled.
    + apply list_elem_of_singleton in HU as ->. left.
      apply set_insert_elem. by left.
Qed.

Lemma pushUsers_sinkerInvariant (Current : InstId) (Us handled : list InstId)
    st st' :
  pushUsers Us st = Some st' ->
  (forall U, U ∈ Us -> U ∈ users (inst F Current)) ->
  sinkerInv (Some Current) handled st ->
  sinkerInv (Some Current) (handled ++ Us) st'.
Proof.
  revert handled st. induction Us as [|C Us IH]; intros handled st; simpl.
  - intros [= <-] _ ?. by rewrite app_nil_r.
  - destruct (TryToPush C st) as [st1|] eqn:H1; [|done].
    intros Hpush HUs Hinv.
    rewrite (cons_middle C), app_assoc.
    apply (IH (handled ++ [C]) st1); [done|..].
    + intros U HU. apply HUs. set_solver.
    + eapply TryToPush_sinkerInvariant; [done| |done].
      apply HUs. set_solver.
Qed.

Lemma sinkLoop_sinkerInvariant fuel st InstrsToSink :
  sinkLoop fuel st = Done InstrsToSink ->
  sinkerInv None [] st ->
  sinkerInv None [] (InstrsToSink, []).
Proof.
  revert st. induction fuel as [|fuel IH]; intros [Is W]; simpl; [done|].
  destruct W as [|Current W'].
  - by intros [= <-].
  - destruct (pushUsers (users (inst F Current)) (Is, W')) as [st1|] eqn:HP;
      [|done].
    intros HL (Hord & Hsink & Hwl & Hclosed & _).
    apply (IH st1 HL).
    assert (sinkerInv (Some Current) [] (Is, W')) as Hscan.
    { split; [done|]. split; [done|]. split.
      - intros P [HP'|[= ->]]; apply Hwl; left; set_solver.
      - split; [|by intros U ?%not_elem_of_nil].
        intros P HP'. destruct (Hclosed P HP') as [?|[HW|?]]; [done| |by auto].
        apply elem_of_cons in HW as [->|?]; auto. }
    apply (pushUsers_sinkerInvariant _ _ _ _ _ HP) in Hscan; [|done].
    destruct st1 as [Is1 W1].
    destruct Hscan as (Hord1 & Hsink1 & Hwl1 & Hclosed1 & Hhandled1).
    simpl in Hhandled1.
    split; [done|]. split; [done|]. split.
    { intros P [HP'|?]; [|done]. apply Hwl1. by left. }
    split; [|by intros U ?%not_elem_of_nil].
    intros P HP'. destruct (Hclosed1 P HP') as [[= ->]|[?|?]]; auto.
Qed.

End SinkerSafety.

Section SinkerTheorems.
Variable F : Function.
Variable TheLoop : Loop.
Variable dominates : InstId -> InstId -> bool.
Variable SinkAfter : MapVector.

Lemma isFirstOrderRecurrence_inv Phi M :
  isFirstOrderRecurrence F TheLoop dominates SinkAfter Phi = (true, M) ->
  exists Previous InstrsToSink,
    firstOrderPrevious F TheLoop SinkAfter Phi = Some Previous /\
    sinkLoop F dominates SinkAfter (parent F Phi) Previous (sinkFuel F)
      ([], [Phi]) = Done InstrsToSink /\
    M = commitSinks InstrsToSink SinkAfter Previous /\
    sinkerInvariant F dominates SinkAfter (parent F Phi) Previous Phi None []
      (InstrsToSink, []).
Proof.
  unfold isFirstOrderRecurrence.
  destruct (firstOrderPrevious F TheLoop SinkAfter Phi) as [Previous|];
    [|done].
  destruct (sinkLoop F dominates SinkAfter (parent F Phi) Previous
              (sinkFuel F) ([], [Phi])) as [Is| |] eqn:HL; [|done|done].
  intros [= <-]. exists Previous, Is. repeat (split; [done|]).
  apply (sinkLoop_sinkerInvariant _ _ _ _ _ _ _ _ _ HL).
  split; [constructor|]. split; [by intros ? ?%not_elem_of_nil|].
  split.
  - intros P [HP|?]; [|done]. left. set_solver.
  - split; [|by intros ? ?%not_elem_of_nil].
    intros P [->|HP]; [right; left; set_solver|set_solver].
Qed.

(** X23: every instruction that a successful call schedules for sinking is
    safe to move and needs moving: it lies in the block of the merge node,
    has no side effects, reads no memory, is neither a terminator nor a
    PHI, is not the previous value and is not dominated by it, had no entry
    in [SinkAfter] before, and is a user of the merge node or of another
    scheduled instruction. *)
Theorem isFirstOrderRecurrence_sinks_only_movable Phi M :
  isFirstOrderRecurrence F TheLoop dominates SinkAfter Phi = (true, M) ->
  exists Previous InstrsToSink,
    firstOrderPrevious F TheLoop SinkAfter Phi = Some Previous /\
    sinkLoop F dominates SinkAfter (parent F Phi) Previous (sinkFuel F)
      ([], [Phi]) = Done InstrsToSink /\
    M = commitSinks InstrsToSink SinkAfter Previous /\
    forall Inst, Inst ∈ InstrsToSink ->
      sinkable F dominates SinkAfter (parent F Phi) Previous Inst /\
      exists P, (P = Phi \/ P ∈ InstrsToSink) /\ Inst ∈ users (inst F P).
Proof.
  intros (Previous & Is & HP & HL & HM & _ & Hsink & _)%isFirstOrderRecurrence_inv.
  by exists Previous, Is.
Qed.

(** X24: after a successful call every user of the merge node, and every
    user of an instruction scheduled for sinking, is itself scheduled, or
    is another instruction than the previous value that the previous value
    dominates already, or is a PHI of the block of the merge node: no user
    on the way is left before the previous value unnoticed. *)
Theorem isFirstOrderRecurrence_covers_all_users Phi M :
  isFirstOrderRecurrence F TheLoop dominates SinkAfter Phi = (true, M) ->
  exists Previous InstrsToSink,
    firstOrderPrevious F TheLoop SinkAfter Phi = Some Previous /\
    sinkLoop F dominates SinkAfter (parent F Phi) Previous (sinkFuel F)
      ([], [Phi]) = Done InstrsToSink /\
    forall P U,
      P = Phi \/ P ∈ InstrsToSink ->
      U ∈ users (inst F P) ->
      U ∈ InstrsToSink \/
      staysInPlace F dominates SinkAfter (parent F Phi) Previous U.
Proof.
  intros (Previous & Is & HP & HL & HM & _ & _ & _ & Hclosed & _)%isFirstOrderRecurrence_inv.
  exists Previous, Is. split; [done|]. split; [done|].
  intros P U HPr HU.
  destruct (Hclosed P HPr) as [?|[?%not_elem_of_nil|Hall]]; [done|done|].
  by apply Hall.
Qed.

End SinkerTheorems.

Lemma isFirstOrderRecurrence_sinks_only_movable_witness :
  isFirstOrderRecurrence lagLoop loop1 blockOrderDominates [(7, 8)] 0 =
    (true, [(7, 8); (1, 3); (2, 1)]) /\
  exists Previous InstrsToSink,
    firstOrderPrevious lagLoop loop1 [(7, 8)] 0 = Some Previous /\
    sinkLoop lagLoop blockOrderDominates [(7, 8)] (parent lagLoop 0) Previous
      (sinkFuel lagLoop) ([], [0]) = Done InstrsToSink.
Proof.
  assert (isFirstOrderRecurrence lagLoop loop1 blockOrderDominates [(7, 8)] 0
          = (true, [(7, 8); (1, 3); (2, 1)])) as H
    by (vm_compute; reflexivity).
  split; [exact H|].
  destruct (isFirstOrderRecurrence_sinks_only_movable _ _ _ _ _ _ H)
    as (Previous & Is & HP & HL & _).
  exists Previous, Is. split; [exact HP|exact HL].
Defined.

Lemma isFirstOrderRecurrence_covers_all_users_witness :
  isFirstOrderRecurrence lagLoop loop1 blockOrderDominates [(7, 8)] 0 =
    (true, [(7, 8); (1, 3); (2, 1)]) /\
  exists Previous InstrsToSink,
    firstOrderPrevious lagLoop loop1 [(7, 8)] 0 = Some Previous /\
    sinkLoop lagLoop blockOrderDominates [(7, 8)] (parent lagLoop 0) Previous
      (sinkFuel lagLoop) ([], [0]) = Done InstrsToSink.
Proof.
  assert (isFirstOrderRecurrence lagLoop loop1 blockOrderDominates [(7, 8)] 0
          = (true, [(7, 8); (1, 3); (2, 1)])) as H
    by (vm_compute; reflexivity).
  split; [exact H|].
  destruct (isFirstOrderRecurrence_covers_all_users _ _ _ _ _ _ H)
    as (Previous & Is & HP & HL & _).
  exists Previous, Is. split; [exact HP|exact HL].
Defined.
(** ** What [collectCastsToIgnore] collects *)

Section CollectCastsFacts.
Variable F : Function.
Variable TheLoop : Loop.
Variable RecurrenceType : Ty.

Lemma collectCastsToIgnore_loop_collects (Q : InstId -> Prop) fuel Worklist
    Visited Casts Casts' :
  (forall I, contains F TheLoop I = true -> Q I) ->
  (forall I, I ∈ Worklist -> Q I) ->
  collectCastsToIgnore_loop F TheLoop fuel RecurrenceType Worklist Visited
    Casts = Done Casts' ->
  Casts ⊆ Casts' /\
  forall Val, Val ∈ Casts' ->
    Val ∈ Casts \/
    (isCastFromRecurrenceType F RecurrenceType Val = true /\ Q Val).
Proof.
  intros HQ. revert Worklist Visited Casts.
  induction fuel as [|fuel IH]; intros Worklist Visited Casts HW; simpl;
    [done|].
  destruct Worklist as [|Val Worklist'].
  - intros [= <-]. split; [done|]. intros Val ?. by left.
  - destruct (isCastFromRecurrenceType F RecurrenceType Val) eqn:Hcast.
    + intros [Hsub Hall]%IH; [|intros I HI; apply HW; set_solver].
      split; [set_solver|].
      intros V HV. destruct (Hall V HV) as [[->%elem_of_singleton|?]%elem_of_union|?];
        [right; split; [done|apply HW; set_solver]|by left|by right].
    + intros [Hsub Hall]%IH; [done|].
      intros I [HI|HI]%elem_of_app; [|apply HW; set_solver].
      apply elem_of_rev, list_elem_of_filter in HI as [[Hc _] _].
      by apply HQ.
Qed.

(** X25: [collectCastsToIgnore] keeps the casts it is given and adds only
    cast instructions whose operand has the recurrence type, each of them
    the exit instruction or an instruction of the loop; its worklist loop
    always ends. *)
Theorem collectCastsToIgnore_collects (Exit : InstId) (Casts : gset InstId) :
  let Casts' := collectCastsToIgnore F TheLoop Exit RecurrenceType Casts in
  collectCastsToIgnore_loop F TheLoop (2 + operandSlots F) RecurrenceType
    [Exit] ∅ Casts = Done Casts' /\
  Casts ⊆ Casts' /\
  forall Val, Val ∈ Casts' ->
    Val ∈ Casts \/
    (isa_CastInst F Val = true /\
     valueType F <$> getOperand F Val 0 = Some RecurrenceType /\
     (Val = Exit \/ contains F TheLoop Val = true)).
Proof.
  cbv zeta.
  destruct (collectCastsToIgnore_terminates F TheLoop RecurrenceType Exit
              Casts) as (Casts' & HL & ->).
  split; [done|].
  apply (collectCastsToIgnore_loop_collects
           (fun I => I = Exit \/ contains F TheLoop I = true)) in HL
    as [Hsub Hall]; [|by right|intros I ->%list_elem_of_singleton; by left].
  split; [done|].
  intros Val HV. destruct (Hall Val HV) as [?|[Hcast HQ]]; [by left|right].
  unfold isCastFromRecurrenceType in Hcast.
  apply andb_true_iff in Hcast as [? Hty].
  apply bool_decide_eq_true in Hty. done.
Qed.

End CollectCastsFacts.

(** ** Identity constants of the integer kinds *)

(** X26: for every integer kind and every integer type of positive width,
    except the unsigned minimum on a type wider than 64 bits, the constant
    that [getRecurrenceIdentity] returns is neutral: combined with any
    number of the type, it gives that number back. *)
Theorem getRecurrenceIdentity_integer_kinds_neutral (K : RecurKind.t)
    (bits x : Z) (FMF : FastMathFlags) :
  isIntegerRecurrenceKind K = true ->
  (0 < bits)%Z -> (K = RecurKind.UMin -> (bits <= 64)%Z) ->
  (0 <= x < 2 ^ bits)%Z ->
  exists c,
    getRecurrenceIdentity K (IntegerTy bits) FMF = Some (ConstantInt bits c) /\
    combineInt K bits c x = x.
Proof.
  intros HK Hb HU Hx.
  destruct (Z.le_gt_cases bits 64) as [Hle|Hgt].
  { by apply getRecurrenceIdentity_integer_neutral. }
  assert (2 ^ bits = 2 * 2 ^ (bits - 1))%Z as Hpow.
  { rewrite <- Z.pow_succ_r by lia. f_equal. lia. }
  assert (0 < 2 ^ (bits - 1))%Z by (apply Z.pow_pos_nonneg; lia).
  assert (APInt_of_word bits (-1) true = 2 ^ bits - 1)%Z as Hones.
  { unfold APInt_of_word. destruct (Z.leb_spec bits 64); [lia|].
    change ((-1) mod two64)%Z with (2 ^ 64 - 1)%Z. simpl. unfold two64. lia. }
  assert (APInt_of_word bits 0 false = 0)%Z as Hzero.
  { unfold APInt_of_word. destruct (Z.leb_spec bits 64); [lia|]. done. }
  assert (APInt_of_word bits 1 false = 1)%Z as Hone.
  { unfold APInt_of_word. destruct (Z.leb_spec bits 64); [lia|]. done. }
  destruct K; try discriminate HK; simpl; try (specialize (HU eq_refl); lia);
    eexists; (split; [reflexivity|]);
    rewrite ?Hones, ?Hzero, ?Hone; simpl.
  - rewrite Z.mod_small; lia.
  - rewrite Z.mod_small; lia.
  - apply Z.lor_0_l.
  - replace (2 ^ bits - 1)%Z with (Z.ones bits)
      by (rewrite Z.ones_equiv; lia).
    rewrite Z.land_comm, Z.land_ones by lia. apply Z.mod_small. lia.
  - apply Z.lxor_0_l.
  - unfold getSignedMaxValue, toSigned.
    repeat match goal with
           | |- context [(?a <? ?b)%Z] => destruct (Z.ltb_spec a b)
           | H : context [(?a <? ?b)%Z] |- _ => destruct (Z.ltb_spec a b)
           end; lia.
  - unfold getSignedMinValue, toSigned.
    repeat match goal with
           | |- context [(?a <? ?b)%Z] => destruct (Z.ltb_spec a b)
           | H : context [(?a <? ?b)%Z] |- _ => destruct (Z.ltb_spec a b)
           end; lia.
  - lia.
Qed.

Lemma getRecurrenceIdentity_integer_kinds_neutral_witness :
  exists c,
    getRecurrenceIdentity RecurKind.And (IntegerTy 128) FMF_none =
      Some (ConstantInt 128 c) /\
    combineInt RecurKind.And 128 c (2 ^ 100) = (2 ^ 100)%Z.
Proof.
  apply (getRecurrenceIdentity_integer_kinds_neutral RecurKind.And 128
           (2 ^ 100) FMF_none); [reflexivity | lia | discriminate | lia].
Defined.
